(** * Sherpa suggestion algorithms: a shallow embedding of
      [sherpa/algorithms/core.py] and the properties of its specification.

    Modelling conventions.
    - Python [int] is [Z]; Python [float] is [float] below: an exact
      rational ([Qc], canonical, so Leibniz equality is numeric equality)
      or [NaN].  Rounding and infinities are outside the model, with one
      exception: the grid points of a discrete parameter, where [int(v)]
      turns the rounding of [v] into a whole unit.  GridSearch computes
      those on IEEE 754 doubles ([double] below).
    - A parameter value is a [value]: a number, a string, or the NaN cell
      that only an [Objective] column produces.  Python's [1 == 1.0] is
      the Leibniz equality of [VNum].
    - A Python dict keyed by parameter or column names is a
      [gmap string value]; a Python [set] of trial ids is a [gset Z].
    - The results table (a pandas DataFrame with the default range index)
      is a [list row]; the label of a row is its position.
    - Exceptions are the [Raise] results of the [result] monad.
    - Randomness ([p.sample()], [random.sample], [numpy.random.*]) is an
      explicit generator state threaded through every call. *)

From Stdlib Require Import ZArith QArith Qcanon String List Lia.
From Stdlib Require Import Ascii DecimalString DecimalZ SpecFloat.
From stdpp Require Import gmap strings list numbers sorting.

Local Open Scope string_scope.
Local Open Scope Z_scope.

(** ** Exceptions *)

Inductive exn :=
| ValueError
| IndexError
| KeyError
| TypeError
| ZeroDivisionError
| OverflowError
| Exception (msg : string).

Inductive result (A : Type) :=
| Ok (a : A)
| Raise (e : exn).
Arguments Ok {A} a.
Arguments Raise {A} e.

Global Instance exn_eq_dec : EqDecision exn.
Proof. solve_decision. Defined.
Global Instance result_eq_dec `{EqDecision A} : EqDecision (result A).
Proof. solve_decision. Defined.

Definition rbind {A B} (m : result A) (f : A → result B) : result B :=
  match m with
  | Ok a => f a
  | Raise e => Raise e
  end.

Notation "x ←r m ; k" := (rbind m (λ x, k))
  (at level 100, m at next level, right associativity, only parsing).

Definition rmap {A B} (f : A → B) (m : result A) : result B :=
  match m with
  | Ok a => Ok (f a)
  | Raise e => Raise e
  end.

Notation "f <$>r m" := (rmap f m) (at level 61, left associativity).

(** ** Numbers, values, parameters *)

Inductive float := NaN | Fin (q : Qc).

Inductive value :=
| VNum (q : Qc)
| VStr (s : string)
| VNaN.

Global Instance float_eq_dec : EqDecision float.
Proof. solve_decision. Defined.
Global Instance value_eq_dec : EqDecision value.
Proof. solve_decision. Defined.

Definition VInt (z : Z) : value := VNum (Qc_of_Z z).

Definition value_of_float (f : float) : value :=
  match f with
  | NaN => VNaN
  | Fin q => VNum q
  end.

(** [a < b] and [a > b] on floats: false as soon as one side is NaN. *)
Definition float_ltb (a b : float) : bool :=
  match a, b with
  | Fin x, Fin y => bool_decide (x < y)%Qc
  | _, _ => false
  end.
Definition float_gtb (a b : float) : bool := float_ltb b a.

Definition Qc_min (a b : Qc) : Qc := if decide (b < a)%Qc then b else a.
Definition Qc_max (a b : Qc) : Qc := if decide (a < b)%Qc then b else a.

(** [int(v)]: truncation towards zero. *)
Definition Qc_trunc (q : Qc) : Z := Z.quot (Qnum q) (Z.pos (Qden q)).

Inductive kind := Choice | Continuous | Discrete | Ordinal.

Global Instance kind_eq_dec : EqDecision kind.
Proof. solve_decision. Defined.

(** [sherpa.core.Parameter] and its four subclasses: the class is the
    [pkind] tag, [scale] is the string the constructor was given. *)
Record parameter := {
  name : string;
  pkind : kind;
  range : list value;
  scale : string
}.

Abbreviation config := (gmap string value).

(** What [get_suggestion] returns: a dict, [None] (the Stop sentinel) or
    [AlgorithmState.WAIT]. *)
Inductive suggestion :=
| Config (c : gmap string value)
| Stop
| Wait.

Global Instance suggestion_eq_dec : EqDecision suggestion.
Proof. solve_decision. Defined.

(** ** The results table *)

Record row := {
  TrialID : Z;
  Status : string;
  Iteration : Z;
  Objective : float;
  Cols : gmap string value   (* parameter and bookkeeping columns *)
}.

Definition results := list row.

(** [results.query("Status == 'COMPLETED'")] *)
Definition completed_rows (rs : list row) : list row :=
  filter (λ r, Status r = "COMPLETED") rs.

(** [Series.to_dict()] of one row of the table. *)
Definition to_dict (r : row) : gmap string value :=
  <["Trial-ID" := VInt (TrialID r)]>
    (<["Status" := VStr (Status r)]>
       (<["Iteration" := VInt (Iteration r)]>
          (<["Objective" := value_of_float (Objective r)]> (Cols r)))).

(** *** pandas reductions (NaN is skipped, [skipna=True]) *)

Definition dropna (col : list float) : list Qc :=
  omap (λ f, match f with Fin q => Some q | NaN => None end) col.

(** [Series.min()] / [Series.max()] of a float column: NaN when nothing
    is left after dropping NaN. *)
Definition series_min (col : list float) : float :=
  match dropna col with
  | [] => NaN
  | q :: qs => Fin (foldl Qc_min q qs)
  end.
Definition series_max (col : list float) : float :=
  match dropna col with
  | [] => NaN
  | q :: qs => Fin (foldl Qc_max q qs)
  end.

(** [Series.max()] of the integer [Iteration] column: NaN ([None]) on an
    empty selection. *)
Definition iteration_max (col : list Z) : option Z :=
  match col with
  | [] => None
  | z :: zs => Some (foldl Z.max z zs)
  end.

(** The scan behind [idxmin]/[idxmax]: position and value of the first
    best non-NaN entry. *)
Fixpoint argbest (better : Qc → Qc → bool) (col : list float) (i : nat)
    (best : option (nat * Qc)) : option (nat * Qc) :=
  match col with
  | [] => best
  | NaN :: tl => argbest better tl (S i) best
  | Fin q :: tl =>
      argbest better tl (S i)
        (match best with
         | Some (j, b) => if better q b then Some (i, q) else Some (j, b)
         | None => Some (i, q)
         end)
  end.

(** [Series.idxmin()]: raises [ValueError] on an empty Series, is NaN
    ([None]) when every entry is NaN, else the label of the first
    minimum. *)
Definition idxmin (col : list float) : result (option nat) :=
  match col with
  | [] => Raise ValueError
  | _ => Ok (fst <$> argbest (λ q b, bool_decide (q < b)%Qc) col 0%nat None)
  end.
Definition idxmax (col : list float) : result (option nat) :=
  match col with
  | [] => Raise ValueError
  | _ => Ok (fst <$> argbest (λ q b, bool_decide (b < q)%Qc) col 0%nat None)
  end.

(** ** Algorithm.get_best_result *)

Definition empty_results_warning : string :=
  "Empty results file! Returning empty dictionary.".

(** Returns the warnings logged and the dictionary. *)
Definition get_best_result (rs : list row) (lower_is_better : bool)
    : result (list string * gmap string value) :=
  best_idx ←r (if lower_is_better then idxmin (Objective <$> rs)
               else idxmax (Objective <$> rs));
  match best_idx with
  | None => Ok ([empty_results_warning], ∅)
  | Some i =>
      match rs !! i with
      | Some r => Ok ([], delete "Status" (to_dict r))
      | None => Raise KeyError
      end
  end.

(** ** MedianStoppingRule *)

Module MedianStoppingRule.

Record t := { min_iterations : Z; min_trials : Z }.

(** [results.loc[results['Trial-ID'] == tid]] *)
Definition rows_of (rs : list row) (tid : Z) : list row :=
  filter (λ r, TrialID r = tid) rs.

(** [rows['Objective'].min() if lower_is_better else rows['Objective'].max()] *)
Definition best_objective (lower_is_better : bool) (rows : list row) : float :=
  if lower_is_better then series_min (Objective <$> rows)
  else series_max (Objective <$> rows).

(** [max_iteration < k], false when [max_iteration] is NaN. *)
Definition max_iteration_lt (m : option Z) (k : Z) : bool :=
  match m with
  | Some x => bool_decide (x < k)
  | None => false
  end.

(** [iteration <= max_iteration], false when [max_iteration] is NaN. *)
Definition iteration_le (k : Z) (m : option Z) : bool :=
  match m with
  | Some x => bool_decide (k ≤ x)
  | None => false
  end.

(** [numpy.isnan] *)
Definition isnan (f : float) : bool :=
  match f with NaN => true | Fin _ => false end.

(** [numpy.nanmedian]: drop NaN, sort, middle entry or mean of the two
    middle entries; NaN when nothing is left. *)
Definition nanmedian (vals : list float) : float :=
  let s := merge_sort Qcle (dropna vals) in
  let n := length s in
  if Nat.even n then
    match s !! (n / 2 - 1)%nat, s !! (n / 2)%nat with
    | Some a, Some b => Fin ((a + b) / Qc_of_Z 2)%Qc
    | _, _ => NaN
    end
  else
    match s !! (n / 2)%nat with
    | Some a => Fin a
    | None => NaN
    end.

(** One turn of the loop over [other_trial_ids]: [None] is [continue],
    [Some v] is [comparison_vals.append(v)]. *)
Definition comparison_val (self : t) (rs : list row) (lower_is_better : bool)
    (tid : Z) : option float :=
  let trial_rows := rows_of rs tid in
  let max_iteration := iteration_max (Iteration <$> trial_rows) in
  if max_iteration_lt max_iteration (min_iterations self) then None
  else
    let valid_rows :=
      filter (λ r, iteration_le (Iteration r) max_iteration = true)
             trial_rows in
    Some (best_objective lower_is_better valid_rows).

(** [set(results['Trial-ID']) - {trial.id}] *)
Definition other_trial_ids (rs : list row) (trial_id : Z) : gset Z :=
  list_to_set (TrialID <$> rs) ∖ {[trial_id]}.

(** The list the loop builds, in the iteration order of the set. *)
Definition comparison_vals (self : t) (trial_id : Z) (rs : list row)
    (lower_is_better : bool) : list float :=
  omap (comparison_val self rs lower_is_better)
       (elements (other_trial_ids rs trial_id)).

Definition should_trial_stop (self : t) (trial_id : Z) (rs : list row)
    (lower_is_better : bool) : bool :=
  if bool_decide (length rs = 0%nat) then false
  else
    let trial_rows := rows_of rs trial_id in
    let max_iteration := iteration_max (Iteration <$> trial_rows) in
    if max_iteration_lt max_iteration (min_iterations self) then false
    else
      let trial_obj_val := best_objective lower_is_better trial_rows in
      if isnan trial_obj_val && negb (bool_decide (trial_rows = [])) then true
      else
        let vals := comparison_vals self trial_id rs lower_is_better in
        if bool_decide (Z.of_nat (length vals) < min_trials self)
        then false
        else if lower_is_better
             then float_gtb trial_obj_val (nanmedian vals)
             else float_ltb trial_obj_val (nanmedian vals).

End MedianStoppingRule.

(** Specification side of the median rule, read off the rows of the
    table: the best objective so far of a trial is the objective of one
    of its rows that no row of the trial beats (NaN objectives do not
    count); a trial has reached [k] when one of its rows is of iteration
    [k] or later; the median of numbers is the middle one once they are
    in order, or the mean of the two in the middle; a comparison value
    of another trial is its best objective so far, or NaN when it has
    none. *)
Definition is_best_so_far (lower_is_better : bool) (rs : list row)
    (tid : Z) (v : Qc) : Prop :=
  (∃ r, r ∈ rs ∧ TrialID r = tid ∧ Objective r = Fin v)
  ∧ ∀ r q, r ∈ rs → TrialID r = tid → Objective r = Fin q →
           if lower_is_better then (v ≤ q)%Qc else (q ≤ v)%Qc.

Definition has_reached (rs : list row) (tid k : Z) : Prop :=
  ∃ r, r ∈ rs ∧ TrialID r = tid ∧ k ≤ Iteration r.

Definition is_median (xs : list Qc) (md : Qc) : Prop :=
  ∃ s, s ≡ₚ xs ∧ StronglySorted Qcle s
       ∧ if Nat.even (length s)
         then ∃ a b, s !! (length s / 2 - 1)%nat = Some a
                     ∧ s !! (length s / 2)%nat = Some b
                     ∧ md = ((a + b) / Qc_of_Z 2)%Qc
         else s !! (length s / 2)%nat = Some md.

Definition is_nanmedian (vals : list float) (md : Qc) : Prop :=
  ∃ xs, Fin <$> xs = filter (λ f, f ≠ NaN) vals ∧ is_median xs md.

Definition is_comparison_value (lower_is_better : bool) (rs : list row)
    (tid : Z) (f : float) : Prop :=
  match f with
  | Fin v => is_best_so_far lower_is_better rs tid v
  | NaN => ∀ r, r ∈ rs → TrialID r = tid → Objective r = NaN
  end.

(** ** Randomness

    The generator behind [p.sample()], [random.sample(l, len(l))],
    [numpy.random.randint], [numpy.random.choice] and
    [numpy.random.random()].  Only what the library guarantees is
    assumed: a shuffle is a permutation, a drawn index is in range, a
    choice is a member, a uniform draw is in [[0, 1)]. *)
Class Random := {
  rng : Type;
  sample : parameter → rng → value * rng;
  shuffle : ∀ {A : Type}, list A → rng → list A * rng;
  shuffle_perm : ∀ (A : Type) (l : list A) (g : rng), (shuffle l g).1 ≡ₚ l;
  randint : Z → Z → rng → Z * rng;
  randint_range : ∀ lo hi g, lo < hi → lo ≤ (randint lo hi g).1 < hi;
  choice : ∀ {A : Type}, A → list A → rng → A * rng;
  choice_elem : ∀ (A : Type) (x : A) (l : list A) (g : rng),
      (choice x l g).1 ∈ x :: l;
  random : rng → Qc * rng;
  random_range : ∀ g, (0 ≤ (random g).1 < 1)%Qc
}.

(** A deterministic generator, used to run the algorithms on concrete
    inputs: [sample] takes the first value of the range, a shuffle keeps
    the order, index draws take the lower bound, a choice takes the head
    and the uniform draw is 0.  The state counts the draws. *)
Global Program Instance det_random : Random := {|
  rng := nat;
  sample := λ p g, (default VNaN (head (range p)), S g);
  shuffle := λ A l g, (l, S g);
  randint := λ lo hi g, (lo, S g);
  choice := λ A x l g, (x, S g);
  random := λ g, (Qc_of_Z 0, S g)
|}.
Next Obligation. done. Qed.
Next Obligation. simpl. lia. Qed.
Next Obligation. intros. simpl. by left. Qed.
Next Obligation. done. Qed.

(** [{p.name: p.sample() for p in parameters}], filling [acc] left to
    right. *)
Fixpoint sample_all `{Random} (ps : list parameter) (acc : config) (g : rng)
    : config * rng :=
  match ps with
  | [] => (acc, g)
  | p :: tl =>
      let '(v, g') := sample p g in
      sample_all tl (<[name p := v]> acc) g'
  end.

(** ** RandomSearch *)

Module RandomSearch.

Record t := {
  i : Z;            (* number of sampled configs *)
  n : Z;            (* total number of configs to be sampled *)
  m : Z;            (* number of times to repeat each config *)
  j : Z;            (* number of trials submitted with this config *)
  theta_i : config  (* current parameter config *)
}.

(** [__init__]: [max_num_trials or 2**32]; [None] and [0] are falsy. *)
Definition init (max_num_trials : option Z) (repeat : Z) : t :=
  {| i := 0;
     n := match max_num_trials with
          | Some k => if decide (k = 0) then 2 ^ 32 else k
          | None => 2 ^ 32
          end;
     m := repeat;
     j := 0;
     theta_i := ∅ |}.

Definition get_suggestion `{Random} (self : t) (parameters : list parameter)
    (rs : list row) (lower_is_better : bool) (g : rng)
    : suggestion * t * rng :=
  (* If number of repetitions are reached set them back to zero *)
  let j1 := if decide (j self = m self) then 0 else j self in
  (* If there are no repetitions yet, sample a new config *)
  let '(theta1, i1, g1) :=
    if decide (j1 = 0) then
      let '(c, g') := sample_all parameters ∅ g in (c, i self + 1, g')
    else (theta_i self, i self, g) in
  (* If the maximum number of configs is reached, return None *)
  if decide (i1 > n self) then
    (Stop, {| i := i1; n := n self; m := m self; j := j1; theta_i := theta1 |}, g1)
  else
    (Config theta1,
     {| i := i1; n := n self; m := m self; j := j1 + 1; theta_i := theta1 |},
     g1).

(** [load] is inherited from [Algorithm]: [pass]. *)
Definition load (self : t) (num_trials : Z) : t := self.

(** Successive calls on one instance; the orchestrator hands in the
    results table and direction of the moment. *)
Fixpoint run `{Random} (self : t) (parameters : list parameter)
    (calls : list (list row * bool)) (g : rng)
    : list suggestion * t * rng :=
  match calls with
  | [] => ([], self, g)
  | (rs, lower_is_better) :: tl =>
      let '(out, self', g') :=
        get_suggestion self parameters rs lower_is_better g in
      let '(outs, self'', g'') := run self' parameters tl g' in
      (out :: outs, self'', g'')
  end.

(** The [k]-th configuration drawn (counting from 0) when sampling
    starts in generator state [g], and the generator state after it. *)
Fixpoint sample_seq `{Random} (parameters : list parameter) (g : rng)
    (k : nat) : config * rng :=
  match k with
  | O => sample_all parameters ∅ g
  | S k' => sample_all parameters ∅ (sample_seq parameters g k').2
  end.

(** One call, in the shape [run_calls] takes. *)
Definition step `{Random} (parameters : list parameter) (s : t * rng)
    (call : list row * bool) : result suggestion * (t * rng) :=
  let '(out, self', g') :=
    get_suggestion s.1 parameters call.1 call.2 s.2 in
  (Ok out, (self', g')).

(** The state after [c] calls on [init (Some N) M], sampling from
    generator state [g0]. *)
Definition call_inv `{Random} (N M : nat) (parameters : list parameter)
    (g0 : rng) (c : nat) (s : t) (g : rng) : Prop :=
  n s = Z.of_nat N ∧ m s = Z.of_nat M
  ∧ ((c = 0%nat ∧ i s = 0 ∧ j s = 0 ∧ g = g0)
     ∨ (∃ k r : nat,
          c = (k * M + r + 1)%nat ∧ (k < N)%nat ∧ (r < M)%nat
          ∧ i s = Z.of_nat k + 1 ∧ j s = Z.of_nat r + 1
          ∧ theta_i s = (sample_seq parameters g0 k).1
          ∧ g = (sample_seq parameters g0 k).2)
     ∨ ((N * M < c)%nat ∧ i s > Z.of_nat N ∧ j s = 0)).

(** What call number [c] (counting from 0) has to return. *)
Definition expected `{Random} (N M : nat) (parameters : list parameter)
    (g0 : rng) (c : nat) (out : suggestion) : Prop :=
  (∀ k r : nat, (k < N)%nat → (r < M)%nat → c = (k * M + r)%nat →
     out = Config (sample_seq parameters g0 k).1)
  ∧ ((N * M ≤ c)%nat → out = Stop).

(** The call sequence the specification describes for
    [max_num_trials = N] and [repeat = m]: call [k * m + r] (for [k < N],
    [r < m]) returns the [k]-th sampled configuration, and every call
    from [N * m] on returns Stop. *)
Definition repeats_then_stops `{Random} (N m : nat)
    (parameters : list parameter) (g : rng) (outs : list suggestion)
    : Prop :=
  (∀ k r : nat, (k < N)%nat → (r < m)%nat →
     (k * m + r < length outs)%nat →
     outs !! (k * m + r)%nat
     = Some (Config (sample_seq parameters g k).1))
  ∧ (∀ t : nat, (N * m ≤ t)%nat → (t < length outs)%nat →
       outs !! t = Some Stop).

End RandomSearch.

(** ** Python helpers *)

(** [l[k]] with Python's negative indices. *)
Definition py_index {A} (l : list A) (k : Z) : result A :=
  let len := Z.of_nat (length l) in
  let pos := if decide (k < 0) then k + len else k in
  if decide (0 ≤ pos < len) then
    match l !! Z.to_nat pos with
    | Some x => Ok x
    | None => Raise IndexError
    end
  else Raise IndexError.

(** [str(k)] for an [int]. *)
Definition str_of_Z (k : Z) : string :=
  DecimalString.NilZero.string_of_int (Z.to_int k).

(** [int(s)] for a string of decimal digits with an optional sign. *)
Definition int_of_str (s : string) : result Z :=
  match DecimalString.NilZero.int_of_string s with
  | Some d => Ok (Z.of_int d)
  | None => Raise ValueError
  end.

(** The keys of a dict, in the order the model enumerates them. *)
Definition dict_keys (d : config) : list string := (map_to_list d).*1.

(** ** Iterate *)

Module Iterate.

Record t := { hp_iter : list config; count : Z }.

Definition not_found_message (pname : string) (idx : nat) : string :=
  "Parameter " ++ pname ++ " not found in list item "
    ++ str_of_Z (Z.of_nat idx) ++ ".".

(** The inner loop of [get_parameters]: [prange] collects the values of
    [pname] not seen before ([value not in prange]), [idx] is the
    position [enumerate] hands out. *)
Fixpoint collect_range (pname : string) (hps : list config) (idx : nat)
    (prange : list value) : result (list value) :=
  match hps with
  | [] => Ok prange
  | hp :: tl =>
      match hp !! pname with
      | None => Raise (Exception (not_found_message pname idx))
      | Some v =>
          collect_range pname tl (S idx)
            (if decide (v ∈ prange) then prange else prange ++ [v])
      end
  end.

(** The outer loop over [keys]. *)
Fixpoint collect_parameters (keys : list string) (hps : list config)
    (parameters : list parameter) : result (list parameter) :=
  match keys with
  | [] => Ok parameters
  | pname :: tl =>
      prange ←r collect_range pname hps 0 [];
      collect_parameters tl hps
        (parameters ++ [{| name := pname; pkind := Choice;
                           range := prange; scale := "linear" |}])
  end.

Definition get_parameters (hps : list config) : result (list parameter) :=
  match hps with
  | [] => Raise IndexError                       (* self.hp_iter[0] *)
  | first :: _ => collect_parameters (dict_keys first) hps []
  end.

(** [__init__] runs [get_parameters] to check the list. *)
Definition init (hps : list config) : result t :=
  _ ←r get_parameters hps;
  Ok {| hp_iter := hps; count := 0 |}.

(** The outcome of the call and the instance afterwards (an exception
    leaves the assignments made before it in place). *)
Definition get_suggestion (self : t) (parameters : list parameter)
    (rs : list row) (lower_is_better : bool) : result suggestion * t :=
  if decide (Z.of_nat (length (hp_iter self)) ≤ count self) then
    (* No more combinations to try. *)
    (Ok Stop, self)
  else
    match py_index (hp_iter self) (count self) with
    | Ok hp =>
        (Ok (Config hp),
         {| hp_iter := hp_iter self; count := count self + 1 |})
    | Raise e => (Raise e, self)
    end.

Definition load (self : t) (num_trials : Z) : t :=
  {| hp_iter := hp_iter self; count := num_trials |}.

Definition step (parameters : list parameter) (s : t)
    (call : list row * bool) : result suggestion * t :=
  get_suggestion s parameters call.1 call.2.

(** Specification side of [get_parameters]: the distinct values of a
    list in first-seen order, the column of a key, and the categorical
    parameter of a key. *)
Fixpoint first_seen (l : list value) : list value :=
  match l with
  | [] => []
  | x :: tl => x :: filter (λ y, y ≠ x) (first_seen tl)
  end.

Definition column (pname : string) (hps : list config) : list value :=
  omap (λ hp : config, hp !! pname) hps.

Definition choice_of (hps : list config) (pname : string) : parameter :=
  {| name := pname; pkind := Choice;
     range := first_seen (column pname hps); scale := "linear" |}.

End Iterate.

(** ** Running an instance

    Successive [get_suggestion] calls: [step] is one call, from the
    instance (and generator) before it and the arguments of the call to
    the outcome and the instance after it. *)
Fixpoint run_calls {S I : Type} (step : S → I → result suggestion * S)
    (s : S) (calls : list I) : list (result suggestion) :=
  match calls with
  | [] => []
  | c :: tl => let '(out, s') := step s c in out :: run_calls step s' tl
  end.

(** The same run, with the instance after each call. *)
Fixpoint run_trace {S I : Type} (step : S → I → result suggestion * S)
    (s : S) (calls : list I) : list (result suggestion * S) :=
  match calls with
  | [] => []
  | c :: tl => let '(out, s') := step s c in (out, s') :: run_trace step s' tl
  end.

(** The instance after the last call. *)
Fixpoint run_state {S I : Type} (step : S → I → result suggestion * S)
    (s : S) (calls : list I) : S :=
  match calls with
  | [] => s
  | c :: tl => run_state step (step s c).2 tl
  end.

(** "Once Stop has been returned, no later call returns a
    configuration." *)
Definition stop_is_final (outs : list (result suggestion)) : Prop :=
  ∀ (a b : nat) (c : config),
    (a < b)%nat → outs !! a = Some (Ok Stop) → outs !! b ≠ Some (Ok (Config c)).

(** "[load(n)] on a fresh instance yields the state of [n] successful
    calls": whatever calls come later, they return the same from the
    loaded instance as from the instance that made the calls. *)
Definition load_resumes {S I : Type}
    (step : S → I → result suggestion * S) (load : S → Z → S) (fresh : S)
    : Prop :=
  ∀ calls later : list I,
    (∀ out, out ∈ run_calls step fresh calls → ∃ c, out = Ok (Config c)) →
    run_calls step (load fresh (Z.of_nat (length calls))) later
    = run_calls step (run_state step fresh calls) later.

(** ** GridSearch *)

(** [numpy.log10] and [10**v] are not rational functions: they are taken
    as given, with the doubles they return read as rationals. *)
Class Numpy := {
  log10 : Qc → Qc;
  pow10 : Qc → Qc
}.

(** IEEE 754 binary64 with the operations of the Standard Library's
    [SpecFloat]: every operation rounds to the nearest double, ties to
    even. *)
Definition double : Type := spec_float.

Definition double_mul : double → double → double := SFmul 53 1024.
Definition double_add : double → double → double := SFadd 53 1024.

(** The double nearest to a rational: Python's [a / b] of two ints and
    its conversion of an int in a mixed operation; a number that is a
    double already is kept. *)
Definition double_of_Qc (q : Qc) : double :=
  match Qnum q with
  | 0 => S754_zero false
  | Z.pos n =>
      SFdiv 53 1024 (S754_finite false n 0) (S754_finite false (Qden q) 0)
  | Z.neg n =>
      SFdiv 53 1024 (S754_finite true n 0) (S754_finite false (Qden q) 0)
  end.

(** Python raises [OverflowError] for an int beyond the doubles. *)
Definition to_double (q : Qc) : result double :=
  match double_of_Qc q with
  | S754_infinity _ => Raise OverflowError
  | d => Ok d
  end.

(** The number a finite double stands for. *)
Definition double_value (d : double) : option Qc :=
  match d with
  | S754_zero _ => Some (Qc_of_Z 0)
  | S754_finite s m e =>
      Some (if s then - (Qc_of_Z (Z.pos m) * Q2Qc (Qpower 2 e))
            else Qc_of_Z (Z.pos m) * Q2Qc (Qpower 2 e))%Qc
  | S754_infinity _ | S754_nan => None
  end.

(** [int(v)] of a double: [OverflowError] on an infinity, [ValueError]
    on NaN. *)
Definition int_of_double (d : double) : result Z :=
  match d with
  | S754_infinity _ => Raise OverflowError
  | S754_nan => Raise ValueError
  | _ => match double_value d with
         | Some q => Ok (Qc_trunc q)
         | None => Raise ValueError
         end
  end.

(** [v = b - a; v *= frac; v += a] on doubles. *)
Definition double_between (a b frac : Qc) : result double :=
  d ←r to_double (b - a);
  f ←r to_double frac;
  a' ←r to_double a;
  Ok (double_add (double_mul d f) a').

(** [int(10**v)] for the double [v]; numpy's power of an infinity is an
    infinity or zero. *)
Definition int_of_pow10 `{Numpy} (v : double) : result Z :=
  match v with
  | S754_infinity false => Raise OverflowError
  | S754_infinity true => Ok 0
  | S754_nan => Raise ValueError
  | _ => match double_value v with
         | Some q => Ok (Qc_trunc (pow10 q))
         | None => Raise ValueError
         end
  end.

(** [range(k)] *)
Definition py_range (k : Z) : list Z := Z.of_nat <$> seq 0 (Z.to_nat k).

(** A numeric entry of a range; a range holds numbers or strings. *)
Definition num_at (l : list value) (k : nat) : result Qc :=
  match l !! k with
  | Some (VNum q) => Ok q
  | Some _ => Raise TypeError
  | None => Raise IndexError
  end.

Fixpoint result_mapM {A B} (f : A → result B) (l : list A) : result (list B) :=
  match l with
  | [] => Ok []
  | x :: tl => y ←r f x; ys ←r result_mapM f tl; Ok (y :: ys)
  end.

(** [sklearn.model_selection.ParameterGrid]: the items sorted by key,
    then their cartesian product with the last key varying fastest. *)
Fixpoint product (items : list (string * list value)) : list config :=
  match items with
  | [] => [∅]
  | (k, vs) :: tl => vs ≫= (λ v, (λ c : config, <[k := v]> c) <$> product tl)
  end.

Definition ParameterGrid (param_dict : gmap string (list value))
    : list config :=
  product (merge_sort (λ a b, String.leb a.1 b.1) (map_to_list param_dict)).

Module GridSearch.

Record t := {
  grid : option (list config);
  num_grid_points : Z;
  i : Z;            (* number of sampled configs *)
  m : Z;            (* number of times to repeat each config *)
  j : Z;            (* number of trials submitted with this config *)
  theta_i : config  (* current parameter config *)
}.

Definition init (num_grid_points repeat : Z) : t :=
  {| grid := None; num_grid_points := num_grid_points;
     i := 0; m := repeat; j := 0; theta_i := ∅ |}.

(** One turn of [for i in range(self.num_grid_points)].  For a discrete
    parameter the three steps are those of the doubles, since [int(v)]
    depends on their rounding. *)
Definition grid_value `{Numpy} (k : Z) (p : parameter) (idx : Z)
    : result value :=
  hi ←r num_at (range p) 1;
  lo ←r num_at (range p) 0;
  let frac := (Qc_of_Z (idx + 1) / Qc_of_Z (k + 1))%Qc in
  if decide (pkind p = Discrete) then
    if String.eqb (scale p) "log" then
      v ←r double_between (log10 lo) (log10 hi) frac;
      VInt <$>r int_of_pow10 v
    else
      v ←r double_between lo hi frac;
      VInt <$>r int_of_double v
  else
    Ok (VNum (if String.eqb (scale p) "log" then
                pow10 ((log10 hi - log10 lo) * frac + log10 lo)%Qc
              else ((hi - lo) * frac + lo)%Qc)).

(** The candidate list of one parameter. *)
Definition values_of `{Numpy} (k : Z) (p : parameter) : result (list value) :=
  match pkind p with
  | Continuous | Discrete => result_mapM (grid_value k p) (py_range k)
  | Choice | Ordinal => Ok (range p)
  end.

Fixpoint fill_param_dict `{Numpy} (k : Z) (parameters : list parameter)
    (param_dict : gmap string (list value))
    : result (gmap string (list value)) :=
  match parameters with
  | [] => Ok param_dict
  | p :: tl =>
      values ←r values_of k p;
      fill_param_dict k tl (<[name p := values]> param_dict)
  end.

Definition _get_param_dict `{Numpy} (self : t) (parameters : list parameter)
    : result (gmap string (list value)) :=
  fill_param_dict (num_grid_points self) parameters ∅.

Definition get_suggestion `{Numpy} (self : t) (parameters : list parameter)
    (rs : list row) (lower_is_better : bool) : result suggestion * t :=
  let built :=
    if decide (i self = 0 ∧ j self = 0) then
      param_dict ←r _get_param_dict self parameters;
      Ok (Some (ParameterGrid param_dict))
    else Ok (grid self) in
  match built with
  | Raise e => (Raise e, self)
  | Ok grid1 =>
      (* If number of repetitions are reached set them back to zero *)
      let j1 := if decide (j self = m self) then 0 else j self in
      let i1 := if decide (j self = m self) then i self + 1 else i self in
      let self1 := {| grid := grid1; num_grid_points := num_grid_points self;
                      i := i1; m := m self; j := j1;
                      theta_i := theta_i self |} in
      match grid1 with
      | None => (Raise TypeError, self1)            (* len(None) *)
      | Some gr =>
          (* If the maximum number of configs is reached, return None *)
          if decide (i1 = Z.of_nat (length gr)) then (Ok Stop, self1)
          else
            (* If there are no repetitions yet, get a new config *)
            match (if decide (j1 = 0) then py_index gr i1
                   else Ok (theta_i self)) with
            | Raise e => (Raise e, self1)
            | Ok theta1 =>
                (Ok (Config theta1),
                 {| grid := grid1; num_grid_points := num_grid_points self;
                    i := i1; m := m self; j := j1 + 1; theta_i := theta1 |})
            end
      end
  end.

(** [load] is inherited from [Algorithm]: [pass]. *)
Definition load (self : t) (num_trials : Z) : t := self.

Definition step `{Numpy} (parameters : list parameter) (s : t)
    (call : list row * bool) : result suggestion * t :=
  get_suggestion s parameters call.1 call.2.

(** The instance once Stop has been returned: the grid is there and
    [i] has reached its length; a rebuild would give the same grid. *)
Definition stopped `{Numpy} (parameters : list parameter) (s : t) : Prop :=
  0 ≤ i s
  ∧ ∃ gr, grid s = Some gr
          ∧ Z.of_nat (length gr) ≤ i s
          ∧ (i s = 0 ∧ j s = 0 →
             ∃ d, _get_param_dict s parameters = Ok d ∧ ParameterGrid d = gr)
          ∧ (Z.of_nat (length gr) < i s → j s = 0).

(** Specification side: candidate [idx] (counted from 1) of a parameter
    with bounds [lo] and [hi] sits at the fraction [idx / (k + 1)] of
    the way, on the linear or the log scale; a discrete parameter
    truncates it. *)
Definition position `{Numpy} (p : parameter) (lo hi : Qc) (k idx : Z) : Qc :=
  if String.eqb (scale p) "log" then
    pow10 (log10 lo + (log10 hi - log10 lo) * Qc_of_Z idx / Qc_of_Z (k + 1))%Qc
  else (lo + (hi - lo) * Qc_of_Z idx / Qc_of_Z (k + 1))%Qc.

Definition candidate `{Numpy} (p : parameter) (lo hi : Qc) (k idx : Z)
    : value :=
  if decide (pkind p = Discrete) then VInt (Qc_trunc (position p lo hi k idx))
  else VNum (position p lo hi k idx).


End GridSearch.

(** A stand-in for [numpy.log10] and [10**v], used only to run examples
    on the linear scale. *)
Global Instance stand_in_numpy : Numpy := {| log10 := λ x, x; pow10 := λ x, x |}.

(** ** More pandas and numpy helpers *)

(** [d[k]] *)
Definition dict_get (d : config) (k : string) : result value :=
  match d !! k with
  | Some v => Ok v
  | None => Raise KeyError
  end.

(** [{k: d[k] for k in names}], filling [acc] left to right. *)
Fixpoint select_columns (d : config) (names : list string) (acc : config)
    : result config :=
  match names with
  | [] => Ok acc
  | k :: tl => v ←r dict_get d k; select_columns d tl (<[k := v]> acc)
  end.

Definition as_num (v : value) : result Qc :=
  match v with
  | VNum q => Ok q
  | _ => Raise TypeError
  end.

(** [min(l)] and [max(l)] of a list of numbers. *)
Definition range_min (l : list value) : result Qc :=
  nums ←r result_mapM as_num l;
  match nums with
  | [] => Raise ValueError
  | q :: qs => Ok (foldl Qc_min q qs)
  end.
Definition range_max (l : list value) : result Qc :=
  nums ←r result_mapM as_num l;
  match nums with
  | [] => Raise ValueError
  | q :: qs => Ok (foldl Qc_max q qs)
  end.

(** [numpy.clip(x, lo, hi)] is [minimum(maximum(x, lo), hi)]. *)
Definition clipZ (x lo hi : Z) : Z := Z.min (Z.max x lo) hi.
Definition clipQ (x lo hi : Qc) : Qc := Qc_min (Qc_max x lo) hi.

(** [values.index(x)] *)
Fixpoint list_index (x : value) (l : list value) : option nat :=
  match l with
  | [] => None
  | y :: tl => if decide (y = x) then Some 0%nat else S <$> list_index x tl
  end.

(** [l.pop()]: the last element and the list without it. *)
Definition py_pop {A} (l : list A) : option (A * list A) :=
  match reverse l with
  | [] => None
  | x :: r => Some (x, reverse r)
  end.

(** [df.sort_values(by='Objective', ascending=asc)]: the rows in the
    order of their objectives, NaN objectives last ([na_position='last']).
    The sort is the insertion sort that numpy's quicksort runs on a
    column of up to 16 entries: rows with equal objectives keep their
    table order, also when descending (pandas sorts the reversed column
    and reverses the outcome).  Longer columns are sorted the same way
    here; there pandas promises no order among equal objectives. *)
Definition objective_le (asc : bool) (a b : row) : Prop :=
  match Objective a, Objective b with
  | Fin x, Fin y => if asc then (x ≤ y)%Qc else (y ≤ x)%Qc
  | Fin _, NaN => True
  | NaN, Fin _ => False
  | NaN, NaN => True
  end.

Global Instance objective_le_dec asc : RelDecision (objective_le asc).
Proof.
  intros a b. unfold objective_le.
  destruct (Objective a), (Objective b), asc; apply _.
Defined.

(** [x] goes in front of the first entry it is not behind. *)
Fixpoint insert_sorted {A} (R : relation A) `{!RelDecision R} (x : A)
    (l : list A) : list A :=
  match l with
  | [] => [x]
  | y :: tl => if decide (R x y) then x :: y :: tl
               else y :: insert_sorted R x tl
  end.

Definition insertion_sort {A} (R : relation A) `{!RelDecision R}
    (l : list A) : list A :=
  foldr (insert_sorted R) [] l.

Definition sort_by_objective (asc : bool) (rs : list row) : list row :=
  insertion_sort (objective_le asc) rs.

(** ** LocalSearch *)

Module LocalSearch.

Record t := {
  seed_configuration : config;
  count : Z;
  submitted : list config;
  perturbation_factors : list Qc;
  next_trial : list suggestion;
  repeat_trials : Z
}.

Definition init (seed : config) (factors : list Qc) (repeat : Z) : t :=
  {| seed_configuration := seed; count := 0; submitted := [];
     perturbation_factors := factors; next_trial := [];
     repeat_trials := repeat |}.

Definition with_seed (self : t) (seed : config) : t :=
  {| seed_configuration := seed; count := count self;
     submitted := submitted self;
     perturbation_factors := perturbation_factors self;
     next_trial := next_trial self; repeat_trials := repeat_trials self |}.
Definition with_count (self : t) (c : Z) : t :=
  {| seed_configuration := seed_configuration self; count := c;
     submitted := submitted self;
     perturbation_factors := perturbation_factors self;
     next_trial := next_trial self; repeat_trials := repeat_trials self |}.
Definition with_submitted (self : t) (l : list config) : t :=
  {| seed_configuration := seed_configuration self; count := count self;
     submitted := l;
     perturbation_factors := perturbation_factors self;
     next_trial := next_trial self; repeat_trials := repeat_trials self |}.
Definition with_next_trial (self : t) (l : list suggestion) : t :=
  {| seed_configuration := seed_configuration self; count := count self;
     submitted := submitted self;
     perturbation_factors := perturbation_factors self;
     next_trial := l; repeat_trials := repeat_trials self |}.

(** [[x] * self.repeat_trials] *)
Definition copies (self : t) (x : suggestion) : list suggestion :=
  replicate (Z.to_nat (repeat_trials self)) x.

Definition _perturb (self : t) (candidate : config) (param : parameter)
    (increase : bool) : result config :=
  if decide (pkind param = Ordinal) then
    let shift := if increase then 1 else -1 in
    let values := range param in
    cur ←r dict_get candidate (name param);
    pos ←r match list_index cur values with
           | Some k => Ok k
           | None => Raise ValueError
           end;
    let newidx := clipZ (Z.of_nat pos + shift) 0
                        (Z.of_nat (length values) - 1) in
    v ←r py_index values newidx;
    Ok (<[name param := v]> candidate)
  else
    factor ←r py_index (perturbation_factors self) (if increase then 1 else 0);
    cur ←r dict_get candidate (name param);
    x ←r as_num cur;
    let x1 := (x * factor)%Qc in
    let x2 := if decide (pkind param = Discrete)
              then Qc_of_Z (Qc_trunc x1) else x1 in
    lo ←r range_min (range param);
    hi ←r range_max (range param);
    Ok (<[name param := VNum (clipQ x2 lo hi)]> candidate).

(** "Get best result so far": the seed after the re-seeding step, from
    the seed before it. *)
Definition reseed (seed : config) (parameters : list parameter)
    (rs : list row) (lower_is_better : bool) : result config :=
  if decide (0 < length rs)%nat then
    let completed := completed_rows rs in
    if decide (0 < length completed)%nat then
      best_idx ←r (if lower_is_better then idxmin (Objective <$> completed)
                   else idxmax (Objective <$> completed));
      match best_idx with
      | None => Raise KeyError                  (* completed.loc[nan, ...] *)
      | Some pos =>
          match completed !! pos with
          | Some r => select_columns (to_dict r) (name <$> parameters) ∅
          | None => Raise KeyError
          end
      end
    else Ok seed
  else Ok seed.

(** The perturbations tried for one parameter, in the order they are
    tried. *)
Definition perturbations `{Random} (self : t) (seed : config)
    (param : parameter) (g : rng) : list (result config) * rng :=
  if decide (pkind param = Choice) then
    let '(values, g') := shuffle (range param) g in
    ((λ val, Ok (<[name param := val]> seed)) <$> values, g')
  else
    let '(incrs, g') := shuffle [true; false] g in
    (_perturb self seed param <$> incrs, g').

(** The first perturbation that is not in [self.submitted]. *)
Fixpoint first_new (tried : list config) (cands : list (result config))
    : result (option config) :=
  match cands with
  | [] => Ok None
  | Raise e :: _ => Raise e
  | Ok c :: tl => if decide (c ∈ tried) then first_new tried tl else Ok (Some c)
  end.

(** The loop over the shuffled parameters; [Ok None] is its [else]
    branch. *)
Fixpoint scan `{Random} (self : t) (seed : config) (params : list parameter)
    (g : rng) : result (option config) * rng :=
  match params with
  | [] => (Ok None, g)
  | p :: tl =>
      let '(cands, g') := perturbations self seed p g in
      match first_new (submitted self) cands with
      | Ok None => scan self seed tl g'
      | r => (r, g')
      end
  end.

Definition _get_next_trials `{Random} (self : t) (parameters : list parameter)
    (rs : list row) (lower_is_better : bool) (g : rng)
    : result (list suggestion) * t * rng :=
  let self1 := with_count self (count self + 1) in
  if decide (count self1 = 1) then
    (Ok (copies self1 (Config (seed_configuration self1))),
     with_submitted self1 (submitted self1 ++ [seed_configuration self1]), g)
  else
    (* Get best result so far *)
    match reseed (seed_configuration self1) parameters rs lower_is_better with
    | Raise e => (Raise e, self1, g)
    | Ok seed =>
        let self2 := with_seed self1 seed in
        (* Randomly sample perturbations and return first that hasn't
           been tried *)
        let '(order, g1) := shuffle parameters g in
        let '(found, g2) := scan self2 seed order g1 in
        match found with
        | Raise e => (Raise e, self2, g2)
        | Ok (Some new_params) =>
            (Ok (copies self2 (Config new_params)),
             with_submitted self2 (submitted self2 ++ [new_params]), g2)
        | Ok None => (Ok (copies self2 Stop), self2, g2)
        end
    end.

Definition get_suggestion `{Random} (self : t) (parameters : list parameter)
    (rs : list row) (lower_is_better : bool) (g : rng)
    : result suggestion * t * rng :=
  let '(filled, self1, g1) :=
    match next_trial self with
    | [] =>
        let '(batch, s, g') :=
          _get_next_trials self parameters rs lower_is_better g in
        match batch with
        | Ok l => (Ok (), with_next_trial s l, g')
        | Raise e => (Raise e, s, g')
        end
    | _ :: _ => (Ok (), self, g)
    end in
  match filled with
  | Raise e => (Raise e, self1, g1)
  | Ok _ =>
      match py_pop (next_trial self1) with
      | Some (x, rest) => (Ok x, with_next_trial self1 rest, g1)
      | None => (Raise IndexError, self1, g1)
      end
  end.

(** [load] is inherited from [Algorithm]: [pass]. *)
Definition load (self : t) (num_trials : Z) : t := self.

(** One call, in the shape [run_calls] takes. *)
Definition step `{Random} (parameters : list parameter) (s : t * rng)
    (call : list row * bool) : result suggestion * (t * rng) :=
  let '(out, self', g') :=
    get_suggestion s.1 parameters call.1 call.2 s.2 in
  (out, (self', g')).

(** The instance between calls when [repeat_trials = 1]. *)
Definition single_inv (s : t) : Prop :=
  next_trial s = [] ∧ repeat_trials s = 1 ∧ 0 ≤ count s
  ∧ (count s = 0 → submitted s = []).

(** A candidate that has been computed and is already submitted. *)
Definition already (tried : list config) (r : result config) : Prop :=
  ∃ c, r = Ok c ∧ c ∈ tried.

(** The perturbations of one parameter before they are shuffled. *)
Definition unshuffled (self : t) (seed : config) (p : parameter)
    : list (result config) :=
  if decide (pkind p = Choice) then
    (λ val, Ok (<[name p := val]> seed)) <$> range p
  else _perturb self seed p <$> [true; false].

(** Specification side: every parameter/direction perturbation of
    [seed] has been computed and is in [self.submitted]. *)
Definition all_submitted (self : t) (seed : config)
    (parameters : list parameter) : Prop :=
  ∀ p, p ∈ parameters →
    if decide (pkind p = Choice) then
      ∀ val, val ∈ range p → <[name p := val]> seed ∈ submitted self
    else
      ∀ incr : bool, ∃ c, _perturb self seed p incr = Ok c
                          ∧ c ∈ submitted self.

(** The instance has returned Stop for its current seed: some call has
    been made, what is queued is Stop, and the perturbations of the seed
    are all submitted. *)
Definition exhausted (self : t) (parameters : list parameter) : Prop :=
  1 ≤ count self
  ∧ (∃ k, next_trial self = replicate k Stop)
  ∧ all_submitted self (seed_configuration self) parameters.

(** The instance between calls, for any [repeat_trials]: the queue
    holds copies of one suggestion, and if these are Stop the
    perturbations of the seed are all submitted. *)
Definition queue_inv (parameters : list parameter) (s : t) : Prop :=
  0 ≤ count s
  ∧ ∃ (k : nat) (x : suggestion),
      next_trial s = replicate k x
      ∧ (x = Stop → (1 ≤ k)%nat →
         1 ≤ count s ∧ all_submitted s (seed_configuration s) parameters).

End LocalSearch.

(** ** Genetic *)

Module Genetic.

Record t := {
  mutation_rate : Qc;
  max_num_trials : option Z;
  count : Z
}.

Definition init (mutation_rate : Qc) (max_num_trials : option Z) : t :=
  {| mutation_rate := mutation_rate; max_num_trials := max_num_trials;
     count := 0 |}.

Definition _get_candidate `{Random} (parameters : list parameter)
    (rs : list row) (lower_is_better : bool) (min_candidates : Z) (g : rng)
    : result config * rng :=
  let population :=
    if decide (0 < length rs)%nat
    then Some (filter (λ r, Status r ≠ "INTERMEDIATE") rs)  (* select only completed trials *)
    else None in
  match population with
  | Some pop =>
      if decide (Z.of_nat (length pop) < min_candidates) then
        let '(c, g') := sample_all parameters ∅ g in (Ok c, g')
      else
        let sorted := sort_by_objective lower_is_better pop in
        let high := Z.of_nat (length pop) `div` 3 in
        if decide (0 < high) then
          (* pick randomly among top 33% *)
          let '(idx, g') := randint 0 high g in
          (trial_all_values ←r py_index sorted idx;
           select_columns (to_dict trial_all_values) (name <$> parameters) ∅,
           g')
        else (Raise ValueError, g)
  | None => let '(c, g') := sample_all parameters ∅ g in (Ok c, g')
  end.

(** The mutation branch: every parameter object with that name is
    sampled, the last one wins. *)
Fixpoint mutate `{Random} (param_name : string) (parameters : list parameter)
    (acc : config) (g : rng) : config * rng :=
  match parameters with
  | [] => (acc, g)
  | p :: tl =>
      if decide (param_name = name p) then
        let '(v, g') := sample p g in
        mutate param_name tl (<[param_name := v]> acc) g'
      else mutate param_name tl acc g
  end.

(** The loop over [trial_1_params.keys()]. *)
Fixpoint crossover `{Random} (self : t) (parameters : list parameter)
    (trial_1_params trial_2_params : config) (keys : list string)
    (acc : config) (g : rng) : result config * rng :=
  match keys with
  | [] => (Ok acc, g)
  | param_name :: tl =>
      (* randomly choose where to get the value from *)
      let '(param_origin, g1) := random g in
      if decide (param_origin < mutation_rate self)%Qc then
        let '(acc', g2) := mutate param_name parameters acc g1 in
        crossover self parameters trial_1_params trial_2_params tl acc' g2
      else if decide (param_origin
                      < mutation_rate self
                        + (Qc_of_Z 1 - mutation_rate self) / Qc_of_Z 2)%Qc then
        match dict_get trial_1_params param_name with
        | Ok v => crossover self parameters trial_1_params trial_2_params tl
                    (<[param_name := v]> acc) g1
        | Raise e => (Raise e, g1)
        end
      else
        match dict_get trial_2_params param_name with
        | Ok v => crossover self parameters trial_1_params trial_2_params tl
                    (<[param_name := v]> acc) g1
        | Raise e => (Raise e, g1)
        end
  end.

(** [self.max_num_trials and self.count >= self.max_num_trials] *)
Definition cap_reached (self : t) : bool :=
  match max_num_trials self with
  | Some k => bool_decide (k ≠ 0) && bool_decide (k ≤ count self)
  | None => false
  end.

Definition get_suggestion `{Random} (self : t) (parameters : list parameter)
    (rs : list row) (lower_is_better : bool) (g : rng)
    : result suggestion * t * rng :=
  if cap_reached self then (Ok Stop, self, g)
  else
    (* Choose 2 of the top trials and get their parameter values *)
    let '(t1, g1) := _get_candidate parameters rs lower_is_better 10 g in
    match t1 with
    | Raise e => (Raise e, self, g1)
    | Ok trial_1_params =>
        let '(t2, g2) := _get_candidate parameters rs lower_is_better 10 g1 in
        match t2 with
        | Raise e => (Raise e, self, g2)
        | Ok trial_2_params =>
            let '(next, g3) :=
              crossover self parameters trial_1_params trial_2_params
                (dict_keys trial_1_params) ∅ g2 in
            match next with
            | Raise e => (Raise e, self, g3)
            | Ok params_values_for_next_trial =>
                (Ok (Config params_values_for_next_trial),
                 {| mutation_rate := mutation_rate self;
                    max_num_trials := max_num_trials self;
                    count := count self + 1 |}, g3)
            end
        end
    end.

(** [load] is inherited from [Algorithm]: [pass]. *)
Definition load (self : t) (num_trials : Z) : t := self.

Definition step `{Random} (parameters : list parameter) (s : t * rng)
    (call : list row * bool) : result suggestion * (t * rng) :=
  let '(out, self', g') :=
    get_suggestion s.1 parameters call.1 call.2 s.2 in
  (out, (self', g')).

End Genetic.

(** ** Repeat *)

(** An order on values and on key tuples for [groupby], which returns
    its groups sorted by key.  Numbers come before strings here; pandas
    only sorts columns of one type. *)
Definition value_leb (a b : value) : bool :=
  match a, b with
  | VNum x, VNum y => bool_decide (x ≤ y)%Qc
  | VNum _, _ => true
  | VStr _, VNum _ => false
  | VStr x, VStr y => String.leb x y
  | VStr _, VNaN => true
  | VNaN, VNaN => true
  | VNaN, _ => false
  end.

Fixpoint key_leb (a b : list value) : bool :=
  match a, b with
  | [], _ => true
  | _ :: _, [] => false
  | x :: a', y :: b' =>
      if decide (x = y) then key_leb a' b' else value_leb x y
  end.

(** [mean] and [var] (sample variance, [ddof=1]) of the non-NaN entries
    of a column, as [agg] computes them. *)
Definition Qc_sum (xs : list Qc) : Qc := foldr Qcplus (Qc_of_Z 0) xs.

Definition series_mean (col : list float) : float :=
  let xs := dropna col in
  match xs with
  | [] => NaN
  | _ => Fin (Qc_sum xs / Qc_of_Z (Z.of_nat (length xs)))%Qc
  end.

Definition series_var (col : list float) : float :=
  let xs := dropna col in
  match series_mean col with
  | NaN => NaN
  | Fin mu =>
      if decide (length xs ≤ 1)%nat then NaN
      else Fin (Qc_sum ((λ x, (x - mu) * (x - mu)) <$> xs)
                / Qc_of_Z (Z.of_nat (length xs) - 1))%Qc
  end.

(** [x['var'] / x['count']] *)
Definition float_div_count (f : float) (k : Z) : float :=
  match f with
  | NaN => NaN
  | Fin q => if decide (k = 0) then NaN else Fin (q / Qc_of_Z k)%Qc
  end.

Module Repeat.

(** A row of [aggregate_results]: the key columns (one per parameter,
    then [Status]), [Objective] (the mean), [count] and
    [varObjective]. *)
Record agg_row := {
  agg_key : list value;
  agg_Objective : float;
  agg_count : Z;
  agg_varObjective : float
}.

(** The wrapped algorithm: its state and its [get_suggestion]. *)
Record inner := {
  inner_state : Type;
  inner_get_suggestion :
    inner_state → list parameter → option (list agg_row) → bool →
    result suggestion * inner_state
}.

Record t (A : inner) := {
  algorithm : inner_state A;
  num_times : Z;
  queue : list suggestion;
  prev_completed : Z;
  wait_for_completion : bool
}.
Arguments algorithm {A} _.
Arguments num_times {A} _.
Arguments queue {A} _.
Arguments prev_completed {A} _.
Arguments wait_for_completion {A} _.

Definition init {A : inner} (algorithm : inner_state A) (num_times : Z)
    (wait_for_completion : bool) : t A :=
  {| algorithm := algorithm; num_times := num_times; queue := [];
     prev_completed := 0; wait_for_completion := wait_for_completion |}.

(** The [groupby] key of a row. *)
Definition row_key (names : list string) (r : row) : result (list value) :=
  result_mapM (dict_get (to_dict r)) (names ++ ["Status"]).

(** The objectives of the rows of one group. *)
Definition group_objectives (keyed : list (list value * row))
    (k : list value) : list float :=
  (λ kr, Objective kr.2) <$> filter (λ kr, kr.1 = k) keyed.

Definition aggregate_group (keyed : list (list value * row))
    (k : list value) : agg_row :=
  let objs := group_objectives keyed k in
  let cnt := Z.of_nat (length (dropna objs)) in
  {| agg_key := k;
     agg_Objective := series_mean objs;
     agg_count := cnt;
     agg_varObjective := float_div_count (series_var objs) cnt |}.

(** [completed.groupby(...).agg(['mean', 'var', 'count']).loc[:,
    'Objective'] ... .query("count >= num_times")]: rows with a NaN key
    are left out of every group. *)
Definition aggregate (names : list string) (num_times : Z)
    (completed : list row) : result (list agg_row) :=
  keys ←r result_mapM (row_key names) completed;
  let keyed := filter (λ kr, VNaN ∉ kr.1) (zip keys completed) in
  let groups :=
    aggregate_group keyed <$> merge_sort key_leb (remove_dups keyed.*1) in
  Ok (filter (λ g, num_times ≤ agg_count g) groups).

Definition get_suggestion {A : inner} (self : t A)
    (parameters : list parameter) (rs : option (list row))
    (lower_is_better : bool) : result suggestion * t A :=
  let pop_from (s : t A) :=
    match py_pop (queue s) with
    | Some (x, rest) =>
        (Ok x, {| algorithm := algorithm s; num_times := num_times s;
                  queue := rest; prev_completed := prev_completed s;
                  wait_for_completion := wait_for_completion s |})
    | None => (Raise IndexError, s)
    end in
  let consult (s : t A) (aggregate_results : option (list agg_row)) :=
    let '(out, alg') :=
      inner_get_suggestion A (algorithm s) parameters aggregate_results
        lower_is_better in
    let s' := {| algorithm := alg'; num_times := num_times s;
                 queue := queue s; prev_completed := prev_completed s;
                 wait_for_completion := wait_for_completion s |} in
    match out with
    | Raise e => (Raise e, s')
    | Ok suggestion =>
        pop_from
          {| algorithm := alg'; num_times := num_times s;
             queue := queue s
                      ++ replicate (Z.to_nat (num_times s)) suggestion;
             prev_completed := prev_completed s;
             wait_for_completion := wait_for_completion s |}
    end in
  match queue self with
  | [] =>
      match rs with
      | Some (r :: rs') =>
          let completed := completed_rows (r :: rs') in
          if wait_for_completion self
             && bool_decide (Z.of_nat (length completed)
                             < prev_completed self + num_times self)
          then (Ok Wait, self)
          else
            let self1 :=
              {| algorithm := algorithm self; num_times := num_times self;
                 queue := queue self;
                 prev_completed := prev_completed self + num_times self;
                 wait_for_completion := wait_for_completion self |} in
            match aggregate (name <$> parameters) (num_times self)
                    completed with
            | Raise e => (Raise e, self1)
            | Ok aggregate_results => consult self1 (Some aggregate_results)
            end
      | _ => consult self None
      end
  | _ :: _ => pop_from self
  end.

(** [load] is inherited from [Algorithm]: [pass]. *)
Definition load {A : inner} (self : t A) (num_trials : Z) : t A := self.

(** Specification side.  The completed rows whose key is [k], and the
    reading of "the groups that are passed on" by the number of rows. *)
Definition rows_with_key (names : list string) (completed : list row)
    (k : list value) : list row :=
  filter (λ r, row_key names r = Ok k) completed.

Definition passed_by_row_count (names : list string) (num_times : Z)
    (completed : list row) (table : list agg_row) : Prop :=
  ∀ k, (∃ g, g ∈ table ∧ agg_key g = k) ↔
       rows_with_key names completed k ≠ []
       ∧ num_times ≤ Z.of_nat (length (rows_with_key names completed k)).

End Repeat.

(** Specification side of the aggregation, in the words of the
    statistics: a mean times the number of entries is their sum; a
    sample variance times that number less one is the sum of the squared
    distances to the mean; [varObjective] times the count is the
    variance.  The entries of a group are the objectives of its rows
    that are numbers; with none of them the mean is NaN, with fewer than
    two the variance is.  The groups passed on are those of a key
    without NaN that have [num_times] such entries or more. *)
Inductive sums_to : list Qc → Qc → Prop :=
| sums_to_nil : sums_to [] (Qc_of_Z 0)
| sums_to_cons x xs s : sums_to xs s → sums_to (x :: xs) (x + s)%Qc.

Definition is_mean (xs : list Qc) (mu : Qc) : Prop :=
  xs ≠ [] ∧ ∃ s, sums_to xs s ∧ (mu * Qc_of_Z (Z.of_nat (length xs)) = s)%Qc.

Definition is_sample_variance (xs : list Qc) (v : Qc) : Prop :=
  (2 ≤ length xs)%nat
  ∧ ∃ mu s2, is_mean xs mu
             ∧ sums_to ((λ x, (x - mu) * (x - mu))%Qc <$> xs) s2
             ∧ (v * Qc_of_Z (Z.of_nat (length xs) - 1) = s2)%Qc.

Definition group_statistics (rows : list row) (g : Repeat.agg_row) : Prop :=
  ∃ xs : list Qc,
    Fin <$> xs = filter (λ f, f ≠ NaN) (Objective <$> rows)
    ∧ Repeat.agg_count g = Z.of_nat (length xs)
    ∧ match xs with
      | [] => Repeat.agg_Objective g = NaN
      | _ :: _ => ∃ mu, Repeat.agg_Objective g = Fin mu ∧ is_mean xs mu
      end
    ∧ if decide (length xs ≤ 1)%nat then Repeat.agg_varObjective g = NaN
      else ∃ v w, is_sample_variance xs v
                  ∧ Repeat.agg_varObjective g = Fin w
                  ∧ (w * Qc_of_Z (Z.of_nat (length xs)) = v)%Qc.

Definition passed_groups (names : list string) (num_times : Z)
    (completed : list row) (table : list Repeat.agg_row) : Prop :=
  NoDup (Repeat.agg_key <$> table)
  ∧ ∀ g, g ∈ table ↔
      (VNaN ∉ Repeat.agg_key g)
      ∧ Repeat.rows_with_key names completed (Repeat.agg_key g) ≠ []
      ∧ group_statistics
          (Repeat.rows_with_key names completed (Repeat.agg_key g)) g
      ∧ num_times ≤ Repeat.agg_count g.

(** An inner algorithm that only records the table it is given. *)
Definition recording_inner : Repeat.inner :=
  {| Repeat.inner_state := list (option (list Repeat.agg_row));
     Repeat.inner_get_suggestion := λ seen _ table _,
       (Ok (Config ∅), (seen ++ [table])%list) |}.

(** ** PopulationBasedTraining *)

(** [int(v)] of a cell: a string of digits or a number. *)
Definition int_of_value (v : value) : result Z :=
  match v with
  | VStr s => int_of_str s
  | VNum q => Ok (Qc_trunc q)
  | VNaN => Raise ValueError
  end.

(** [s.split(',')] *)
Fixpoint py_split (sep : ascii) (s : string) : list string :=
  match s with
  | EmptyString => [EmptyString]
  | String c tl =>
      if decide (c = sep) then EmptyString :: py_split sep tl
      else match py_split sep tl with
           | [] => [String c EmptyString]
           | w :: ws => String c w :: ws
           end
  end.

Module PopulationBasedTraining.

Record t := {
  population_size : Z;
  parameter_range : gmap string (list value);
  perturbation_factors : list Qc;
  generation : Z;
  count : Z;
  random_sampler : RandomSearch.t
}.

Definition init (population_size : Z)
    (parameter_range : gmap string (list value))
    (perturbation_factors : list Qc) : t :=
  {| population_size := population_size;
     parameter_range := parameter_range;
     perturbation_factors := perturbation_factors;
     generation := 0; count := 0;
     random_sampler := RandomSearch.init None 1 |}.

(** [self.parameter_range.get(param.name) or param.range] *)
Definition bounds_of (self : t) (param : parameter) : list value :=
  match parameter_range self !! name param with
  | Some (v :: vs) => v :: vs
  | _ => range param
  end.

(** [_perturb]: the loop over the parameters, on the candidate dict. *)
Fixpoint _perturb `{Random} (self : t) (candidate : config)
    (parameters : list parameter) (g : rng) : result config * rng :=
  match parameters with
  | [] => (Ok candidate, g)
  | param :: tl =>
      match pkind param with
      | Continuous | Discrete =>
          match perturbation_factors self with
          | [] => (Raise ValueError, g)
          | f0 :: fs =>
              let '(factor, g1) := choice f0 fs g in
              match
                (cur ←r dict_get candidate (name param);
                 x ←r as_num cur;
                 let x1 := (x * factor)%Qc in
                 let x2 := if decide (pkind param = Discrete)
                           then Qc_of_Z (Qc_trunc x1) else x1 in
                 lo ←r range_min (bounds_of self param);
                 hi ←r range_max (bounds_of self param);
                 Ok (<[name param := VNum (clipQ x2 lo hi)]> candidate))
              with
              | Ok candidate' => _perturb self candidate' tl g1
              | Raise e => (Raise e, g1)
              end
          end
      | Ordinal =>
          let '(shift, g1) := choice (-1) [0; 1] g in
          let values := bounds_of self param in
          match
            (cur ←r dict_get candidate (name param);
             pos ←r match list_index cur values with
                    | Some k => Ok k
                    | None => Raise ValueError
                    end;
             let newidx := clipZ (Z.of_nat pos + shift) 0
                                 (Z.of_nat (length values) - 1) in
             v ←r py_index values newidx;
             Ok (<[name param := v]> candidate))
          with
          | Ok candidate' => _perturb self candidate' tl g1
          | Raise e => (Raise e, g1)
          end
      | Choice =>
          let '(v, g1) := sample param g in
          _perturb self (<[name param := v]> candidate) tl g1
      end
  end.

(** The members of generation [gen] that have completed, best first. *)
Definition generation_df (rs : list row) (gen : Z) (lower_is_better : bool)
    : list row :=
  sort_by_objective lower_is_better
    (filter (λ r, Cols r !! "generation" = Some (VInt gen))
            (completed_rows rs)).

(** [for key in ['load_from', 'save_to', 'lineage']: trial[key] = d[key]] *)
Fixpoint copy_keys (d : config) (keys : list string) (trial : config)
    : result config :=
  match keys with
  | [] => Ok trial
  | k :: tl => v ←r dict_get d k; copy_keys d tl (<[k := v]> trial)
  end.

Definition _truncation_selection `{Random} (self : t)
    (parameters : list parameter) (rs : list row) (lower_is_better : bool)
    (g : rng) : result config * rng :=
  (* Select correct generation and sort generation members *)
  let gdf := generation_df rs (generation self - 1) lower_is_better in
  if decide (population_size self = 0) then (Raise ZeroDivisionError, g)
  else
    let slot := (count self - 1) `mod` population_size self in
    let '(picked, g1) :=
      if decide (Qc_of_Z slot / Qc_of_Z (population_size self)
                 < Qc_of_Z 8 / Qc_of_Z 10)%Qc then
        (* Go through top 80% of generation *)
        (to_dict <$>r py_index gdf slot, g)
      else
        (* For the rest, sample from top 20% and perturb *)
        let high := population_size self `div` 5 in
        if decide (0 < high) then
          let '(idx, g') := randint 0 high g in
          match py_index gdf idx with
          | Ok r => _perturb self (to_dict r) parameters g'
          | Raise e => (Raise e, g')
          end
        else (Raise ValueError, g) in
    (d ←r picked;
     trial ←r select_columns d (name <$> parameters) ∅;
     copy_keys d ["load_from"; "save_to"; "lineage"] trial,
     g1).

Definition with_counters (self : t) (c gen : Z) (sampler : RandomSearch.t)
    : t :=
  {| population_size := population_size self;
     parameter_range := parameter_range self;
     perturbation_factors := perturbation_factors self;
     generation := gen; count := c; random_sampler := sampler |}.

Definition get_suggestion `{Random} (self : t) (parameters : list parameter)
    (rs : list row) (lower_is_better : bool) (g : rng)
    : result suggestion * t * rng :=
  let count1 := count self + 1 in
  if decide (population_size self = 0) then
    (Raise ZeroDivisionError,
     with_counters self count1 (generation self) (random_sampler self), g)
  else
    let generation1 := (count1 - 1) `div` population_size self + 1 in
    let self1 := with_counters self count1 generation1 (random_sampler self) in
    if decide (generation1 = 1) then
      let '(drawn, sampler', g1) :=
        RandomSearch.get_suggestion (random_sampler self) parameters rs
          lower_is_better g in
      match drawn with
      | Config trial0 =>
          let trial :=
            <["generation" := VInt generation1]>
              (<["save_to" := VStr (str_of_Z count1)]>
                 (<["load_from" := VStr ""]>
                    (<["lineage" := VStr ""]> trial0))) in
          (* the dict returned is the sampler's own [theta_i] *)
          (Ok (Config trial),
           with_counters self count1 generation1
             {| RandomSearch.i := RandomSearch.i sampler';
                RandomSearch.n := RandomSearch.n sampler';
                RandomSearch.m := RandomSearch.m sampler';
                RandomSearch.j := RandomSearch.j sampler';
                RandomSearch.theta_i := trial |}, g1)
      | _ =>
          (Raise TypeError,
           with_counters self count1 generation1 sampler', g1)
      end
    else
      let '(selected, g1) :=
        _truncation_selection self1 parameters rs lower_is_better g in
      (trial0 ←r selected;
       save_to ←r dict_get trial0 "save_to";
       parent ←r int_of_value save_to;
       let load_from := str_of_Z parent in
       lineage ←r dict_get trial0 "lineage";
       match lineage with
       | VStr l =>
           Ok (Config
                 (<["generation" := VInt generation1]>
                    (<["lineage" := VStr (l ++ load_from ++ ",")]>
                       (<["save_to" := VStr (str_of_Z count1)]>
                          (<["load_from" := VStr load_from]> trial0)))))
       | _ => Raise TypeError
       end,
       self1, g1).

(** [load] is inherited from [Algorithm]: [pass]. *)
Definition load (self : t) (num_trials : Z) : t := self.

(** A study: the instance, the generator, the suggestions issued so far
    and the results table the orchestrator keeps. *)
Record study `{Random} := {
  alg : t;
  gen_state : rng;
  issued : list config;
  table : list row
}.

Definition bookkeeping : list string :=
  ["generation"; "lineage"; "load_from"; "save_to"].

(** A run: [get_suggestion] calls, whose suggestions are issued as
    trials, interleaved with the orchestrator appending rows that carry
    the bookkeeping fields of an issued trial. *)
Inductive reachable `{Random} (pop : Z) (ranges : gmap string (list value))
    (factors : list Qc) (parameters : list parameter) (g0 : rng)
    : study → Prop :=
| reach_init :
    reachable pop ranges factors parameters g0
      {| alg := init pop ranges factors; gen_state := g0;
         issued := []; table := [] |}
| reach_suggest st lower_is_better out self' g' :
    reachable pop ranges factors parameters g0 st →
    get_suggestion (alg st) parameters (table st) lower_is_better
      (gen_state st) = (out, self', g') →
    reachable pop ranges factors parameters g0
      {| alg := self'; gen_state := g';
         issued := match out with
                   | Ok (Config trial) => issued st ++ [trial]
                   | _ => issued st
                   end;
         table := table st |}
| reach_report st trial r :
    reachable pop ranges factors parameters g0 st →
    trial ∈ issued st →
    (∀ k, k ∈ bookkeeping → Cols r !! k = trial !! k) →
    reachable pop ranges factors parameters g0
      {| alg := alg st; gen_state := gen_state st;
         issued := issued st; table := table st ++ [r] |}.

(** The same run as a program: the orchestrator's events, executed in
    order.  A report copies the whole suggestion into the row. *)
Inductive event :=
| Suggest (lower_is_better : bool)
| Report (idx : nat) (trial_id : Z) (status : string) (iteration : Z)
         (objective : float).

Definition study_step `{Random} (parameters : list parameter) (st : study)
    (e : event) : study :=
  match e with
  | Suggest lower_is_better =>
      let '(out, self', g') :=
        get_suggestion (alg st) parameters (table st) lower_is_better
          (gen_state st) in
      {| alg := self'; gen_state := g';
         issued := match out with
                   | Ok (Config trial) => issued st ++ [trial]
                   | _ => issued st
                   end;
         table := table st |}
  | Report idx trial_id status iteration objective =>
      match issued st !! idx with
      | Some trial =>
          {| alg := alg st; gen_state := gen_state st; issued := issued st;
             table := table st
                      ++ [{| TrialID := trial_id; Status := status;
                             Iteration := iteration; Objective := objective;
                             Cols := trial |}] |}
      | None => st
      end
  end.

Definition run_study `{Random} (pop : Z) (ranges : gmap string (list value))
    (factors : list Qc) (parameters : list parameter) (g0 : rng)
    (events : list event) : study :=
  foldl (study_step parameters)
    {| alg := init pop ranges factors; gen_state := g0;
       issued := []; table := [] |} events.

(** Specification side: the fields of a trial, and its ancestry: the
    [save_to] identifiers from the generation-1 ancestor down to the
    parent. *)
Definition field (trial : config) (k : string) : option string :=
  match trial !! k with
  | Some (VStr s) => Some s
  | _ => None
  end.

Inductive ancestry (trials : list config) : config → list string → Prop :=
| ancestry_seed trial :
    trial !! "generation" = Some (VInt 1) →
    field trial "lineage" = Some "" →
    field trial "load_from" = Some "" →
    ancestry trials trial []
| ancestry_child trial parent chain gen id l :
    parent ∈ trials →
    trial !! "generation" = Some (VInt gen) →
    parent !! "generation" = Some (VInt (gen - 1)) →
    field parent "save_to" = Some id →
    field trial "load_from" = Some id →
    field parent "lineage" = Some l →
    field trial "lineage" = Some (l ++ id ++ ",") →
    ancestry trials parent chain →
    ancestry trials trial (chain ++ [id]).

(** The lineage string of an ancestry, and strings without a given
    character. *)
Definition lineage_of (chain : list string) : string :=
  foldr (λ id acc, id ++ "," ++ acc) "" chain.

Fixpoint no_char (c : ascii) (s : string) : Prop :=
  match s with
  | EmptyString => True
  | String a tl => a ≠ c ∧ no_char c tl
  end.

(** What holds of a study throughout a run. *)
Definition issued_ok `{Random} (st : study) (trial : config) : Prop :=
  ∃ (gen c : Z) (chain : list string),
    trial !! "generation" = Some (VInt gen)
    ∧ field trial "save_to" = Some (str_of_Z c)
    ∧ 1 ≤ c ≤ count (alg st)
    ∧ (gen = 1 → field trial "lineage" = Some ""
                 ∧ field trial "load_from" = Some "")
    ∧ ancestry (issued st) trial chain
    ∧ field trial "lineage" = Some (lineage_of chain)
    ∧ Forall (no_char ",") chain.

Definition study_inv `{Random} (pop : Z) (st : study) : Prop :=
  0 ≤ count (alg st)
  ∧ population_size (alg st) = pop
  ∧ (∀ trial, trial ∈ issued st → issued_ok st trial)
  ∧ (∀ t1 t2, t1 ∈ issued st → t2 ∈ issued st →
       field t1 "save_to" = field t2 "save_to" → t1 = t2)
  ∧ (∀ r, r ∈ table st →
       ∃ trial, trial ∈ issued st
                ∧ ∀ k, k ∈ bookkeeping → Cols r !! k = trial !! k).

End PopulationBasedTraining.

(** ** Runs and call invariants of the further properties *)

(** What call number [c] (counting from 0) of a [GridSearch] over the
    grid [gr] with [repeat = M] returns. *)
Definition grid_expected (gr : list config) (M c : nat) : result suggestion :=
  match gr !! (c `div` M)%nat with
  | Some cfg => Ok (Config cfg)
  | None => Ok Stop
  end.

(** A [GridSearch] instance with [num_grid_points = k] and [repeat = M]
    after [c] calls, its grid being [gr]: fresh; inside the grid, at
    repetition [r + 1] of point [q]; or past the end. *)
Definition grid_call_inv (k : Z) (M : nat) (gr : list config) (c : nat)
    (s : GridSearch.t) : Prop :=
  GridSearch.m s = Z.of_nat M ∧ GridSearch.num_grid_points s = k
  ∧ ((c = 0%nat ∧ GridSearch.i s = 0 ∧ GridSearch.j s = 0)
     ∨ (∃ q r : nat,
          c = (q * M + r + 1)%nat ∧ (q < length gr)%nat ∧ (r < M)%nat
          ∧ GridSearch.i s = Z.of_nat q ∧ GridSearch.j s = Z.of_nat r + 1
          ∧ gr !! q = Some (GridSearch.theta_i s)
          ∧ GridSearch.grid s = Some gr)
     ∨ ((length gr * M < c)%nat
        ∧ GridSearch.i s = Z.of_nat (length gr) ∧ GridSearch.j s = 0
        ∧ GridSearch.grid s = Some gr)).

(** The configurations among the outcomes of a run, in call order. *)
Definition suggested_configs (outs : list (result suggestion)) : list config :=
  omap (λ o, match o with Ok (Config c) => Some c | _ => None end) outs.

(** One call of [Repeat], in the shape [run_calls] takes; the results
    argument is optional ([results=None]). *)
Definition repeat_step {A : Repeat.inner} (parameters : list parameter)
    (s : Repeat.t A) (call : option (list row) * bool)
    : result suggestion * Repeat.t A :=
  Repeat.get_suggestion s parameters call.1 call.2.

(** * Properties *)

Local Open Scope list_scope.

(** ** Algorithm.get_best_result *)

Section ArgBest.
Variable better : Qc → Qc → bool.

Lemma argbest_None col i best :
  argbest better col i best = None ↔ best = None ∧ dropna col = [].
Proof.
  revert i best. induction col as [|[|q] tl IH]; intros i best; simpl.
  - tauto.
  - apply IH.
  - rewrite IH. split; [intros [H _]|intros [_ H]; discriminate].
    destruct best as [[j b]|]; [destruct (better q b)|]; discriminate.
Qed.

Lemma argbest_position col i best k q :
  argbest better col i best = Some (k, q) →
  best = Some (k, q) ∨ (i ≤ k)%nat ∧ col !! (k - i)%nat = Some (Fin q).
Proof.
  revert i best. induction col as [|[|q0] tl IH]; intros i best; simpl.
  - auto.
  - intros H. destruct (IH _ _ H) as [?|[Hle Hk]]; [auto|right].
    split; [lia|]. replace (k - i)%nat with (S (k - S i)) by lia. done.
  - intros H. destruct (IH _ _ H) as [Hb|[Hle Hk]].
    + destruct best as [[j b]|]; [destruct (better q0 b)|];
        simplify_eq; auto; right; (split; [lia|]);
        by rewrite Nat.sub_diag.
    + right. split; [lia|].
      replace (k - i)%nat with (S (k - S i)) by lia. done.
Qed.
End ArgBest.

Lemma argbest_min col i best k q :
  argbest (λ q b, bool_decide (q < b)%Qc) col i best = Some (k, q) →
  (∀ q', Fin q' ∈ col → (q ≤ q')%Qc)
  ∧ (∀ j b, best = Some (j, b) → (q ≤ b)%Qc).
Proof.
  revert i best. induction col as [|[|q0] tl IH]; intros i best; simpl.
  - intros ->. split; [intros ? H; inversion H|].
    intros ?? [= -> ->]. apply Qcle_refl.
  - intros H. destruct (IH _ _ H) as [H1 H2]. split; [|done].
    intros q' Hin. apply H1. by inversion Hin.
  - intros H. destruct (IH _ _ H) as [H1 H2]. clear IH H.
    destruct best as [[j b]|]; [case_bool_decide|].
    + specialize (H2 _ _ eq_refl). split.
      * intros q' Hin. inversion Hin; subst; auto.
      * intros ?? [= -> ->]. apply Qclt_le_weak. by eapply Qcle_lt_trans.
    + specialize (H2 _ _ eq_refl). split.
      * intros q' Hin. inversion Hin; subst; auto.
        eapply Qcle_trans; [done|]. by apply Qcnot_lt_le.
      * by intros ?? [= -> ->].
    + specialize (H2 _ _ eq_refl). split; [|done].
      intros q' Hin. inversion Hin; subst; auto.
Qed.

Lemma argbest_max col i best k q :
  argbest (λ q b, bool_decide (b < q)%Qc) col i best = Some (k, q) →
  (∀ q', Fin q' ∈ col → (q' ≤ q)%Qc)
  ∧ (∀ j b, best = Some (j, b) → (b ≤ q)%Qc).
Proof.
  revert i best. induction col as [|[|q0] tl IH]; intros i best; simpl.
  - intros ->. split; [intros ? H; inversion H|].
    intros ?? [= -> ->]. apply Qcle_refl.
  - intros H. destruct (IH _ _ H) as [H1 H2]. split; [|done].
    intros q' Hin. apply H1. by inversion Hin.
  - intros H. destruct (IH _ _ H) as [H1 H2]. clear IH H.
    destruct best as [[j b]|]; [case_bool_decide|].
    + specialize (H2 _ _ eq_refl). split.
      * intros q' Hin. inversion Hin; subst; auto.
      * intros ?? [= -> ->]. apply Qclt_le_weak. by eapply Qclt_le_trans.
    + specialize (H2 _ _ eq_refl). split.
      * intros q' Hin. inversion Hin; subst; auto.
        eapply Qcle_trans; [|done]. by apply Qcnot_lt_le.
      * by intros ?? [= -> ->].
    + specialize (H2 _ _ eq_refl). split; [|done].
      intros q' Hin. inversion Hin; subst; auto.
Qed.

Lemma dropna_nil_iff col : dropna col = [] ↔ ∀ f, f ∈ col → f = NaN.
Proof.
  induction col as [|[|q] tl IH]; simpl.
  - split; [intros _ ? H; inversion H|done].
  - rewrite IH. split; intros H f Hin.
    + inversion Hin; subst; auto.
    + apply H. by right.
  - split; [done|]. intros H. specialize (H (Fin q)). 
    discriminate H. by left.
Qed.

(** A non-empty table whose objectives are all NaN: the warning is
    logged and the empty dictionary returned. *)
Lemma get_best_result_all_nan rs lower_is_better :
  rs ≠ [] →
  (∀ r, r ∈ rs → Objective r = NaN) →
  get_best_result rs lower_is_better = Ok ([empty_results_warning], ∅).
Proof.
  intros Hne Hnan. unfold get_best_result.
  assert (dropna (Objective <$> rs) = []) as Hd.
  { apply dropna_nil_iff. intros f [r [-> Hr]]%list_elem_of_fmap. auto. }
  destruct rs as [|r0 rs']; [done|].
  destruct lower_is_better; unfold idxmin, idxmax;
    cbn [fmap list_fmap rbind] in *;
    match goal with |- context [argbest ?b ?c ?i ?o] =>
      assert (argbest b c i o = None) as -> by (by apply argbest_None)
    end; done.
Qed.

(** Some objective is finite: the row returned is the first one that
    attains the minimum (maximum), without its [Status]. *)
Lemma get_best_result_finite rs lower_is_better :
  (∃ r q, r ∈ rs ∧ Objective r = Fin q) →
  ∃ i r q,
    rs !! i = Some r ∧ Objective r = Fin q
    ∧ get_best_result rs lower_is_better
      = Ok ([], delete "Status" (to_dict r))
    ∧ ∀ r' q', r' ∈ rs → Objective r' = Fin q' →
        if lower_is_better then (q ≤ q')%Qc else (q' ≤ q)%Qc.
Proof.
  intros (r0 & q0 & Hin & Hq0). unfold get_best_result.
  assert (dropna (Objective <$> rs) ≠ []) as Hd.
  { rewrite dropna_nil_iff. intros H.
    specialize (H (Fin q0)). discriminate H.
    apply list_elem_of_fmap. eauto. }
  assert (rs ≠ []) as Hne by (intros ->; inversion Hin).
  destruct lower_is_better.
  - destruct (argbest (λ q b, bool_decide (q < b)%Qc) (Objective <$> rs)
                0%nat None) as [[k q]|] eqn:E.
    2: { apply argbest_None in E. tauto. }
    destruct (argbest_position _ _ _ _ _ _ E) as [?|[_ Hk]]; [done|].
    rewrite Nat.sub_0_r, list_lookup_fmap in Hk.
    destruct (rs !! k) as [r|] eqn:Hr; [|done]. simpl in Hk.
    exists k, r, q. split_and!; [done|congruence| |].
    + unfold idxmin. destruct rs; [done|]. 
      cbn [fmap list_fmap rbind] in *. rewrite E. simpl. by rewrite Hr.
    + intros r' q' Hr' Hq'. apply argbest_min in E as [E _]. apply E.
      apply list_elem_of_fmap. exists r'. eauto.
  - destruct (argbest (λ q b, bool_decide (b < q)%Qc) (Objective <$> rs)
                0%nat None) as [[k q]|] eqn:E.
    2: { apply argbest_None in E. tauto. }
    destruct (argbest_position _ _ _ _ _ _ E) as [?|[_ Hk]]; [done|].
    rewrite Nat.sub_0_r, list_lookup_fmap in Hk.
    destruct (rs !! k) as [r|] eqn:Hr; [|done]. simpl in Hk.
    exists k, r, q. split_and!; [done|congruence| |].
    + unfold idxmax. destruct rs; [done|]. 
      cbn [fmap list_fmap rbind] in *. rewrite E. simpl. by rewrite Hr.
    + intros r' q' Hr' Hq'. apply argbest_max in E as [E _]. apply E.
      apply list_elem_of_fmap. exists r'. eauto.
Qed.

(** C5.  On the empty results table [get_best_result] does not return
    the empty dictionary: [idxmin]/[idxmax] of the empty [Objective]
    column raises [ValueError] before the NaN guard is reached, whatever
    the direction. *)
Theorem get_best_result_empty_table_raises lower_is_better :
  get_best_result [] lower_is_better = Raise ValueError.
Proof. by destruct lower_is_better. Qed.

(** ** MedianStoppingRule *)

Section MedianStoppingRuleFacts.
Import MedianStoppingRule.

Lemma foldl_Zmax_ge zs z :
  z ≤ foldl Z.max z zs ∧ ∀ x, x ∈ zs → x ≤ foldl Z.max z zs.
Proof.
  revert z. induction zs as [|y zs IH]; intros z; simpl.
  - split; [lia|]. intros x H. inversion H.
  - destruct (IH (Z.max z y)) as [H1 H2]. split; [lia|].
    intros x Hx. inversion Hx; subst; [lia|auto].
Qed.

Lemma iteration_max_ge col m x :
  iteration_max col = Some m → x ∈ col → x ≤ m.
Proof.
  destruct col as [|z zs]; [done|]. intros [= <-] Hx.
  destruct (foldl_Zmax_ge zs z) as [H1 H2].
  inversion Hx; subst; auto.
Qed.

Lemma filter_all {A} (P : A → Prop) `{∀ x, Decision (P x)} (l : list A) :
  (∀ x, x ∈ l → P x) → filter P l = l.
Proof.
  induction l as [|x l IH]; intros HP; [done|].
  rewrite filter_cons_True by (apply HP; by left).
  f_equal. apply IH. intros y Hy. apply HP. by right.
Qed.

(** A trial that has reached [min_iterations] contributes its
    best-so-far objective over all of its rows. *)
Lemma comparison_val_reached self rs lower_is_better tid m :
  iteration_max (Iteration <$> rows_of rs tid) = Some m →
  min_iterations self ≤ m →
  comparison_val self rs lower_is_better tid
  = Some (best_objective lower_is_better (rows_of rs tid)).
Proof.
  intros Hm Hle. unfold comparison_val. rewrite Hm. simpl.
  rewrite bool_decide_eq_false_2 by lia. do 2 f_equal.
  apply filter_all. intros r Hr.
  apply bool_decide_eq_true_2, (iteration_max_ge _ _ _ Hm).
  apply list_elem_of_fmap. eauto.
Qed.

Lemma rows_of_nonempty rs tid :
  tid ∈ (list_to_set (TrialID <$> rs) : gset Z) → rows_of rs tid ≠ [].
Proof.
  rewrite elem_of_list_to_set.
  intros (r & -> & Hr)%list_elem_of_fmap Hnil.
  assert (r ∈ rows_of rs (TrialID r)) as Hin
    by by apply list_elem_of_filter.
  rewrite Hnil in Hin. inversion Hin.
Qed.

Lemma foldl_Zmax_in zs z : foldl Z.max z zs ∈ z :: zs.
Proof.
  revert z. induction zs as [|y zs IH]; intros z; simpl; [by left|].
  specialize (IH (Z.max z y)).
  apply elem_of_cons in IH as [->|IH]; [|by do 2 right].
  destruct (Z.max_spec z y) as [[_ ->]|[_ ->]]; [right|]; by left.
Qed.

Lemma iteration_max_in col m : iteration_max col = Some m → m ∈ col.
Proof.
  destruct col as [|z zs]; [done|]. intros [= <-]. apply foldl_Zmax_in.
Qed.

(** With exactly two other trials the loop sees them in one of the two
    possible orders. *)
Lemma two_other_trials rs T A B :
  A ≠ T → B ≠ T → A ≠ B →
  list_to_set (TrialID <$> rs) = ({[T; A; B]} : gset Z) →
  elements (other_trial_ids rs T) = [A; B]
  ∨ elements (other_trial_ids rs T) = [B; A].
Proof.
  intros HA HB HAB Hset. unfold other_trial_ids. rewrite Hset.
  replace (({[T; A; B]} : gset Z) ∖ {[T]}) with ({[A]} ∪ {[B]} : gset Z)
    by set_solver.
  apply Permutation_length_2_inv. symmetry.
  rewrite elements_union_singleton by set_solver.
  by rewrite elements_singleton.
Qed.

(** The decision once every guard has been passed. *)
Lemma should_trial_stop_strict self T rs lower_is_better v md mi :
  rs ≠ [] →
  iteration_max (Iteration <$> rows_of rs T) = Some mi →
  min_iterations self ≤ mi →
  best_objective lower_is_better (rows_of rs T) = Fin v →
  min_trials self
    ≤ Z.of_nat (length (comparison_vals self T rs lower_is_better)) →
  nanmedian (comparison_vals self T rs lower_is_better) = Fin md →
  should_trial_stop self T rs lower_is_better
  = if lower_is_better then bool_decide (md < v)%Qc
    else bool_decide (v < md)%Qc.
Proof.
  intros Hne Hmi Hle Hv Hlen Hmd. unfold should_trial_stop.
  rewrite bool_decide_eq_false_2 by (by destruct rs).
  rewrite Hmi. simpl. rewrite bool_decide_eq_false_2 by lia.
  rewrite Hv. simpl. rewrite bool_decide_eq_false_2 by lia.
  rewrite Hmd. by destruct lower_is_better.
Qed.

Lemma foldl_Qc_min_spec qs : ∀ q,
  foldl Qc_min q qs ∈ q :: qs ∧ ∀ x, x ∈ q :: qs → (foldl Qc_min q qs ≤ x)%Qc.
Proof.
  induction qs as [|y qs IH]; intros q; simpl.
  - split; [by left|]. intros x ->%list_elem_of_singleton. apply Qcle_refl.
  - destruct (IH (Qc_min q y)) as [Hin Hle]. split.
    + apply elem_of_cons in Hin as [Hin|Hin]; [|by do 2 right].
      rewrite Hin. unfold Qc_min. case_decide; [right; left|left].
    + assert (Qc_min q y ≤ q ∧ Qc_min q y ≤ y)%Qc as [H1 H2].
      { unfold Qc_min. case_decide as Hlt.
        - split; [by apply Qclt_le_weak|apply Qcle_refl].
        - split; [apply Qcle_refl|by apply Qcnot_lt_le]. }
      intros x [->|[->|Hx]%elem_of_cons]%elem_of_cons.
      * eapply Qcle_trans; [|exact H1]. apply Hle. by left.
      * eapply Qcle_trans; [|exact H2]. apply Hle. by left.
      * apply Hle. by right.
Qed.

Lemma foldl_Qc_max_spec qs : ∀ q,
  foldl Qc_max q qs ∈ q :: qs ∧ ∀ x, x ∈ q :: qs → (x ≤ foldl Qc_max q qs)%Qc.
Proof.
  induction qs as [|y qs IH]; intros q; simpl.
  - split; [by left|]. intros x ->%list_elem_of_singleton. apply Qcle_refl.
  - destruct (IH (Qc_max q y)) as [Hin Hle]. split.
    + apply elem_of_cons in Hin as [Hin|Hin]; [|by do 2 right].
      rewrite Hin. unfold Qc_max. case_decide; [right; left|left].
    + assert (q ≤ Qc_max q y ∧ y ≤ Qc_max q y)%Qc as [H1 H2].
      { unfold Qc_max. case_decide as Hlt.
        - split; [by apply Qclt_le_weak|apply Qcle_refl].
        - split; [apply Qcle_refl|by apply Qcnot_lt_le]. }
      intros x [->|[->|Hx]%elem_of_cons]%elem_of_cons.
      * eapply Qcle_trans; [exact H1|]. apply Hle. by left.
      * eapply Qcle_trans; [exact H2|]. apply Hle. by left.
      * apply Hle. by right.
Qed.

Lemma elem_of_dropna col q : q ∈ dropna col ↔ Fin q ∈ col.
Proof.
  unfold dropna. rewrite list_elem_of_omap. split.
  - intros ([|x] & Hin & Heq); by simplify_eq.
  - intros Hin. by exists (Fin q).
Qed.

(** The reduction behind the best-so-far objective: the numeric entry
    that no numeric entry beats. *)
Lemma series_min_spec col v :
  Fin v ∈ col → (∀ q, Fin q ∈ col → (v ≤ q)%Qc) → series_min col = Fin v.
Proof.
  intros Hin Hle. unfold series_min.
  apply elem_of_dropna in Hin.
  destruct (dropna col) as [|q qs] eqn:E; [inversion Hin|].
  destruct (foldl_Qc_min_spec qs q) as [Hm Hml]. f_equal.
  apply Qcle_antisym; [by apply Hml|].
  apply Hle, elem_of_dropna. by rewrite E.
Qed.

Lemma series_max_spec col v :
  Fin v ∈ col → (∀ q, Fin q ∈ col → (q ≤ v)%Qc) → series_max col = Fin v.
Proof.
  intros Hin Hle. unfold series_max.
  apply elem_of_dropna in Hin.
  destruct (dropna col) as [|q qs] eqn:E; [inversion Hin|].
  destruct (foldl_Qc_max_spec qs q) as [Hm Hml]. f_equal.
  apply Qcle_antisym; [|by apply Hml].
  apply Hle, elem_of_dropna. by rewrite E.
Qed.

Lemma best_objective_spec lower_is_better rs tid v :
  is_best_so_far lower_is_better rs tid v →
  best_objective lower_is_better (rows_of rs tid) = Fin v.
Proof.
  intros [(r & Hr & Htid & Hv) Hbest]. unfold best_objective.
  assert (Fin v ∈ Objective <$> rows_of rs tid) as Hin.
  { apply list_elem_of_fmap. exists r. split; [done|].
    by apply list_elem_of_filter. }
  assert (∀ q, Fin q ∈ Objective <$> rows_of rs tid →
               if lower_is_better then (v ≤ q)%Qc else (q ≤ v)%Qc) as Hall.
  { intros q (r' & Hq & [Ht' Hr']%list_elem_of_filter)%list_elem_of_fmap.
    by apply (Hbest r'). }
  destruct lower_is_better; [by apply series_min_spec|by apply series_max_spec].
Qed.

Lemma iteration_max_reached rs tid k :
  has_reached rs tid k →
  ∃ m, iteration_max (Iteration <$> rows_of rs tid) = Some m ∧ k ≤ m.
Proof.
  intros (r & Hr & Htid & Hk).
  assert (Iteration r ∈ Iteration <$> rows_of rs tid) as Hin.
  { apply list_elem_of_fmap. exists r. split; [done|].
    by apply list_elem_of_filter. }
  destruct (Iteration <$> rows_of rs tid) as [|z zs] eqn:E; [inversion Hin|].
  eexists. split; [done|].
  etrans; [exact Hk|]. apply (iteration_max_ge (z :: zs)); done.
Qed.

Lemma dropna_numeric vals xs :
  Fin <$> xs = filter (λ f, f ≠ NaN) vals → dropna vals = xs.
Proof.
  revert xs. induction vals as [|[|q] vals IH]; intros xs.
  - by destruct xs.
  - rewrite filter_cons_False by (by intros []). apply IH.
  - rewrite filter_cons_True by done. destruct xs as [|x xs]; [done|].
    intros [= -> Hxs]. cbn. f_equal. by apply IH.
Qed.

(** [numpy.nanmedian] is the median of the entries that are numbers. *)
Lemma nanmedian_spec vals md : is_nanmedian vals md → nanmedian vals = Fin md.
Proof.
  intros (xs & Hxs%dropna_numeric & s & Hperm & Hsorted & Hmid).
  unfold nanmedian. rewrite Hxs.
  assert (merge_sort Qcle xs = s) as ->.
  { apply (StronglySorted_unique Qcle).
    - apply StronglySorted_merge_sort; apply _.
    - done.
    - by rewrite merge_sort_Permutation. }
  cbv zeta. destruct (Nat.even (length s)).
  - destruct Hmid as (a & b & -> & -> & ->). done.
  - by rewrite Hmid.
Qed.

Lemma should_trial_stop_two_others rs T A B (t a b : Qc) :
  A ≠ T → B ≠ T → A ≠ B →
  list_to_set (TrialID <$> rs) = ({[T; A; B]} : gset Z) →
  has_reached rs T 0 → has_reached rs A 0 → has_reached rs B 0 →
  is_best_so_far true rs T t →
  is_best_so_far true rs A a →
  is_best_so_far true rs B b →
  should_trial_stop {| min_iterations := 0; min_trials := 1 |} T rs true
  = float_gtb (Fin t) (nanmedian [Fin a; Fin b])
  ∨ should_trial_stop {| min_iterations := 0; min_trials := 1 |} T rs true
    = float_gtb (Fin t) (nanmedian [Fin b; Fin a]).
Proof.
  intros HA HB HAB Hset HrT HrA HrB Ht%best_objective_spec
    Ha%best_objective_spec Hb%best_objective_spec.
  set (self := {| min_iterations := 0; min_trials := 1 |}).
  destruct (iteration_max_reached rs T 0 HrT) as (mT & HmT & ?).
  destruct (iteration_max_reached rs A 0 HrA) as (mA & HmA & ?).
  destruct (iteration_max_reached rs B 0 HrB) as (mB & HmB & ?).
  assert (rs ≠ []) as Hne.
  { intros ->. simpl in Hset. set_solver. }
  pose proof (comparison_val_reached self rs true A mA HmA) as HcA.
  pose proof (comparison_val_reached self rs true B mB HmB) as HcB.
  rewrite Ha in HcA. rewrite Hb in HcB.
  subst self. unfold should_trial_stop.
  rewrite bool_decide_eq_false_2 by (by destruct rs).
  rewrite HmT. cbn [max_iteration_lt min_iterations].
  rewrite bool_decide_eq_false_2 by lia.
  rewrite Ht. cbn [isnan andb]. unfold comparison_vals.
  destruct (two_other_trials rs T A B HA HB HAB Hset) as [-> | ->];
    cbn [omap list_omap]; rewrite HcA, HcB by (simpl; lia);
    cbn [length min_trials]; rewrite bool_decide_eq_false_2 by lia; auto.
Qed.

Lemma best_objective_all_nan lower_is_better rs tid :
  (∀ r, r ∈ rs → TrialID r = tid → Objective r = NaN) →
  best_objective lower_is_better (rows_of rs tid) = NaN.
Proof.
  intros Hnan.
  assert (dropna (Objective <$> rows_of rs tid) = []) as E.
  { apply elem_of_nil_inv. intros q Hq%elem_of_dropna.
    apply list_elem_of_fmap in Hq as (r & Hq & [Ht Hr]%list_elem_of_filter).
    rewrite (Hnan r Hr Ht) in Hq. done. }
  unfold best_objective, series_min, series_max. rewrite E.
  by destruct lower_is_better.
Qed.

Lemma comparison_value_spec lower_is_better rs tid f :
  is_comparison_value lower_is_better rs tid f →
  best_objective lower_is_better (rows_of rs tid) = f.
Proof.
  destruct f; [apply best_objective_all_nan|apply best_objective_spec].
Qed.

(** What one other trial adds to the comparison values. *)
Lemma comparison_val_cases self rs lower_is_better tid :
  tid ∈ (list_to_set (TrialID <$> rs) : gset Z) →
  (has_reached rs tid (min_iterations self)
   ∧ comparison_val self rs lower_is_better tid
     = Some (best_objective lower_is_better (rows_of rs tid)))
  ∨ (¬ has_reached rs tid (min_iterations self)
     ∧ comparison_val self rs lower_is_better tid = None).
Proof.
  intros Hin. pose proof (rows_of_nonempty _ _ Hin) as Hne.
  destruct (iteration_max (Iteration <$> rows_of rs tid)) as [m|] eqn:Hm.
  2: { destruct (rows_of rs tid); done. }
  destruct (decide (min_iterations self ≤ m)) as [Hle|Hlt].
  - left. split; [|by apply (comparison_val_reached _ _ _ _ m)].
    apply iteration_max_in, list_elem_of_fmap in Hm
      as (r & -> & [Ht Hr]%list_elem_of_filter).
    by exists r.
  - right. split.
    + intros (m' & Hm' & Hle)%iteration_max_reached. by simplify_eq.
    + unfold comparison_val. rewrite Hm. simpl.
      by rewrite bool_decide_eq_true_2 by lia.
Qed.

Lemma omap_by_cases {A B} (cv : A → option B) (F : A → B) (P : A → Prop)
    (l : list A) : ∀ ids,
  NoDup l → NoDup ids →
  (∀ x, x ∈ l → (P x ∧ cv x = Some (F x)) ∨ (¬ P x ∧ cv x = None)) →
  (∀ x, x ∈ ids ↔ x ∈ l ∧ P x) →
  omap cv l ≡ₚ F <$> ids.
Proof.
  induction l as [|x l IH]; intros ids Hl Hids Hcv Hmem.
  - destruct ids as [|y ids]; [done|].
    destruct (proj1 (Hmem y)) as [Hy _]; [by left|inversion Hy].
  - apply NoDup_cons in Hl as [Hx Hl]. cbn [omap list_omap].
    destruct (Hcv x) as [[HP ->]|[HP ->]]; [by left| |].
    + assert (x ∈ ids) as Hin by (apply Hmem; split; [by left|done]).
      apply elem_of_Permutation in Hin as [k Hk].
      rewrite Hk in Hids. apply NoDup_cons in Hids as [Hxk Hkd].
      rewrite Hk, fmap_cons. f_equiv. apply IH; [done|done|..].
      * intros y Hy. apply Hcv. by right.
      * intros y. split.
        -- intros Hy. destruct (proj1 (Hmem y)) as [Hyl HPy].
           { rewrite Hk. by right. }
           split; [|done]. apply elem_of_cons in Hyl as [->|?]; done.
        -- intros [Hy HPy].
           assert (y ∈ ids) as Hyi by (apply Hmem; split; [by right|done]).
           rewrite Hk in Hyi. apply elem_of_cons in Hyi as [->|?]; done.
    + apply IH; [done|done|..].
      * intros y Hy. apply Hcv. by right.
      * intros y. rewrite Hmem, elem_of_cons. split; [|tauto].
        intros [[->|?] ?]; done.
Qed.

(** The comparison values are, in some order, the best objectives of
    the other trials that have reached [min_iterations]. *)
Lemma comparison_vals_spec self T rs lower_is_better ids vals :
  NoDup ids →
  (∀ tid, tid ∈ ids ↔ tid ≠ T ∧ has_reached rs tid (min_iterations self)) →
  Forall2 (is_comparison_value lower_is_better rs) ids vals →
  comparison_vals self T rs lower_is_better ≡ₚ vals.
Proof.
  intros Hnd Hmem Hvals.
  assert (vals = (λ tid, best_objective lower_is_better (rows_of rs tid))
                   <$> ids) as ->.
  { clear -Hvals. induction Hvals as [|tid f ids vals Hf _ IH]; [done|].
    rewrite fmap_cons, <- IH. f_equal. symmetry.
    by apply comparison_value_spec. }
  unfold comparison_vals.
  apply (omap_by_cases _ _ (λ tid, has_reached rs tid (min_iterations self)));
    [apply NoDup_elements|done|..].
  - intros tid Hin%elem_of_elements. apply comparison_val_cases.
    unfold other_trial_ids in Hin. set_solver.
  - intros tid. rewrite Hmem, elem_of_elements. unfold other_trial_ids.
    split.
    + intros [HT Hr]. split; [|done].
      destruct Hr as (r & Hr & Htid & _).
      apply elem_of_difference. split; [|set_solver].
      apply elem_of_list_to_set, list_elem_of_fmap. by exists r.
    + intros [Hin Hr]. split; [set_solver|done].
Qed.

Lemma is_nanmedian_Permutation vals vals' md :
  vals ≡ₚ vals' → is_nanmedian vals md → is_nanmedian vals' md.
Proof.
  intros Hperm (xs & Hxs%dropna_numeric & s & Hs & Hsorted & Hmid).
  exists (dropna vals'). split.
  - clear. induction vals' as [|[|q] vals' IH]; [done|..].
    + by rewrite filter_cons_False by (by intros []).
    + rewrite filter_cons_True by done.
      change (dropna (Fin q :: vals')) with (q :: dropna vals').
      by rewrite fmap_cons, IH.
  - exists s. split; [|done]. rewrite Hs, <- Hxs. unfold dropna.
    by rewrite Hperm.
Qed.

Lemma should_trial_stop_spec self T rs lower_is_better v md ids vals :
  has_reached rs T (min_iterations self) →
  is_best_so_far lower_is_better rs T v →
  NoDup ids →
  (∀ tid, tid ∈ ids ↔ tid ≠ T ∧ has_reached rs tid (min_iterations self)) →
  Forall2 (is_comparison_value lower_is_better rs) ids vals →
  min_trials self ≤ Z.of_nat (length ids) →
  is_nanmedian vals md →
  should_trial_stop self T rs lower_is_better
  = if lower_is_better then bool_decide (md < v)%Qc
    else bool_decide (v < md)%Qc.
Proof.
  intros (mi & Hmi & Hle)%iteration_max_reached Hbest Hnd Hmem Hvals Hlen Hmd.
  pose proof (comparison_vals_spec self T rs lower_is_better ids vals
                Hnd Hmem Hvals) as Hperm.
  apply (should_trial_stop_strict self T rs lower_is_better v md mi);
    try done.
  - destruct Hbest as [(r & Hr & _) _]. intros ->. inversion Hr.
  - by apply best_objective_spec.
  - rewrite Hperm, <- (Forall2_length _ _ _ Hvals). done.
  - apply nanmedian_spec. by apply (is_nanmedian_Permutation vals).
Qed.
End MedianStoppingRuleFacts.

(** C1.  [MedianStoppingRule(min_iterations=0, min_trials=1)] with
    [lower_is_better], on a table of three trials that have each reached
    iteration 0: a trial whose best objective so far is 5 is kept when
    the two other trials have best objectives 3 and 10 (median 6.5) and
    stopped when they have 1 and 2 (median 1.5).  In general, for a
    trial that has reached [min_iterations] and has a best objective
    [v], when at least [min_trials] other trials have reached
    [min_iterations] and [md] is the median of their best objectives,
    NaN ones ignored, the trial is stopped exactly when [v] is strictly
    worse than [md]: strictly greater when lower is better, strictly
    less otherwise.  Best objectives are the minimum (maximum when
    higher is better) over the rows of a trial. *)
Theorem median_stopping_rule_examples :
  (∀ (rs : list row) (T A B : Z),
     A ≠ T → B ≠ T → A ≠ B →
     list_to_set (TrialID <$> rs) = ({[T; A; B]} : gset Z) →
     has_reached rs T 0 → has_reached rs A 0 → has_reached rs B 0 →
     is_best_so_far true rs T (Qc_of_Z 5) →
     (is_best_so_far true rs A (Qc_of_Z 3) →
      is_best_so_far true rs B (Qc_of_Z 10) →
      MedianStoppingRule.should_trial_stop
        {| MedianStoppingRule.min_iterations := 0;
           MedianStoppingRule.min_trials := 1 |} T rs true = false)
     ∧ (is_best_so_far true rs A (Qc_of_Z 1) →
        is_best_so_far true rs B (Qc_of_Z 2) →
        MedianStoppingRule.should_trial_stop
          {| MedianStoppingRule.min_iterations := 0;
             MedianStoppingRule.min_trials := 1 |} T rs true = true))
  ∧ (∀ self (rs : list row) (T : Z) lower_is_better (v md : Qc)
       (ids : list Z) (vals : list float),
       has_reached rs T (MedianStoppingRule.min_iterations self) →
       is_best_so_far lower_is_better rs T v →
       NoDup ids →
       (∀ tid, tid ∈ ids
               ↔ tid ≠ T
                 ∧ has_reached rs tid (MedianStoppingRule.min_iterations self)) →
       Forall2 (is_comparison_value lower_is_better rs) ids vals →
       MedianStoppingRule.min_trials self ≤ Z.of_nat (length ids) →
       is_nanmedian vals md →
       MedianStoppingRule.should_trial_stop self T rs lower_is_better
       = if lower_is_better then bool_decide (md < v)%Qc
         else bool_decide (v < md)%Qc)
  ∧ is_nanmedian [Fin (Qc_of_Z 3); Fin (Qc_of_Z 10)]
      (Qc_of_Z 13 / Qc_of_Z 2)%Qc
  ∧ is_nanmedian [Fin (Qc_of_Z 1); Fin (Qc_of_Z 2)]
      (Qc_of_Z 3 / Qc_of_Z 2)%Qc.
Proof.
  split; [|split_and!; [intros; by eapply should_trial_stop_spec|..]].
  2: { exists [Qc_of_Z 3; Qc_of_Z 10]. split; [done|].
       exists [Qc_of_Z 3; Qc_of_Z 10]. split_and!; [done| |].
       - repeat constructor; by vm_compute.
       - eexists _, _. split_and!; [done..|].
         apply Qc_is_canon. reflexivity. }
  2: { exists [Qc_of_Z 1; Qc_of_Z 2]. split; [done|].
       exists [Qc_of_Z 1; Qc_of_Z 2]. split_and!; [done| |].
       - repeat constructor; by vm_compute.
       - eexists _, _. split_and!; [done..|].
         apply Qc_is_canon. reflexivity. }
  intros rs T A B HA HB HAB Hset HrT HrA HrB Ht. split; intros Ha Hb.
  - destruct (should_trial_stop_two_others rs T A B _ _ _
                HA HB HAB Hset HrT HrA HrB Ht Ha Hb) as [-> | ->];
      by vm_compute.
  - destruct (should_trial_stop_two_others rs T A B _ _ _
                HA HB HAB Hset HrT HrA HrB Ht Ha Hb) as [-> | ->];
      by vm_compute.
Qed.

Ltac rows_cases H :=
  repeat (apply elem_of_cons in H as [->|H]); [..|by apply elem_of_nil in H].

Lemma median_stopping_rule_examples_witness :
  let mk tid it obj :=
    {| TrialID := tid; Status := "INTERMEDIATE"; Iteration := it;
       Objective := obj; Cols := ∅ |} in
  let num (z : Z) := Fin (Qc_of_Z z) in
  MedianStoppingRule.should_trial_stop
    {| MedianStoppingRule.min_iterations := 0;
       MedianStoppingRule.min_trials := 1 |}
    1 [mk 1 1 (num 8); mk 2 1 NaN; mk 3 1 (num 12); mk 1 2 (num 5);
       mk 2 2 (num 4); mk 3 2 (num 10); mk 1 3 (num 7); mk 2 3 (num 3)]
    true = false
  ∧ MedianStoppingRule.should_trial_stop
      {| MedianStoppingRule.min_iterations := 0;
         MedianStoppingRule.min_trials := 1 |}
      1 [mk 1 1 (num 8); mk 2 1 (num 2); mk 3 1 NaN; mk 1 2 (num 5);
         mk 2 2 (num 1); mk 3 2 (num 2); mk 1 3 (num 7); mk 3 3 (num 6)]
      true = true
  ∧ MedianStoppingRule.should_trial_stop
      {| MedianStoppingRule.min_iterations := 2;
         MedianStoppingRule.min_trials := 3 |}
      1 [mk 1 1 (num 3); mk 2 1 (num 0); mk 3 1 (num 2); mk 4 1 NaN;
         mk 5 1 (num 100); mk 1 2 (num 5); mk 2 2 (num 1); mk 3 2 (num 1);
         mk 4 2 (num 30); mk 1 3 (num 4)]
      false = false.
Proof.
  intros mk num. split_and!.
  - apply (proj1 median_stopping_rule_examples _ 1 2 3); try done.
    + by exists (mk 1 1 (num 8)); split_and!; [set_solver|..].
    + by exists (mk 2 2 (num 4)); split_and!; [set_solver|..].
    + by exists (mk 3 1 (num 12)); split_and!; [set_solver|..].
    + split; [exists (mk 1 2 (num 5)); split_and!; [set_solver|done..]|].
      intros r q Hr; rows_cases Hr; subst mk num; simpl; try done;
        intros _ [= <-]; by vm_compute.
    + split; [exists (mk 2 3 (num 3)); split_and!; [set_solver|done..]|].
      intros r q Hr; rows_cases Hr; subst mk num; simpl; try done;
        intros _ [= <-]; by vm_compute.
    + split; [exists (mk 3 2 (num 10)); split_and!; [set_solver|done..]|].
      intros r q Hr; rows_cases Hr; subst mk num; simpl; try done;
        intros _ [= <-]; by vm_compute.
  - apply (proj1 median_stopping_rule_examples _ 1 2 3); try done.
    + by exists (mk 1 1 (num 8)); split_and!; [set_solver|..].
    + by exists (mk 2 2 (num 1)); split_and!; [set_solver|..].
    + by exists (mk 3 2 (num 2)); split_and!; [set_solver|..].
    + split; [exists (mk 1 2 (num 5)); split_and!; [set_solver|done..]|].
      intros r q Hr; rows_cases Hr; subst mk num; simpl; try done;
        intros _ [= <-]; by vm_compute.
    + split; [exists (mk 2 2 (num 1)); split_and!; [set_solver|done..]|].
      intros r q Hr; rows_cases Hr; subst mk num; simpl; try done;
        intros _ [= <-]; by vm_compute.
    + split; [exists (mk 3 2 (num 2)); split_and!; [set_solver|done..]|].
      intros r q Hr; rows_cases Hr; subst mk num; simpl; try done;
        intros _ [= <-]; by vm_compute.
  - transitivity (bool_decide (Qc_of_Z 5 < Qc_of_Z 2)%Qc).
    + apply (proj1 (proj2 median_stopping_rule_examples) _ _ 1 false
               (Qc_of_Z 5) (Qc_of_Z 2) [2; 3; 4] [num 1; num 2; num 30]).
      * by exists (mk 1 2 (num 5)); split_and!; [set_solver|..].
      * split; [exists (mk 1 2 (num 5)); split_and!; [set_solver|done..]|].
        intros r q Hr; rows_cases Hr; subst mk num; simpl; try done;
          intros _ [= <-]; by vm_compute.
      * repeat constructor; set_solver.
      * intros tid. split.
        -- intros Htid. rows_cases Htid; (split; [done|]).
           ++ by exists (mk 2 2 (num 1)); split_and!; [set_solver|..].
           ++ by exists (mk 3 2 (num 1)); split_and!; [set_solver|..].
           ++ by exists (mk 4 2 (num 30)); split_and!; [set_solver|..].
        -- intros [HT (r & Hr & <- & Hit)]. cbn in Hit.
           rows_cases Hr; subst mk; simpl in *; try done; set_solver.
      * constructor; [|constructor; [|constructor; [|constructor]]].
        -- split; [exists (mk 2 2 (num 1)); split_and!; [set_solver|done..]|].
           intros r q Hr; rows_cases Hr; subst mk num; simpl; try done;
             intros _ [= <-]; by vm_compute.
        -- split; [exists (mk 3 1 (num 2)); split_and!; [set_solver|done..]|].
           intros r q Hr; rows_cases Hr; subst mk num; simpl; try done;
             intros _ [= <-]; by vm_compute.
        -- split; [exists (mk 4 2 (num 30)); split_and!; [set_solver|done..]|].
           intros r q Hr; rows_cases Hr; subst mk num; simpl; try done;
             intros _ [= <-]; by vm_compute.
      * done.
      * exists [Qc_of_Z 1; Qc_of_Z 2; Qc_of_Z 30]. split; [done|].
        exists [Qc_of_Z 1; Qc_of_Z 2; Qc_of_Z 30]. split_and!; [done| |done].
        repeat constructor; by vm_compute.
    + by vm_compute.
Defined.

(** ** RandomSearch *)

Section RandomSearchFacts.
Import RandomSearch.
Context `{Random}.
Variables (N M : nat) (parameters : list parameter) (g0 : rng).
Hypothesis N_pos : (1 ≤ N)%nat.
Hypothesis M_pos : (1 ≤ M)%nat.

Local Abbreviation rs_inv := (call_inv N M parameters g0).
Local Abbreviation rs_expected := (expected N M parameters g0).

Lemma rs_inv_init : rs_inv 0 (init (Some (Z.of_nat N)) (Z.of_nat M)) g0.
Proof.
  unfold call_inv, init. simpl. case_decide; [lia|]. auto 10.
Qed.

Lemma decompose_unique (k r k' r' : nat) :
  (r < M)%nat → (r' < M)%nat → (k * M + r = k' * M + r')%nat →
  k = k' ∧ r = r'.
Proof. intros. assert (k = k') by nia. subst. lia. Qed.

Lemma rs_step c s g rs lower_is_better :
  rs_inv c s g →
  rs_expected c (get_suggestion s parameters rs lower_is_better g).1.1
  ∧ rs_inv (S c) (get_suggestion s parameters rs lower_is_better g).1.2
           (get_suggestion s parameters rs lower_is_better g).2.
Proof.
  intros (Hn & Hm & [(-> & Hi & Hj & ->)|[(k & r & -> & Hk & Hr & Hi & Hj & Hth & ->)|(Hc & Hi & Hj)]]);
    unfold get_suggestion; rewrite Hj, Hm, Hn.
  - (* first call *)
    rewrite Hi.
    rewrite (decide_False (P := 0 = Z.of_nat M)) by lia.
    rewrite (decide_True (P := 0 = 0)) by done.
    destruct (sample_all parameters ∅ g0) as [c0 g1] eqn:E.
    rewrite decide_False by lia. cbn [fst snd]. split.
    + split; [|nia]. intros k r Hk Hr Hc.
      assert (k = 0%nat) as -> by nia. simpl. by rewrite E.
    + split_and!; [done..|]. right; left. exists 0%nat, 0%nat.
      simpl. rewrite E. split_and!; auto; lia.
  - rewrite Hi.
    destruct (decide (Z.of_nat r + 1 = Z.of_nat M)) as [Hlast|Hmid].
    + (* the last repeat has been handed out: sample again *)
      rewrite (decide_True (P := 0 = 0)) by done.
      destruct (sample_all parameters ∅ (sample_seq parameters g0 k).2)
        as [c1 g1] eqn:E.
      destruct (decide (Z.of_nat k + 1 + 1 > Z.of_nat N)) as [Hstop|Hgo];
        cbn [fst snd].
      * split.
        -- split; [|done]. intros k' r' Hk' Hr' Hc. exfalso. nia.
        -- split_and!; [done..|]. right; right.
           cbn [i j]. split_and!; [nia|lia|done].
      * split.
        -- split; [|intros; exfalso; nia]. intros k' r' Hk' Hr' Hc.
           destruct (decompose_unique (S k) 0 k' r') as [<- <-];
             [lia|lia|lia|]. simpl. by rewrite E.
        -- split_and!; [done..|]. right; left. exists (S k), 0%nat.
           cbn [i j theta_i sample_seq]. rewrite E.
           split_and!; auto; lia.
    + (* repeat the current configuration *)
      rewrite (decide_False (P := Z.of_nat r + 1 = 0)) by lia.
      rewrite decide_False by lia. cbn [fst snd]. split.
      * split; [|intros; exfalso; nia]. intros k' r' Hk' Hr' Hc.
        destruct (decompose_unique k (S r) k' r') as [<- <-];
          [lia|lia|lia|]. by rewrite Hth.
      * split_and!; [done..|]. right; left. exists k, (S r).
        cbn [i j theta_i]. split_and!; auto; lia.
  - (* exhausted *)
    rewrite (decide_False (P := 0 = Z.of_nat M)) by lia.
    rewrite (decide_True (P := 0 = 0)) by done.
    destruct (sample_all parameters ∅ g) as [c1 g1].
    rewrite decide_True by lia. cbn [fst snd]. split.
    + split; [|done]. intros; exfalso; nia.
    + split_and!; [done..|]. right; right. cbn [i j]. 
      split_and!; [lia|lia|done].
Qed.

Lemma rs_run_expected calls : ∀ c s g,
  rs_inv c s g →
  ∀ u out, (run s parameters calls g).1.1 !! u = Some out →
           rs_expected (c + u) out.
Proof.
  induction calls as [|[rs lib] calls IH]; intros c s g Hinv u out.
  - simpl. by rewrite lookup_nil.
  - simpl. destruct (rs_step c s g rs lib Hinv) as [Hout Hinv'].
    destruct (get_suggestion s parameters rs lib g) as [[o s'] g'].
    specialize (IH (S c) s' g' Hinv').
    destruct (run s' parameters calls g') as [[outs s''] g''].
    cbn [fst snd] in *. destruct u as [|u]; simpl.
    + intros [= <-]. by rewrite Nat.add_0_r.
    + intros Hu. replace (c + S u)%nat with (S c + u)%nat by lia. eauto.
Qed.

Lemma rs_run_length calls : ∀ s g,
  length (run s parameters calls g).1.1 = length calls.
Proof.
  induction calls as [|[rs lib] calls IH]; intros s g; [done|].
  simpl. destruct (get_suggestion s parameters rs lib g) as [[o s'] g'].
  specialize (IH s' g').
  destruct (run s' parameters calls g') as [[outs s''] g''].
  simpl in *. by rewrite IH.
Qed.
End RandomSearchFacts.

(** C6 (as amended).  For [max_num_trials = N ≥ 1] and [repeat = M ≥ 1]
    the calls return exactly [N] sampled configurations, each of them on
    [M] consecutive calls, and Stop on every call after these [N * M],
    whatever results are handed in. *)
Theorem random_search_repeats_then_stops `{Random} (N M : nat)
    (parameters : list parameter) (calls : list (list row * bool))
    (g : rng) :
  (1 ≤ N)%nat → (1 ≤ M)%nat →
  RandomSearch.repeats_then_stops N M parameters g
    (RandomSearch.run
       (RandomSearch.init (Some (Z.of_nat N)) (Z.of_nat M))
       parameters calls g).1.1.
Proof.
  intros HN HM.
  assert (RandomSearch.call_inv N M parameters g 0
            (RandomSearch.init (Some (Z.of_nat N)) (Z.of_nat M)) g) as Hinit
    by (by apply rs_inv_init).
  pose proof (rs_run_expected N M parameters g HN HM calls 0%nat _ _ Hinit)
    as Hrun.
  split.
  - intros k r Hk Hr Hlen.
    destruct (lookup_lt_is_Some_2 _ _ Hlen) as [out Hout].
    rewrite Hout. f_equal. by eapply (Hrun _ _ Hout).
  - intros t Ht Hlen.
    destruct (lookup_lt_is_Some_2 _ _ Hlen) as [out Hout].
    rewrite Hout. f_equal. by apply (Hrun _ _ Hout).
Qed.

Lemma random_search_repeats_then_stops_witness :
  RandomSearch.repeats_then_stops 2 2
    [{| name := "lr"; pkind := Choice; range := [VInt 1; VInt 2];
        scale := "linear" |}] 0%nat
    (RandomSearch.run (RandomSearch.init (Some 2) 2)
       [{| name := "lr"; pkind := Choice; range := [VInt 1; VInt 2];
           scale := "linear" |}]
       (replicate 6 ([], true)) 0%nat).1.1.
Proof.
  apply (random_search_repeats_then_stops 2 2); lia.
Defined.

(** C6 as stated fails for [max_num_trials = 0]: the cap is read as
    "no cap" ([0 or 2**32]), so the first call returns a configuration
    where the stated sequence has Stop. *)
Lemma random_search_zero_cap_counterexample :
  ¬ RandomSearch.repeats_then_stops 0 1
      [{| name := "lr"; pkind := Choice; range := [VInt 1; VInt 2];
          scale := "linear" |}] 0%nat
      (RandomSearch.run (RandomSearch.init (Some 0) 1)
         [{| name := "lr"; pkind := Choice; range := [VInt 1; VInt 2];
             scale := "linear" |}]
         [([], true)] 0%nat).1.1.
Proof.
  intros [_ Hstop]. specialize (Hstop 0%nat).
  assert (∀ c, Some (Config c) ≠ Some Stop) as Hne by done.
  eapply Hne, Hstop; simpl; lia.
Qed.

(** ** Iterate *)

Section IterateFacts.
Import Iterate.

Lemma filter_filter_comm {A} (P Q : A → Prop) `{∀ x, Decision (P x)}
    `{∀ x, Decision (Q x)} (l : list A) :
  filter P (filter Q l) = filter Q (filter P l).
Proof.
  induction l as [|x l IH]; [done|].
  rewrite !filter_cons.
  destruct (decide (Q x)), (decide (P x)); rewrite ?filter_cons;
    repeat case_decide; try done; by rewrite IH.
Qed.

Lemma first_seen_filter (P : value → Prop) `{∀ x, Decision (P x)} l :
  first_seen (filter P l) = filter P (first_seen l).
Proof.
  induction l as [|x l IH]; [done|].
  rewrite filter_cons. simpl. destruct (decide (P x)) as [HP|HP].
  - simpl. rewrite filter_cons_True by done. f_equal.
    by rewrite IH, filter_filter_comm.
  - rewrite filter_cons_False by done. rewrite IH.
    rewrite filter_filter_comm. symmetry. apply filter_all.
    intros y [Hy _]%list_elem_of_filter. congruence.
Qed.

Lemma first_seen_elem_of l x : x ∈ first_seen l ↔ x ∈ l.
Proof.
  induction l as [|y l IH]; [done|]. simpl.
  rewrite !elem_of_cons, list_elem_of_filter, IH.
  destruct (decide (x = y)); naive_solver.
Qed.

Lemma first_seen_NoDup l : NoDup (first_seen l).
Proof.
  induction l as [|y l IH]; simpl; [constructor|].
  constructor; [|by apply NoDup_filter].
  rewrite list_elem_of_filter. naive_solver.
Qed.

(** The inner loop, when every configuration has the key. *)
Lemma collect_range_ok pname hps : ∀ idx prange,
  (∀ hp, hp ∈ hps → is_Some (hp !! pname)) →
  collect_range pname hps idx prange
  = Ok (prange ++ first_seen (filter (λ y, y ∉ prange) (column pname hps))).
Proof.
  induction hps as [|hp hps IH]; intros idx prange Hall.
  - simpl. by rewrite app_nil_r.
  - destruct (Hall hp) as [v Hv]; [by left|].
    unfold column in *. simpl. rewrite Hv. simpl.
    rewrite IH by (intros; apply Hall; by right).
    f_equal. rewrite filter_cons. destruct (decide (v ∈ prange)) as [Hin|Hin].
    + by rewrite decide_False by tauto.
    + rewrite decide_True by done. simpl. rewrite <- app_assoc. simpl.
      do 2 f_equal. rewrite <- first_seen_filter, list_filter_filter.
      f_equal. apply list_filter_iff. intros y.
      rewrite elem_of_app, list_elem_of_singleton. tauto.
Qed.

(** The inner loop, when some configuration lacks the key: the error
    names the key and the position of the first such configuration. *)
Lemma collect_range_missing pname hps : ∀ idx prange,
  (∃ hp, hp ∈ hps ∧ hp !! pname = None) →
  ∃ (pos : nat) (hp : config),
    collect_range pname hps idx prange
    = Raise (Exception (not_found_message pname (idx + pos)))
    ∧ hps !! pos = Some hp ∧ hp !! pname = None
    ∧ ∀ pos' hp', (pos' < pos)%nat → hps !! pos' = Some hp' →
                  is_Some (hp' !! pname).
Proof.
  induction hps as [|hp hps IH]; intros idx prange (bad & Hbad & Hnone).
  - inversion Hbad.
  - simpl. destruct (hp !! pname) as [v|] eqn:Hv.
    + destruct (IH (S idx)
                  (if decide (v ∈ prange) then prange else (prange ++ [v])%list))
        as (pos & hp' & Hr & Hpos & Hk & Hfirst).
      { exists bad. split; [|done]. inversion Hbad; subst; [congruence|done]. }
      exists (S pos), hp'. rewrite Hr.
      replace (idx + S pos)%nat with (S idx + pos)%nat by lia.
      split_and!; [done..|]. intros [|pos'] hp'' Hlt; simpl.
      * intros [= <-]. eauto.
      * apply Hfirst. lia.
    + exists 0%nat, hp. rewrite Nat.add_0_r. split_and!; [done..|]. lia.
Qed.

Lemma collect_parameters_ok hps keys : ∀ acc,
  (∀ hp k, hp ∈ hps → k ∈ keys → is_Some (hp !! k)) →
  collect_parameters keys hps acc = Ok (acc ++ (choice_of hps <$> keys)).
Proof.
  induction keys as [|k keys IH]; intros acc Hall.
  - simpl. by rewrite app_nil_r.
  - simpl. rewrite collect_range_ok by (intros; apply Hall; [done|by left]).
    simpl. rewrite IH by (intros; apply Hall; [done|by right]).
    rewrite <- app_assoc. simpl. do 3 f_equal. unfold choice_of.
    f_equal. f_equal. apply filter_all. intros y _ Hy. inversion Hy.
Qed.

Lemma collect_parameters_missing hps keys : ∀ acc,
  (∃ hp k, hp ∈ hps ∧ k ∈ keys ∧ hp !! k = None) →
  ∃ (k : string) (pos : nat) (hp : config),
    collect_parameters keys hps acc
    = Raise (Exception (not_found_message k pos))
    ∧ k ∈ keys ∧ hps !! pos = Some hp ∧ hp !! k = None.
Proof.
  induction keys as [|k keys IH]; intros acc (bad & kb & Hbad & Hkb & Hnone).
  - inversion Hkb.
  - simpl.
    destruct (decide (Exists (λ hp : config, hp !! k = None) hps))
      as [Hmiss|Hok]; rewrite Exists_exists in Hmiss || rewrite Exists_exists in Hok.
    + destruct (collect_range_missing k hps 0 [] Hmiss)
        as (pos & hp & -> & Hpos & Hk & _).
      exists k, pos, hp. simpl. split_and!; [done| by left |done..].
    + rewrite collect_range_ok.
      2: { intros hp Hhp. destruct (hp !! k) eqn:E; [eauto|].
           exfalso. apply Hok. eauto. }
      simpl. 
      edestruct IH as (k' & pos & hp & -> & Hk' & Hpos & Hnone').
      { exists bad, kb. split_and!; [done| |done].
        inversion Hkb; subst; [|done]. exfalso. apply Hok. eauto. }
      exists k', pos, hp. split_and!; [done|by right|done..].
Qed.

Lemma dict_keys_elem_of (d : config) k : k ∈ dict_keys d ↔ is_Some (d !! k).
Proof.
  unfold dict_keys. rewrite list_elem_of_fmap. split.
  - intros ([k' v] & -> & Hin). apply elem_of_map_to_list in Hin. eauto.
  - intros [v Hv]. exists (k, v). split; [done|].
    by apply elem_of_map_to_list.
Qed.
End IterateFacts.

(** C10.  [Iterate.get_parameters] on a non-empty list of
    configurations: when every configuration has every key of the first
    one, the result is one categorical parameter per key of the first
    configuration, whose range holds the distinct values of that key in
    first-seen order (no duplicates, same members as the column; values
    are compared by equality, not hashed); when some configuration lacks
    one of these keys, an exception is raised whose message names a
    missing key and the index of a configuration that lacks it. *)
Theorem iterate_get_parameters_spec (first : config) (rest : list config) :
  let hps := first :: rest in
  ((∀ hp k, hp ∈ hps → is_Some (first !! k) → is_Some (hp !! k)) →
   Iterate.get_parameters hps
   = Ok (Iterate.choice_of hps <$> dict_keys first)
   ∧ ∀ k, NoDup (range (Iterate.choice_of hps k))
          ∧ ∀ v, v ∈ range (Iterate.choice_of hps k)
                 ↔ ∃ hp, hp ∈ hps ∧ hp !! k = Some v)
  ∧ ((∃ hp k, hp ∈ hps ∧ is_Some (first !! k) ∧ hp !! k = None) →
     ∃ (k : string) (pos : nat) (hp : config),
       Iterate.get_parameters hps
       = Raise (Exception ("Parameter " ++ k ++ " not found in list item "
                             ++ str_of_Z (Z.of_nat pos) ++ ".")%string)
       ∧ is_Some (first !! k) ∧ hps !! pos = Some hp ∧ hp !! k = None).
Proof.
  intros hps. split.
  - intros Hall. split.
    + unfold Iterate.get_parameters, hps.
      rewrite collect_parameters_ok; [done|].
      intros hp k Hhp Hk. apply Hall; [done|].
      by apply dict_keys_elem_of.
    + intros k. split; [apply first_seen_NoDup|]. intros v.
      unfold Iterate.choice_of. cbn [range].
      rewrite first_seen_elem_of. unfold Iterate.column.
      rewrite list_elem_of_omap. naive_solver.
  - intros (hp & k & Hhp & Hk & Hnone).
    destruct (collect_parameters_missing hps (dict_keys first) [])
      as (k' & pos & hp' & Hr & Hk' & Hpos & Hnone').
    { exists hp, k. split_and!; [done| |done]. by apply dict_keys_elem_of. }
    exists k', pos, hp'. split_and!; [done| |done..].
    by apply dict_keys_elem_of.
Qed.

Lemma iterate_get_parameters_spec_witness :
  Iterate.get_parameters
    [{["lr" := VInt 1]}; {["lr" := VInt 2]}; {["lr" := VInt 1]}]
  = Ok [{| name := "lr"; pkind := Choice; range := [VInt 1; VInt 2];
           scale := "linear" |}]
  ∧ ∃ (k : string) (pos : nat) (hp : config),
      Iterate.get_parameters [{["lr" := VInt 1]}; ∅]
      = Raise (Exception ("Parameter " ++ k ++ " not found in list item "
                            ++ str_of_Z (Z.of_nat pos) ++ ".")%string)
      ∧ is_Some (({["lr" := VInt 1]} : config) !! k)
      ∧ [{["lr" := VInt 1]}; ∅] !! pos = Some hp ∧ hp !! k = None.
Proof.
  split.
  - etrans.
    + apply (proj1 (iterate_get_parameters_spec {["lr" := VInt 1]}
                      [{["lr" := VInt 2]}; {["lr" := VInt 1]}])).
      intros hp k Hhp [v [<- _]%lookup_singleton_Some].
      apply elem_of_cons in Hhp as [->|Hhp];
        [rewrite lookup_singleton_eq; eauto|].
      apply elem_of_cons in Hhp as [->|Hhp];
        [rewrite lookup_singleton_eq; eauto|].
      apply elem_of_cons in Hhp as [->|Hhp];
        [rewrite lookup_singleton_eq; eauto|].
      by apply elem_of_nil in Hhp.
    + vm_compute. reflexivity.
  - apply (proj2 (iterate_get_parameters_spec {["lr" := VInt 1]} [∅])).
    exists ∅, "lr". split_and!.
    + apply elem_of_cons. right. apply elem_of_cons. by left.
    + rewrite lookup_singleton_eq. eauto.
    + apply lookup_empty.
Defined.

Example iterate_get_parameters_first_seen :
  Iterate.get_parameters
    [{["act" := VStr "tanh"]}; {["act" := VStr "relu"]};
     {["act" := VStr "tanh"]}; {["act" := VStr "elu"]}]
  = Ok [{| name := "act"; pkind := Choice;
           range := [VStr "tanh"; VStr "relu"; VStr "elu"];
           scale := "linear" |}].
Proof. vm_compute. reflexivity. Qed.

Example iterate_get_parameters_missing_key :
  Iterate.get_parameters [{["act" := VStr "tanh"]}; {["act" := VStr "relu"]}; ∅]
  = Raise (Exception "Parameter act not found in list item 2.").
Proof. vm_compute. reflexivity. Qed.

(** ** GridSearch *)

Section GridSearchFacts.
Import GridSearch.
Context `{Numpy}.

Lemma grid_value_candidate k p lo hi idx :
  pkind p = Continuous →
  range p = [VNum lo; VNum hi] →
  grid_value k p idx = Ok (candidate p lo hi k (idx + 1)).
Proof.
  intros Hk Hr. unfold grid_value, candidate, position. rewrite Hr, Hk.
  cbn [num_at lookup list_lookup rbind].
  rewrite !decide_False by done.
  assert (∀ a b : Qc,
    ((a - b) * (Qc_of_Z (idx + 1) / Qc_of_Z (k + 1)) + b
     = b + (a - b) * Qc_of_Z (idx + 1) / Qc_of_Z (k + 1))%Qc) as E
    by (intros; unfold Qcdiv; ring).
  by rewrite !E.
Qed.


Lemma result_mapM_fmap {A B} (f : A → result B) (h : A → B) l :
  (∀ x, x ∈ l → f x = Ok (h x)) → result_mapM f l = Ok (h <$> l).
Proof.
  induction l as [|x l IH]; intros Hf; [done|].
  simpl. rewrite Hf by (by left). simpl.
  rewrite IH by (intros; apply Hf; by right). done.
Qed.


Lemma py_range_succ k :
  (λ idx, idx + 1) <$> py_range k = seqZ 1 (Z.of_nat (Z.to_nat k)).
Proof.
  unfold py_range, seqZ. rewrite Nat2Z.id, <- list_fmap_compose.
  apply list_fmap_ext. intros _ x _. simpl. lia.
Qed.

(** The candidate list of a continuous parameter. *)
Lemma values_of_numeric k p lo hi :
  pkind p = Continuous →
  range p = [VNum lo; VNum hi] →
  values_of k p
  = Ok (candidate p lo hi k <$> seqZ 1 (Z.of_nat (Z.to_nat k))).
Proof.
  intros Hk Hr. unfold values_of.
  rewrite <- py_range_succ, <- list_fmap_compose. rewrite Hk.
  apply result_mapM_fmap; intros; by apply grid_value_candidate.
Qed.






End GridSearchFacts.

Lemma grid_built_on_first_call `{Numpy} k m ps rs lower_is_better d :
  GridSearch._get_param_dict (GridSearch.init k m) ps = Ok d →
  GridSearch.grid
    (GridSearch.get_suggestion (GridSearch.init k m) ps rs lower_is_better).2
  = Some (ParameterGrid d).
Proof.
  intros Hd. unfold GridSearch.get_suggestion.
  rewrite decide_True by done. rewrite Hd. cbn [rbind].
  repeat (case_decide || case_match); done.
Qed.




(** ** LocalSearch *)

Section LocalSearchFacts.
Import LocalSearch.
Context `{Random}.

Lemma py_pop_replicate {A} (n : nat) (x : A) :
  py_pop (replicate (S n) x) = Some (x, replicate n x).
Proof.
  unfold py_pop. rewrite reverse_replicate. simpl.
  by rewrite reverse_replicate.
Qed.

Lemma first_new_None tried cands :
  first_new tried cands = Ok None ↔ Forall (already tried) cands.
Proof.
  induction cands as [|[c|e] cands IH]; simpl.
  - split; [constructor|done].
  - case_decide as Hc.
    + rewrite IH. split; [intros; constructor; [by exists c|done]|].
      by inversion 1.
    + split; [done|]. intros [(c' & Heq & Hin) _]%Forall_cons.
      by simplify_eq.
  - split; [done|]. intros [(c' & Heq & Hin) _]%Forall_cons. done.
Qed.

Lemma first_new_Some tried cands c :
  first_new tried cands = Ok (Some c) → c ∉ tried.
Proof.
  induction cands as [|[c'|e] cands IH]; simpl; [done| |done].
  case_decide; [done|]. by intros [= <-].
Qed.

Lemma perturbations_perm self seed p g :
  (perturbations self seed p g).1 ≡ₚ unshuffled self seed p.
Proof.
  unfold perturbations, unshuffled. case_decide.
  - pose proof (shuffle_perm _ (range p) g) as Hp.
    destruct (shuffle (range p) g) as [values g']. simpl in *.
    by rewrite Hp.
  - pose proof (shuffle_perm _ [true; false] g) as Hp.
    destruct (shuffle [true; false] g) as [incrs g']. simpl in *.
    by rewrite Hp.
Qed.

Lemma scan_None self seed params : ∀ g,
  (scan self seed params g).1 = Ok None
  ↔ ∀ p, p ∈ params → Forall (already (submitted self)) (unshuffled self seed p).
Proof.
  induction params as [|p params IH]; intros g; simpl.
  - split; [intros _ p Hp; inversion Hp|done].
  - pose proof (perturbations_perm self seed p g) as Hperm.
    destruct (perturbations self seed p g) as [cands g']. simpl in Hperm.
    destruct (first_new (submitted self) cands) as [[c|]|e] eqn:E.
    + simpl. split; [done|]. intros Hall.
      assert (first_new (submitted self) cands = Ok None) as E'.
      { apply first_new_None. rewrite Hperm. apply Hall. by left. }
      congruence.
    + rewrite IH. apply first_new_None in E. rewrite Hperm in E.
      split.
      * intros Hall q Hq. apply elem_of_cons in Hq as [->|Hq]; auto.
      * intros Hall q Hq. apply Hall. by right.
    + simpl. split; [done|]. intros Hall.
      assert (first_new (submitted self) cands = Ok None) as E'.
      { apply first_new_None. rewrite Hperm. apply Hall. by left. }
      congruence.
Qed.

Lemma scan_Some self seed params c : ∀ g,
  (scan self seed params g).1 = Ok (Some c) → c ∉ submitted self.
Proof.
  induction params as [|p params IH]; intros g; simpl; [done|].
  destruct (perturbations self seed p g) as [cands g'].
  destruct (first_new (submitted self) cands) as [[c'|]|e] eqn:E; simpl.
  - intros [= <-]. by eapply first_new_Some.
  - apply IH.
  - done.
Qed.

Lemma all_submitted_unshuffled self seed params :
  all_submitted self seed params
  ↔ ∀ p, p ∈ params → Forall (already (submitted self)) (unshuffled self seed p).
Proof.
  unfold all_submitted, unshuffled.
  split; intros Hall p Hp; specialize (Hall p Hp); case_decide.
  - apply Forall_fmap, Forall_forall. intros val Hval. simpl.
    eexists. split; [done|]. by apply Hall.
  - repeat constructor; apply Hall.
  - intros val Hval. rewrite Forall_fmap, Forall_forall in Hall.
    destruct (Hall val Hval) as (c & [= <-] & Hc). done.
  - intros incr. rewrite Forall_fmap, Forall_forall in Hall.
    apply (Hall incr). destruct incr; set_solver.
Qed.

Lemma all_submitted_same s1 s2 seed params :
  perturbation_factors s1 = perturbation_factors s2 →
  submitted s1 = submitted s2 →
  all_submitted s1 seed params → all_submitted s2 seed params.
Proof.
  intros Hf Hs Hall p Hp. specialize (Hall p Hp).
  unfold _perturb in *. rewrite <- Hf, <- Hs. done.
Qed.
End LocalSearchFacts.

Section LocalSearchCalls.
Import LocalSearch.
Context `{Random}.

(** What [_get_next_trials] does, case by case. *)
Lemma next_trials_spec self ps rs lib g r s' g' :
  _get_next_trials self ps rs lib g = (r, s', g') →
  repeat_trials s' = repeat_trials self
  ∧ perturbation_factors s' = perturbation_factors self
  ∧ next_trial s' = next_trial self
  ∧ count s' = count self + 1
  ∧ ((count self = 0
      ∧ r = Ok (copies self (Config (seed_configuration self)))
      ∧ submitted s' = submitted self ++ [seed_configuration self]
      ∧ seed_configuration s' = seed_configuration self)
     ∨ (count self ≠ 0 ∧ (∃ e, r = Raise e)
        ∧ submitted s' = submitted self)
     ∨ (count self ≠ 0
        ∧ reseed (seed_configuration self) ps rs lib
          = Ok (seed_configuration s')
        ∧ ∃ c, r = Ok (copies self (Config c))
               ∧ c ∉ submitted self
               ∧ submitted s' = submitted self ++ [c])
     ∨ (count self ≠ 0
        ∧ reseed (seed_configuration self) ps rs lib
          = Ok (seed_configuration s')
        ∧ r = Ok (copies self Stop)
        ∧ submitted s' = submitted self
        ∧ all_submitted s' (seed_configuration s') ps)).
Proof.
  unfold _get_next_trials. cbn [count with_count seed_configuration submitted].
  case_decide as Hc.
  { intros [= <- <- <-]. split_and!; [done..|]. left.
    split_and!; [lia|done..]. }
  destruct (reseed (seed_configuration self) ps rs lib) as [seed|e] eqn:Hseed.
  2: { intros [= <- <- <-]. split_and!; [done..|]. right; left.
       split_and!; [lia|by eexists|done]. }
  pose proof (shuffle_perm _ ps g) as Hperm.
  destruct (shuffle ps g) as [order g1]. simpl in Hperm.
  set (self2 := with_seed (with_count self (count self + 1)) seed).
  destruct (scan self2 seed order g1) as [found g2] eqn:Hscan.
  assert ((scan self2 seed order g1).1 = found) as Hfound by by rewrite Hscan.
  destruct found as [[c|]|e]; intros [= <- <- <-];
    (split_and!; [done..|]).
  - right; right; left. split_and!; [lia|done|].
    exists c. split_and!; [done| |done].
    by apply scan_Some in Hfound.
  - right; right; right. split_and!; [lia|done..|].
    apply all_submitted_unshuffled. intros p Hp.
    apply (proj1 (scan_None self2 seed order g1) Hfound).
    by rewrite Hperm.
  - right; left. split_and!; [lia|by eexists|done].
Qed.

(** Once the perturbations of the seed are all submitted, the batch is
    Stop. *)
Lemma next_trials_exhausted self ps rs lib g seed :
  count self ≠ 0 →
  reseed (seed_configuration self) ps rs lib = Ok seed →
  all_submitted self seed ps →
  ∃ g', _get_next_trials self ps rs lib g
        = (Ok (copies self Stop),
           with_seed (with_count self (count self + 1)) seed, g').
Proof.
  intros Hc Hseed Hall. unfold _get_next_trials.
  cbn [count with_count seed_configuration submitted].
  rewrite decide_False by lia. rewrite Hseed.
  pose proof (shuffle_perm _ ps g) as Hperm.
  destruct (shuffle ps g) as [order g1]. simpl in Hperm.
  set (self2 := with_seed (with_count self (count self + 1)) seed).
  destruct (scan self2 seed order g1) as [found g2] eqn:Hscan.
  assert ((scan self2 seed order g1).1 = Ok None) as Hnone.
  { apply scan_None. intros p Hp.
    apply (proj1 (all_submitted_unshuffled self2 seed ps)).
    - by apply (all_submitted_same self).
    - by rewrite <- Hperm. }
  rewrite Hscan in Hnone. simpl in Hnone. subst found. eauto.
Qed.

Lemma single_step s ps rs lib g out s' g' :
  single_inv s →
  get_suggestion s ps rs lib g = (out, s', g') →
  single_inv s'
  ∧ (∃ ext, submitted s' = submitted s ++ ext)
  ∧ ∀ c, out = Ok (Config c) → c ∉ submitted s ∧ c ∈ submitted s'.
Proof.
  intros (Hq & Hk & Hc & Hfresh). unfold get_suggestion. rewrite Hq.
  destruct (_get_next_trials s ps rs lib g) as [[r s1] g1] eqn:E.
  apply next_trials_spec in E
    as (Hk1 & _ & Hq1 & Hc1 & [(Hc0 & -> & Hs1 & _)|[(_ & [e ->] & Hs1)|
         [(_ & _ & c & -> & Hnew & Hs1)|(_ & _ & -> & Hs1 & _)]]]);
    unfold copies; rewrite ?Hk; cbn [Z.to_nat Pos.to_nat Pos.iter_op replicate
      Nat.add next_trial with_next_trial py_pop reverse rev_append].
  - intros [= <- <- <-]. split_and!.
    + split_and!; cbn; [done|congruence|lia|lia].
    + cbn. eauto.
    + intros c [= <-]. cbn. rewrite Hs1, (Hfresh Hc0). set_solver.
  - intros [= <- <- <-]. split_and!.
    + split_and!; [congruence|congruence|lia|lia].
    + exists []. by rewrite app_nil_r.
    + done.
  - intros [= <- <- <-]. split_and!.
    + split_and!; cbn; [done|congruence|lia|lia].
    + cbn. eauto.
    + intros c' [= <-]. cbn. rewrite Hs1. set_solver.
  - intros [= <- <- <-]. split_and!.
    + split_and!; cbn; [done|congruence|lia|lia].
    + exists []. cbn. by rewrite app_nil_r.
    + done.
Qed.
End LocalSearchCalls.

Lemma single_run `{Random} ps calls : ∀ s g,
  LocalSearch.single_inv s →
  (∀ b cb sb,
     run_trace (LocalSearch.step ps) (s, g) calls !! b
     = Some (Ok (Config cb), sb) →
     cb ∉ LocalSearch.submitted s ∧ cb ∈ LocalSearch.submitted sb.1)
  ∧ (∀ b o sb,
       run_trace (LocalSearch.step ps) (s, g) calls !! b = Some (o, sb) →
       ∃ ext, LocalSearch.submitted sb.1 = LocalSearch.submitted s ++ ext)
  ∧ (∀ a b ca cb sa sb,
       (a < b)%nat →
       run_trace (LocalSearch.step ps) (s, g) calls !! a
       = Some (Ok (Config ca), sa) →
       run_trace (LocalSearch.step ps) (s, g) calls !! b
       = Some (Ok (Config cb), sb) →
       ca ≠ cb ∧ cb ∉ LocalSearch.submitted sa.1).
Proof.
  induction calls as [|[rs lib] calls IH]; intros s g Hinv.
  { split_and!; intros *; rewrite ?lookup_nil; done. }
  destruct (LocalSearch.get_suggestion s ps rs lib g) as [[out s'] g'] eqn:E.
  assert (LocalSearch.step ps (s, g) (rs, lib) = (out, (s', g'))) as Hstep
    by (unfold LocalSearch.step; cbn [fst snd]; by rewrite E).
  cbn [run_trace]. rewrite Hstep.
  destruct (single_step _ _ _ _ _ _ _ _ Hinv E) as (Hinv' & [ext Hext] & Hout).
  destruct (IH s' g' Hinv') as (IH1 & IH2 & IH3).
  split_and!.
  - intros [|b] cb sb; simpl.
    + intros [= -> <-]. by apply Hout.
    + intros Hb. destruct (IH1 _ _ _ Hb) as [Hnew Hin]. split; [|done].
      rewrite Hext in Hnew. set_solver.
  - intros [|b] o sb; simpl.
    + intros [= <- <-]. eauto.
    + intros Hb. destruct (IH2 _ _ _ Hb) as [ext' ->].
      rewrite Hext, <- app_assoc. eauto.
  - intros [|a] [|b] ca cb sa sb Hab; simpl; try lia.
    + intros [= -> <-] Hb. simpl.
      destruct (IH1 _ _ _ Hb) as [Hnew _].
      destruct (Hout ca eq_refl) as [_ Hin]. split; [|done].
      intros ->. done.
    + apply IH3. lia.
Qed.

(** C9.  [LocalSearch] with [repeat_trials = 1]: in a run of
    [get_suggestion] calls no two calls return the same configuration;
    a returned configuration is in [submitted] from then on and was not
    in it before.  And on a call after the first, when every perturbation
    of the current seed has been submitted, the call returns Stop. *)
Theorem local_search_never_repeats `{Random} (ps : list parameter) :
  (∀ (seed : config) (factors : list Qc) (calls : list (list row * bool))
     (g : rng) (a b : nat) (ca cb : config) sa sb,
     (a < b)%nat →
     run_trace (LocalSearch.step ps) (LocalSearch.init seed factors 1, g)
       calls !! a = Some (Ok (Config ca), sa) →
     run_trace (LocalSearch.step ps) (LocalSearch.init seed factors 1, g)
       calls !! b = Some (Ok (Config cb), sb) →
     ca ≠ cb
     ∧ ca ∈ LocalSearch.submitted sa.1
     ∧ cb ∉ LocalSearch.submitted sa.1
     ∧ cb ∈ LocalSearch.submitted sb.1)
  ∧ (∀ (self : LocalSearch.t) (rs : list row) (lower_is_better : bool)
       (g : rng) (seed : config),
       LocalSearch.next_trial self = [] →
       LocalSearch.repeat_trials self = 1 →
       1 ≤ LocalSearch.count self →
       LocalSearch.reseed (LocalSearch.seed_configuration self) ps rs
         lower_is_better = Ok seed →
       LocalSearch.all_submitted self seed ps →
       (LocalSearch.get_suggestion self ps rs lower_is_better g).1.1
       = Ok Stop).
Proof.
  split.
  - intros seed factors calls g a b ca cb sa sb Hab Ha Hb.
    assert (LocalSearch.single_inv (LocalSearch.init seed factors 1)) as Hinv
      by (by split_and!).
    destruct (single_run ps calls _ g Hinv) as (H1 & _ & H3).
    destruct (H3 _ _ _ _ _ _ Hab Ha Hb) as [Hne Hnew].
    destruct (H1 _ _ _ Ha) as [_ Hina].
    destruct (H1 _ _ _ Hb) as [_ Hinb]. done.
  - intros self rs lib g seed Hq Hk Hc Hseed Hall.
    unfold LocalSearch.get_suggestion. rewrite Hq.
    destruct (next_trials_exhausted self ps rs lib g seed) as [g' ->];
      [lia|done..|].
    unfold LocalSearch.copies. rewrite Hk. done.
Qed.

Lemma local_search_never_repeats_witness :
  ({["a" := VInt 1]} : config) ≠ <["a" := VInt 2]> {["a" := VInt 1]}
  ∧ (LocalSearch.get_suggestion
       {| LocalSearch.seed_configuration := {["a" := VInt 1]};
          LocalSearch.count := 2;
          LocalSearch.submitted :=
            [{["a" := VInt 1]}; <["a" := VInt 2]> {["a" := VInt 1]}];
          LocalSearch.perturbation_factors := [];
          LocalSearch.next_trial := [];
          LocalSearch.repeat_trials := 1 |}
       [{| name := "a"; pkind := Choice; range := [VInt 1; VInt 2];
           scale := "linear" |}] [] true 0%nat).1.1 = Ok Stop.
Proof.
  split.
  - eapply (proj1 (@local_search_never_repeats det_random
                     [{| name := "a"; pkind := Choice;
                         range := [VInt 1; VInt 2; VInt 3];
                         scale := "linear" |}])
              {["a" := VInt 1]} [] (replicate 3 ([], true)) 0%nat
              0%nat 1%nat); [lia| |]; vm_compute; reflexivity.
  - apply (proj2 (@local_search_never_repeats det_random _) _ _ _ _
             {["a" := VInt 1]});
      [done|done|simpl; lia|done|].
    intros p ->%list_elem_of_singleton. simpl.
    intros val Hval. apply elem_of_cons in Hval as [->|Hval].
    + rewrite insert_singleton_eq. by left.
    + apply list_elem_of_singleton in Hval as ->. right. by left.
Defined.

(** ** Stop is final *)

Section StopIsFinal.
Context {S I : Type} (step : S → I → result suggestion * S).
Variables (reach stopped : S → Prop).
Hypothesis reach_step : ∀ s c, reach s → reach (step s c).2.
Hypothesis stop_stopped :
  ∀ s c, reach s → (step s c).1 = Ok Stop → stopped (step s c).2.
Hypothesis stopped_step :
  ∀ s c, stopped s →
         stopped (step s c).2 ∧ ∀ cfg, (step s c).1 ≠ Ok (Config cfg).

Lemma stopped_run calls : ∀ s b cfg,
  stopped s → run_calls step s calls !! b ≠ Some (Ok (Config cfg)).
Proof.
  induction calls as [|c calls IH]; intros s b cfg Hs; [done|].
  simpl. destruct (stopped_step s c Hs) as [Hs' Hout].
  destruct (step s c) as [out s']. destruct b as [|b]; simpl in *.
  - intros [= ->]. by eapply Hout.
  - by apply IH.
Qed.

Lemma stop_is_final_by_inv calls : ∀ s,
  reach s → stop_is_final (run_calls step s calls).
Proof.
  induction calls as [|c calls IH]; intros s Hr a b cfg Hab; [done|].
  simpl. pose proof (reach_step s c Hr) as Hr'.
  pose proof (stop_stopped s c Hr) as Hst.
  destruct (step s c) as [out s']. simpl in *.
  destruct a as [|a], b as [|b]; simpl; try lia.
  - intros [= ->]. apply stopped_run. auto.
  - apply IH; [done|lia].
Qed.
End StopIsFinal.

Lemma random_search_stop_is_final `{Random} ps s g calls :
  stop_is_final (run_calls (RandomSearch.step ps) (s, g) calls).
Proof.
  apply (stop_is_final_by_inv _ (λ _, True)
           (λ s, RandomSearch.i s.1 > RandomSearch.n s.1)); [done| | |done].
  - intros [s0 g0] [rs lib] _. unfold RandomSearch.step.
    unfold RandomSearch.get_suggestion. cbn [fst snd].
    repeat (case_decide || case_match); simplify_eq; cbn; try done; lia.
  - intros [s0 g0] [rs lib]. unfold RandomSearch.step.
    unfold RandomSearch.get_suggestion. cbn [fst snd]. intros Hi.
    repeat (case_decide || case_match); simplify_eq; cbn; split;
      try done; try lia.
Qed.

Lemma iterate_stop_is_final ps s calls :
  stop_is_final (run_calls (Iterate.step ps) s calls).
Proof.
  apply (stop_is_final_by_inv _ (λ _, True)
           (λ s, Z.of_nat (length (Iterate.hp_iter s)) ≤ Iterate.count s));
    [done| | |done].
  - intros s0 [rs lib] _. unfold Iterate.step, Iterate.get_suggestion.
    repeat (case_decide || case_match); simplify_eq; cbn; done.
  - intros s0 [rs lib] Hc. unfold Iterate.step, Iterate.get_suggestion.
    rewrite decide_True by done. done.
Qed.

Lemma genetic_stop_is_final `{Random} ps s g calls :
  stop_is_final (run_calls (Genetic.step ps) (s, g) calls).
Proof.
  apply (stop_is_final_by_inv _ (λ _, True)
           (λ s, Genetic.cap_reached s.1 = true)); [done| | |done].
  - intros [s0 g0] [rs lib] _. unfold Genetic.step, Genetic.get_suggestion.
    cbn [fst snd].
    repeat (case_decide || case_match); simplify_eq; cbn; done.
  - intros [s0 g0] [rs lib]. unfold Genetic.step, Genetic.get_suggestion.
    cbn [fst snd]. intros Hc. rewrite Hc. cbn. done.
Qed.

Lemma py_index_out {A} (l : list A) (k : Z) :
  0 ≤ k → Z.of_nat (length l) ≤ k → py_index l k = Raise IndexError.
Proof.
  intros H0 Hk. unfold py_index. cbv zeta.
  rewrite (decide_False (P := k < 0)) by lia.
  rewrite decide_False by lia. done.
Qed.

Section GridSearchStop.
Import GridSearch.
Context `{Numpy}.
Variable ps : list parameter.

Lemma grid_reach_step s c : 0 ≤ i s → 0 ≤ i (step ps s c).2.
Proof.
  intros Hi. unfold step, get_suggestion.
  repeat (case_decide || case_match); simplify_eq; cbn; lia.
Qed.

Lemma grid_stop_stopped s c :
  0 ≤ i s → (step ps s c).1 = Ok Stop → stopped ps (step ps s c).2.
Proof.
  intros Hi. unfold step, get_suggestion.
  destruct (decide (i s = 0 ∧ j s = 0)) as [[Hi0 Hj0]|Hn].
  - destruct (_get_param_dict s ps) as [d|e] eqn:Hd; cbn [rbind]; [|done].
    destruct (decide (_ = Z.of_nat (length (ParameterGrid d)))) as [Hlen|?].
    + intros _. cbn [snd]. split; cbn [i j grid]; [case_decide; lia|].
      exists (ParameterGrid d). split_and!; [done|lia| |lia].
      intros _. exists d. split; [|done]. exact Hd.
    + repeat (case_decide || case_match); done.
  - destruct (grid s) as [gr|] eqn:Hg; [|done].
    destruct (decide (_ = Z.of_nat (length gr))) as [Hlen|?].
    + intros _. cbn [snd]. split; cbn [i j grid]; [case_decide; lia|].
      exists gr. split_and!; [done|lia| |lia].
      intros [Hi1 Hj1]. exfalso. apply Hn.
      repeat case_decide; split; lia.
    + repeat (case_decide || case_match); done.
Qed.

Lemma grid_stopped_step s c :
  stopped ps s →
  stopped ps (step ps s c).2 ∧ ∀ cfg, (step ps s c).1 ≠ Ok (Config cfg).
Proof.
  intros (Hi & gr & Hg & Hlen & Hbuild & Hj). unfold step, get_suggestion.
  assert ((if decide (i s = 0 ∧ j s = 0)
           then param_dict ←r _get_param_dict s ps;
                Ok (Some (ParameterGrid param_dict))
           else Ok (grid s)) = Ok (Some gr)) as ->.
  { case_decide as Hc; [|by rewrite Hg].
    destruct (Hbuild Hc) as (d & -> & <-). done. }
  destruct (decide (j s = m s)) as [Hjm|Hjm].
  - (* the index moves past the end of the grid *)
    rewrite decide_False by lia. rewrite decide_True by done.
    rewrite py_index_out by lia. cbn [fst snd]. split; [|done].
    split; cbn [i j grid]; [lia|]. exists gr.
    split_and!; [done|lia|lia|done].
  - destruct (decide (i s = Z.of_nat (length gr))) as [Heq|Hne].
    + cbn [fst snd]. split; [|done].
      split; cbn [i j grid]; [lia|]. exists gr.
      split_and!; [done|lia| |lia].
      intros Hc. destruct (Hbuild Hc) as (d & Hd & <-). eauto.
    + rewrite decide_True by (apply Hj; lia).
      rewrite py_index_out by lia. cbn [fst snd]. split; [|done].
      split; cbn [i j grid]; [lia|]. exists gr.
      split_and!; [done|lia|lia|]. intros _. apply Hj. lia.
Qed.

Lemma grid_search_stop_is_final s calls :
  0 ≤ i s → stop_is_final (run_calls (step ps) s calls).
Proof.
  apply (stop_is_final_by_inv _ (λ s, 0 ≤ i s) (stopped ps)).
  - apply grid_reach_step.
  - apply grid_stop_stopped.
  - apply grid_stopped_step.
Qed.
End GridSearchStop.

Section LocalSearchStop.
Import LocalSearch.
Context `{Random}.
Variable ps : list parameter.

Lemma py_pop_replicate_0 {A} (x : A) : py_pop (replicate 0 x) = None.
Proof. done. Qed.

Lemma queue_step s rs lib g out s' g' :
  queue_inv ps s →
  get_suggestion s ps rs lib g = (out, s', g') →
  queue_inv ps s' ∧ (out = Ok Stop → exhausted s' ps).
Proof.
  intros (Hc & k & x & Hq & Hcore). unfold get_suggestion.
  destruct (next_trial s) as [|y q] eqn:Hnt.
  - destruct (_get_next_trials s ps rs lib g) as [[r s1] g1] eqn:E.
    apply next_trials_spec in E as (Hk1 & Hf1 & Hq1 & Hc1 & Hcases).
    assert (∀ z, r = Ok (copies s z) →
              (z = Stop → all_submitted s1 (seed_configuration s1) ps) →
              (match py_pop (next_trial (with_next_trial s1 (copies s z))) with
               | Some (x0, rest) =>
                   (Ok x0, with_next_trial (with_next_trial s1 (copies s z)) rest, g1)
               | None => (Raise IndexError, with_next_trial s1 (copies s z), g1)
               end) = (out, s', g') →
              queue_inv ps s' ∧ (out = Ok Stop → exhausted s' ps)) as Hbatch.
    { intros z _ Hz. unfold copies. cbn [next_trial with_next_trial].
      destruct (Z.to_nat (repeat_trials s)) as [|n].
      - rewrite py_pop_replicate_0. intros [= <- <- <-]. split; [|done].
        split; [cbn; lia|]. exists 0%nat, z. split; [done|]. lia.
      - rewrite py_pop_replicate. intros [= <- <- <-].
        assert (z = Stop →
                all_submitted
                  {| seed_configuration := seed_configuration s1;
                     count := count s1; submitted := submitted s1;
                     perturbation_factors := perturbation_factors s1;
                     next_trial := replicate n z;
                     repeat_trials := repeat_trials s1 |}
                  (seed_configuration s1) ps) as Hz'.
        { intros Hst. by apply (all_submitted_same s1), Hz. }
        split.
        + split; [cbn; lia|]. exists n, z. split; [done|].
          intros Hst _. split; [cbn; lia|]. cbn. auto.
        + intros [= ->]. split_and!; [cbn; lia|by exists n|cbn; auto]. }
    destruct Hcases as [(Hc0 & -> & Hs1 & _)|[(_ & [e ->] & Hs1)|
         [(_ & _ & c & -> & Hnew & Hs1)|(_ & _ & -> & Hs1 & Hall)]]].
    + by apply Hbatch.
    + intros [= <- <- <-]. split; [|done].
      split; [lia|]. exists 0%nat, Stop. split; [by rewrite Hq1|lia].
    + by apply Hbatch.
    + by apply Hbatch.
  - destruct k as [|k]; [done|].
    rewrite Hnt, Hq, py_pop_replicate.
    intros [= <- <- <-].
    assert (x = Stop → 1 ≤ count s ∧
            all_submitted (with_next_trial s (replicate k x))
              (seed_configuration s) ps) as Hcore'.
    { intros Hst. destruct (Hcore Hst) as [? Hall]; [lia|].
      split; [done|]. by apply (all_submitted_same s). }
    split.
    + split; [done|]. exists k, x. split; [done|]. intros Hst _.
      by apply Hcore'.
    + intros [= ->]. destruct (Hcore' eq_refl) as [? ?].
      split_and!; [done|by exists k|done].
Qed.

Lemma exhausted_step s rs lib g out s' g' :
  exhausted s ps →
  reseed (seed_configuration s) ps rs lib = Ok (seed_configuration s) →
  get_suggestion s ps rs lib g = (out, s', g') →
  (∀ c, out ≠ Ok (Config c))
  ∧ exhausted s' ps
  ∧ seed_configuration s' = seed_configuration s.
Proof.
  intros (Hc & [k Hq] & Hall) Hseed. unfold get_suggestion. rewrite Hq.
  destruct k as [|k]; cbn [replicate].
  - destruct (next_trials_exhausted s ps rs lib g _ ltac:(lia) Hseed Hall)
      as [g1 ->].
    unfold copies. cbn [next_trial with_next_trial with_seed with_count
                        repeat_trials].
    destruct (Z.to_nat (repeat_trials s)) as [|n].
    + rewrite py_pop_replicate_0. intros [= <- <- <-].
      split_and!; [done| |done].
      split_and!; [cbn; lia|by exists 0%nat|].
      by apply (all_submitted_same s).
    + rewrite py_pop_replicate. intros [= <- <- <-].
      split_and!; [done| |done].
      split_and!; [cbn; lia|by exists n|].
      by apply (all_submitted_same s).
  - change (Stop :: replicate k Stop) with (replicate (S k) Stop).
    replace (next_trial s) with (replicate (S k) Stop).
    rewrite py_pop_replicate. intros [= <- <- <-].
    split_and!; [done| |done].
    split_and!; [done|by exists k|]. by apply (all_submitted_same s).
Qed.

Lemma exhausted_run calls : ∀ s g (bound : nat),
  exhausted s ps →
  (∀ c rs lib, (c < bound)%nat → calls !! c = Some (rs, lib) →
     reseed (seed_configuration s) ps rs lib = Ok (seed_configuration s)) →
  ∀ b cfg sb, (b < bound)%nat →
    run_trace (step ps) (s, g) calls !! b ≠ Some (Ok (Config cfg), sb).
Proof.
  induction calls as [|[rs lib] calls IH]; intros s g bound Hex Hre b cfg sb Hb;
    [done|].
  destruct (get_suggestion s ps rs lib g) as [[out s'] g'] eqn:E.
  assert (step ps (s, g) (rs, lib) = (out, (s', g'))) as Hstep
    by (unfold step; cbn [fst snd]; by rewrite E).
  cbn [run_trace]. rewrite Hstep.
  destruct (exhausted_step _ _ _ _ _ _ _ Hex (Hre 0%nat rs lib ltac:(lia) eq_refl) E)
    as (Hout & Hex' & Hseed').
  destruct b as [|b]; simpl.
  - intros [= -> _]. by eapply Hout.
  - apply (IH s' g' (pred bound)); [done| |lia].
    intros c rs' lib' Hc Hcall. rewrite Hseed'.
    apply (Hre (S c)); [lia|done].
Qed.

Lemma local_search_stop_while_seed_stays calls : ∀ s g (a b : nat) sa,
  queue_inv ps s →
  (a < b)%nat →
  run_trace (step ps) (s, g) calls !! a = Some (Ok Stop, sa) →
  (∀ c rs lib, (a < c ≤ b)%nat → calls !! c = Some (rs, lib) →
     reseed (seed_configuration sa.1) ps rs lib
     = Ok (seed_configuration sa.1)) →
  ∀ cfg sb,
    run_trace (step ps) (s, g) calls !! b ≠ Some (Ok (Config cfg), sb).
Proof.
  induction calls as [|[rs lib] calls IH]; intros s g a b sa Hinv Hab; [done|].
  destruct (get_suggestion s ps rs lib g) as [[out s'] g'] eqn:E.
  assert (step ps (s, g) (rs, lib) = (out, (s', g'))) as Hstep
    by (unfold step; cbn [fst snd]; by rewrite E).
  cbn [run_trace]. rewrite Hstep.
  destruct (queue_step _ _ _ _ _ _ _ Hinv E) as [Hinv' Hstop].
  destruct a as [|a], b as [|b]; simpl; try lia.
  - intros [= -> <-] Hre cfg sb. simpl in Hre.
    apply (exhausted_run calls s' g' (S b)); [auto| |lia].
    intros c rs' lib' Hc Hcall. apply (Hre (S c)); [lia|done].
  - intros Ha Hre. apply (IH s' g' a b sa); [done|lia|done|].
    intros c rs' lib' Hc Hcall. apply (Hre (S c)); [lia|done].
Qed.
End LocalSearchStop.

(** C2 (as amended).  For [RandomSearch], [GridSearch], [Iterate] and
    [Genetic], once [get_suggestion] has returned Stop no later call on
    the instance returns a configuration, whatever results are handed
    in.  For [LocalSearch] a later call returns no configuration as long
    as re-seeding from the results of the calls in between leaves the
    seed as it was when Stop was returned. *)
Theorem stop_is_final_per_algorithm `{Random} `{Numpy}
    (ps : list parameter) (calls : list (list row * bool)) :
  (∀ max_num_trials repeat g,
     stop_is_final
       (run_calls (RandomSearch.step ps)
          (RandomSearch.init max_num_trials repeat, g) calls))
  ∧ (∀ num_grid_points repeat,
       stop_is_final
         (run_calls (GridSearch.step ps)
            (GridSearch.init num_grid_points repeat) calls))
  ∧ (∀ hp_iter,
       stop_is_final
         (run_calls (Iterate.step ps)
            {| Iterate.hp_iter := hp_iter; Iterate.count := 0 |} calls))
  ∧ (∀ mutation_rate max_num_trials g,
       stop_is_final
         (run_calls (Genetic.step ps)
            (Genetic.init mutation_rate max_num_trials, g) calls))
  ∧ (∀ seed factors repeat_trials g (a b : nat) sa,
       (a < b)%nat →
       run_trace (LocalSearch.step ps)
         (LocalSearch.init seed factors repeat_trials, g) calls !! a
       = Some (Ok Stop, sa) →
       (∀ c rs lower_is_better,
          (a < c ≤ b)%nat → calls !! c = Some (rs, lower_is_better) →
          LocalSearch.reseed (LocalSearch.seed_configuration sa.1) ps rs
            lower_is_better
          = Ok (LocalSearch.seed_configuration sa.1)) →
       ∀ cfg sb,
         run_trace (LocalSearch.step ps)
           (LocalSearch.init seed factors repeat_trials, g) calls !! b
         ≠ Some (Ok (Config cfg), sb)).
Proof.
  split_and!.
  - intros. apply random_search_stop_is_final.
  - intros. by apply grid_search_stop_is_final.
  - intros. apply iterate_stop_is_final.
  - intros. apply genetic_stop_is_final.
  - intros seed factors k g a b sa Hab Ha Hre.
    eapply local_search_stop_while_seed_stays; [|done..].
    split; [done|]. exists 0%nat, Stop. split; [done|]. lia.
Qed.

Lemma stop_is_final_per_algorithm_witness :
  run_trace
    (LocalSearch.step
       [{| name := "a"; pkind := Choice; range := [VInt 1; VInt 2];
           scale := "linear" |}])
    (LocalSearch.init {["a" := VInt 1]} [] 1, 0%nat)
    (replicate 4 ([], true)) !! 3%nat
  ≠ Some (Ok (Config ∅), (LocalSearch.init ∅ [] 1, 0%nat)).
Proof.
  eapply (proj2 (proj2 (proj2 (proj2
            (@stop_is_final_per_algorithm det_random stand_in_numpy _ _))))
            _ _ _ _ 2%nat 3%nat); [lia|vm_compute; reflexivity|].
  intros c rs lib Hc Hcall.
  assert (c = 3%nat) as -> by lia. by injection Hcall as <- <-.
Defined.

(** C2 as stated fails for [LocalSearch]: after Stop, a completed row
    that is better than the old seed re-seeds the search, and the next
    call returns one of the new seed's perturbations. *)
Lemma local_search_stop_not_final_counterexample :
  ¬ stop_is_final
      (run_calls
         (LocalSearch.step
            [{| name := "a"; pkind := Choice; range := [VInt 1; VInt 2];
                scale := "linear" |};
             {| name := "b"; pkind := Choice; range := [VInt 1; VInt 2];
                scale := "linear" |}])
         (LocalSearch.init (<["a" := VInt 1]> {["b" := VInt 1]}) [] 1, 0%nat)
         [([], true); ([], true); ([], true); ([], true);
          ([{| TrialID := 2; Status := "COMPLETED"; Iteration := 1;
               Objective := Fin (Qc_of_Z 0);
               Cols := <["a" := VInt 2]> {["b" := VInt 1]} |}], true)]).
Proof.
  intros Hfinal.
  eapply (Hfinal 3%nat 4%nat); [lia|vm_compute; reflexivity..].
Qed.

(** ** Repeat *)

Section RepeatFacts.
Import Repeat.

Lemma result_mapM_Ok {A B} (f : A → result B) (l : list A) :
  (∀ x, x ∈ l → ∃ y, f x = Ok y) →
  ∃ ys, result_mapM f l = Ok ys ∧ Forall2 (λ x y, f x = Ok y) l ys.
Proof.
  induction l as [|x l IH]; intros Hf.
  - exists []. split; [done|constructor].
  - destruct (Hf x) as [y Hy]; [by left|].
    destruct IH as (ys & Hys & Hall); [intros; apply Hf; by right|].
    exists (y :: ys). simpl. rewrite Hy. simpl. rewrite Hys. simpl.
    split; [done|by constructor].
Qed.

Lemma sums_to_Qc_sum xs s : sums_to xs s ↔ s = Qc_sum xs.
Proof.
  split.
  - induction 1 as [|x xs s _ IH]; [done|]. simpl. by rewrite IH.
  - intros ->. induction xs as [|x xs IH]; constructor. exact IH.
Qed.

Lemma Qc_of_nat_nonzero (n : nat) : n ≠ 0%nat → Qc_of_Z (Z.of_nat n) ≠ 0%Qc.
Proof.
  intros Hn. rewrite <- Z2Qc_inj_0. intros Heq%Z2Qc_inj. lia.
Qed.

Lemma Qc_of_Z_nonzero (z : Z) : z ≠ 0 → Qc_of_Z z ≠ 0%Qc.
Proof. intros Hn. rewrite <- Z2Qc_inj_0. by intros Heq%Z2Qc_inj. Qed.

Lemma Qc_quotient_unique (a b n : Qc) : n ≠ 0%Qc → (a * n = b)%Qc → a = (b / n)%Qc.
Proof. intros Hn <-. field. done. Qed.

Lemma is_mean_iff xs mu :
  is_mean xs mu
  ↔ xs ≠ [] ∧ mu = (Qc_sum xs / Qc_of_Z (Z.of_nat (length xs)))%Qc.
Proof.
  unfold is_mean. split.
  - intros [Hne (s & ->%sums_to_Qc_sum & Hmu)]. split; [done|].
    apply Qc_quotient_unique; [|done].
    apply Qc_of_nat_nonzero. by destruct xs.
  - intros [Hne ->]. split; [done|]. exists (Qc_sum xs).
    split; [by apply sums_to_Qc_sum|]. field.
    apply Qc_of_nat_nonzero. by destruct xs.
Qed.

Lemma is_sample_variance_iff xs v :
  is_sample_variance xs v
  ↔ (2 ≤ length xs)%nat
    ∧ v = (Qc_sum ((λ x, (x - Qc_sum xs / Qc_of_Z (Z.of_nat (length xs)))
                         * (x - Qc_sum xs / Qc_of_Z (Z.of_nat (length xs))))
                     <$> xs)
           / Qc_of_Z (Z.of_nat (length xs) - 1))%Qc.
Proof.
  unfold is_sample_variance. split.
  - intros [Hn (mu & s2 & [_ ->]%is_mean_iff & ->%sums_to_Qc_sum & Hv)].
    split; [done|]. apply Qc_quotient_unique; [|done].
    apply Qc_of_Z_nonzero. lia.
  - intros [Hn ->]. split; [done|].
    exists (Qc_sum xs / Qc_of_Z (Z.of_nat (length xs)))%Qc. eexists.
    split_and!.
    + apply is_mean_iff. split; [|done]. destruct xs; [simpl in Hn; lia|done].
    + by apply sums_to_Qc_sum.
    + field. apply Qc_of_Z_nonzero. lia.
Qed.

(** The statistics [agg] computes are those of the specification. *)
Lemma group_statistics_iff rows g :
  group_statistics rows g
  ↔ agg_count g = Z.of_nat (length (dropna (Objective <$> rows)))
    ∧ agg_Objective g = series_mean (Objective <$> rows)
    ∧ agg_varObjective g
      = float_div_count (series_var (Objective <$> rows)) (agg_count g).
Proof.
  set (objs := Objective <$> rows).
  assert (Fin <$> dropna objs = filter (λ f, f ≠ NaN) objs) as Hfin.
  { clear. induction objs as [|[|q] objs IH]; [done|..].
    - by rewrite filter_cons_False by (by intros []).
    - rewrite filter_cons_True by done.
      change (dropna (Fin q :: objs)) with (q :: dropna objs).
      by rewrite fmap_cons, IH. }
  unfold group_statistics. fold objs. split.
  - intros (xs & Hxs%dropna_numeric & Hcnt & Hmean & Hvar).
    rewrite Hcnt. unfold series_var, series_mean. rewrite Hxs. cbv zeta.
    split; [done|]. split.
    + destruct xs as [|x xs']; [done|].
      destruct Hmean as (mu & -> & [_ ->]%is_mean_iff). done.
    + destruct xs as [|x xs']; [done|]. set (xs := x :: xs') in *.
      destruct (decide (length xs ≤ 1)%nat) as [Hn|Hn]; [by rewrite Hvar|].
      destruct Hvar as (v & w & [_ ->]%is_sample_variance_iff & -> & Hw).
      cbn [float_div_count].
      rewrite decide_False by (subst xs; simpl; lia). f_equal.
      apply Qc_quotient_unique; [|done].
      apply Qc_of_nat_nonzero. by subst xs.
  - intros (Hcnt & Hmean & Hvar). exists (dropna objs).
    split; [done|]. split; [done|]. rewrite Hcnt in Hvar.
    unfold series_var, series_mean in *. cbv zeta in *.
    destruct (dropna objs) as [|x xs'] eqn:E.
    { split; [done|]. by rewrite decide_True by (simpl; lia). }
    set (xs := x :: xs') in *. split.
    + eexists. split; [exact Hmean|]. apply is_mean_iff. by split.
    + destruct (decide (length xs ≤ 1)%nat) as [Hn|Hn]; [done|].
      cbn [float_div_count] in Hvar.
      rewrite decide_False in Hvar by (subst xs; simpl; lia).
      eexists _, _. split_and!; [|exact Hvar|].
      * apply is_sample_variance_iff. split; [lia|done].
      * field. split; [apply Qc_of_Z_nonzero; lia|].
        apply Qc_of_nat_nonzero. by subst xs.
Qed.

(** A row of a table that has every key column has a key. *)
Lemma row_key_columns names (r : row) :
  (∀ k, k ∈ names → is_Some (to_dict r !! k)) →
  ∃ key, row_key names r = Ok key.
Proof.
  intros Hcols. unfold row_key.
  destruct (result_mapM_Ok (dict_get (to_dict r)) (names ++ ["Status"]))
    as (key & Hkey & _); [|by exists key].
  intros k [Hk| ->%list_elem_of_singleton]%elem_of_app.
  - destruct (Hcols k Hk) as [v Hv]. exists v.
    unfold dict_get. by rewrite Hv.
  - exists (VStr (Status r)). unfold dict_get, to_dict.
    rewrite lookup_insert_ne by done. by rewrite lookup_insert_eq.
Qed.

(** A row without one of the key columns has no key: [groupby] raises
    [KeyError]. *)
Lemma row_key_missing names (r : row) k :
  k ∈ names → to_dict r !! k = None → row_key names r = Raise KeyError.
Proof.
  intros Hk Hnone. unfold row_key.
  induction names as [|n names IH]; [by apply elem_of_nil in Hk|].
  cbn [app result_mapM]. unfold dict_get at 1.
  destruct (to_dict r !! n) as [v|] eqn:Hn; [|done]. cbn [rbind].
  apply elem_of_cons in Hk as [->|Hk]; [congruence|].
  by rewrite (IH Hk).
Qed.

Lemma row_key_raises names (r : row) e :
  row_key names r = Raise e → e = KeyError.
Proof.
  unfold row_key. generalize (names ++ ["Status"])%list. intros l.
  induction l as [|n l IH]; [done|]. cbn [result_mapM]. unfold dict_get at 1.
  destruct (to_dict r !! n); cbn [rbind]; [|by intros [= <-]].
  destruct (result_mapM _ l); cbn [rbind]; [done|]. intros [= <-]. by apply IH.
Qed.

Lemma aggregate_missing_column names num_times completed r k :
  r ∈ completed → k ∈ names → to_dict r !! k = None →
  aggregate names num_times completed = Raise KeyError.
Proof.
  intros Hr Hk Hnone. unfold aggregate.
  assert (result_mapM (row_key names) completed = Raise KeyError) as ->; [|done].
  induction completed as [|r0 rs IH]; [by apply elem_of_nil in Hr|].
  cbn [result_mapM].
  destruct (row_key names r0) as [key|e] eqn:E; cbn [rbind].
  - apply elem_of_cons in Hr as [->|Hr].
    + by rewrite (row_key_missing names r0 k) in E.
    + by rewrite (IH Hr).
  - by rewrite (row_key_raises _ _ _ E).
Qed.

Lemma keyed_group_rows names completed keys k :
  Forall2 (λ r key, row_key names r = Ok key) completed keys →
  VNaN ∉ k →
  (filter (λ kr : list value * row, kr.1 = k)
     (filter (λ kr : list value * row, VNaN ∉ kr.1) (zip keys completed))).*2
  = rows_with_key names completed k.
Proof.
  intros Hall Hk. unfold rows_with_key.
  induction Hall as [|r key rs ks Hr _ IH]; [done|].
  change (zip (key :: ks) (r :: rs)) with ((key, r) :: zip ks rs).
  rewrite (filter_cons (λ r, row_key names r = Ok k)), Hr.
  destruct (decide (key = k)) as [->|Hne].
  - rewrite decide_True by done.
    rewrite (filter_cons_True (λ kr : list value * row, VNaN ∉ kr.1)) by done.
    rewrite filter_cons_True by done. rewrite fmap_cons. cbn [snd].
    by rewrite IH.
  - rewrite decide_False by congruence.
    rewrite (filter_cons (λ kr : list value * row, VNaN ∉ kr.1)).
    case_decide; [|done]. by rewrite filter_cons_False by done.
Qed.

Lemma keyed_keys names completed keys k :
  Forall2 (λ r key, row_key names r = Ok key) completed keys →
  k ∈ (filter (λ kr : list value * row, VNaN ∉ kr.1) (zip keys completed)).*1
  ↔ VNaN ∉ k ∧ rows_with_key names completed k ≠ [].
Proof.
  unfold rows_with_key. induction 1 as [|r key rs ks Hr _ IH].
  - split; [by intros ?%elem_of_nil|by intros [_ ?]].
  - change (zip (key :: ks) (r :: rs)) with ((key, r) :: zip ks rs).
    rewrite (filter_cons (λ r, row_key names r = Ok k)), Hr.
    rewrite (filter_cons (λ kr : list value * row, VNaN ∉ kr.1)).
    cbn [fst]. destruct (decide (key = k)) as [->|Hne].
    + rewrite (decide_True (P := Ok k = Ok k)) by done.
      case_decide as Hnan.
      * rewrite fmap_cons. cbn [fst]. split; [done|]. intros _. by left.
      * rewrite IH. tauto.
    + rewrite (decide_False (P := Ok key = Ok k)) by congruence.
      case_decide as Hnan; [|done].
      rewrite fmap_cons, elem_of_cons. cbn [fst]. rewrite IH.
      split; [intros [->|?]; done|auto].
Qed.

Lemma aggregate_passed_groups names num_times completed :
  (∀ r, r ∈ completed → ∃ key, row_key names r = Ok key) →
  ∃ table, aggregate names num_times completed = Ok table
           ∧ passed_groups names num_times completed table.
Proof.
  intros Hkeys. unfold aggregate.
  destruct (result_mapM_Ok (row_key names) completed)
    as (keys & -> & Hall); [done|].
  cbn [rbind].
  set (keyed := filter (λ kr : list value * row, VNaN ∉ kr.1)
                       (zip keys completed)).
  eexists. split; [done|].
  assert (∀ k, VNaN ∉ k →
               group_objectives keyed k
               = Objective <$> rows_with_key names completed k) as Hobj.
  { intros k Hk. unfold group_objectives.
    rewrite <- (keyed_group_rows names completed keys k Hall Hk).
    by rewrite <- list_fmap_compose. }
  split.
  - (* one row per group *)
    eapply sublist_NoDup;
      [|apply (fmap_sublist agg_key _ _ (sublist_filter _ _))].
    rewrite <- list_fmap_compose.
    assert (∀ l : list (list value),
              (agg_key ∘ aggregate_group keyed) <$> l = l) as Hid.
    { induction l as [|?? IH]; [done|]. by rewrite fmap_cons, IH. }
    rewrite Hid, merge_sort_Permutation. apply NoDup_remove_dups.
  - intros g. rewrite list_elem_of_filter, list_elem_of_fmap. split.
    + intros (Hcount & k & -> & Hk).
      rewrite merge_sort_Permutation, elem_of_remove_dups in Hk.
      apply (keyed_keys names completed keys k Hall) in Hk as [Hnan Hne].
      cbn [agg_key aggregate_group]. split_and!; [done|done| |done].
      apply group_statistics_iff. unfold aggregate_group.
      cbn [agg_key agg_count agg_Objective agg_varObjective].
      by rewrite Hobj.
    + intros (Hnan & Hne & Hstat%group_statistics_iff & Hnum).
      split; [done|]. exists (agg_key g). split.
      * destruct g as [k o c v]. unfold aggregate_group.
        cbn [agg_key agg_count agg_Objective agg_varObjective] in *.
        rewrite Hobj by done. destruct Hstat as (-> & -> & ->). done.
      * rewrite merge_sort_Permutation, elem_of_remove_dups.
        by apply (keyed_keys names completed keys).
Qed.
End RepeatFacts.

(** C4 (as amended).  [Repeat.get_suggestion] with an empty queue and a
    non-empty results table.  If [wait_for_completion] is set and fewer
    than [prev_completed + num_times] rows are COMPLETED, it returns
    Wait and leaves the instance, the wrapped algorithm included, as it
    was.  Otherwise [prev_completed] grows by [num_times], and: if a
    COMPLETED row lacks the column of a parameter, [KeyError] is raised
    and the wrapped algorithm is not called; if the table has a column
    for every parameter, the wrapped algorithm is called with the table
    that has one row per group of COMPLETED rows (grouped by their
    parameter values, rows with a NaN parameter value in no group) in
    which at least [num_times] rows have a non-NaN objective; the row's
    [count] is the number of these objectives, its [Objective] their
    mean (the sum over the count) and its [varObjective] their sample
    variance (the squared distances to the mean, summed, over the count
    less one; NaN for a single objective) divided by [count]. *)
Theorem repeat_get_suggestion_spec (A : Repeat.inner) (self : Repeat.t A)
    (ps : list parameter) (rs : list row) (lower_is_better : bool) :
  Repeat.queue self = [] →
  rs ≠ [] →
  (Repeat.wait_for_completion self = true →
   Z.of_nat (length (completed_rows rs))
     < Repeat.prev_completed self + Repeat.num_times self →
   Repeat.get_suggestion self ps (Some rs) lower_is_better = (Ok Wait, self))
  ∧ (Repeat.wait_for_completion self = false
     ∨ Repeat.prev_completed self + Repeat.num_times self
       ≤ Z.of_nat (length (completed_rows rs)) →
     ((∃ r p, r ∈ completed_rows rs ∧ p ∈ ps ∧ to_dict r !! name p = None) →
      Repeat.get_suggestion self ps (Some rs) lower_is_better
      = (Raise KeyError,
         {| Repeat.algorithm := Repeat.algorithm self;
            Repeat.num_times := Repeat.num_times self;
            Repeat.queue := [];
            Repeat.prev_completed :=
              Repeat.prev_completed self + Repeat.num_times self;
            Repeat.wait_for_completion :=
              Repeat.wait_for_completion self |}))
     ∧ ((∀ r p, r ∈ rs → p ∈ ps → is_Some (to_dict r !! name p)) →
        ∃ table,
          passed_groups (name <$> ps) (Repeat.num_times self)
            (completed_rows rs) table
          ∧ Repeat.algorithm
              (Repeat.get_suggestion self ps (Some rs) lower_is_better).2
            = (Repeat.inner_get_suggestion A (Repeat.algorithm self) ps
                 (Some table) lower_is_better).2
          ∧ Repeat.prev_completed
              (Repeat.get_suggestion self ps (Some rs) lower_is_better).2
            = Repeat.prev_completed self + Repeat.num_times self
          ∧ (∀ e,
               (Repeat.inner_get_suggestion A (Repeat.algorithm self) ps
                  (Some table) lower_is_better).1 = Raise e →
               (Repeat.get_suggestion self ps (Some rs) lower_is_better).1
               = Raise e)
          ∧ (∀ sug,
               (Repeat.inner_get_suggestion A (Repeat.algorithm self) ps
                  (Some table) lower_is_better).1 = Ok sug →
               1 ≤ Repeat.num_times self →
               (Repeat.get_suggestion self ps (Some rs) lower_is_better).1
               = Ok sug
               ∧ Repeat.queue
                   (Repeat.get_suggestion self ps (Some rs)
                      lower_is_better).2
                 = replicate (Z.to_nat (Repeat.num_times self - 1)) sug))).
Proof.
  intros Hq Hne. destruct rs as [|r0 rs']; [done|].
  unfold Repeat.get_suggestion. rewrite Hq. split.
  - intros -> Hlt. by rewrite bool_decide_eq_true_2.
  - intros Hgo.
    assert (Repeat.wait_for_completion self
            && bool_decide (Z.of_nat (length (completed_rows (r0 :: rs')))
                            < Repeat.prev_completed self
                              + Repeat.num_times self) = false) as ->.
    { destruct Hgo as [-> | Hge]; [done|].
      rewrite bool_decide_eq_false_2 by lia. apply andb_false_r. }
    split.
    { intros (r & p & Hr & Hp & Hnone).
      rewrite (aggregate_missing_column _ _ _ r (name p));
        [done|done|by apply list_elem_of_fmap_2|done]. }
    intros Hcols.
    destruct (aggregate_passed_groups (name <$> ps) (Repeat.num_times self)
                (completed_rows (r0 :: rs'))) as (table & -> & Htable).
    { intros r [_ Hr]%list_elem_of_filter. apply row_key_columns.
      intros k (p & -> & Hp)%list_elem_of_fmap. eauto. }
    exists table. split; [done|]. cbn [Repeat.algorithm Repeat.num_times
      Repeat.queue Repeat.prev_completed Repeat.wait_for_completion].
    destruct (Repeat.inner_get_suggestion A (Repeat.algorithm self) ps
                (Some table) lower_is_better) as [[sug|e] alg'] eqn:E;
      cbn [fst snd].
    + rewrite app_nil_l.
      destruct (Z.to_nat (Repeat.num_times self)) as [|n] eqn:Hn.
      * cbn. split_and!; [done..|]. intros ? _ ?. lia.
      * rewrite py_pop_replicate. cbn. split_and!; [done..|].
        intros ? [= <-] ?. split; [done|]. f_equal. lia.
    + split_and!; [done|done| |done]. by intros ? [= <-].
Qed.

Lemma repeat_get_suggestion_spec_witness :
  let p := {| name := "a"; pkind := Choice; range := [VInt 1; VInt 2];
              scale := "linear" |} in
  let mk tid st a obj :=
    {| TrialID := tid; Status := st; Iteration := 1;
       Objective := obj; Cols := {["a" := a]} |} in
  let num (z : Z) := Fin (Qc_of_Z z) in
  let rs := [mk 1 "COMPLETED" (VInt 1) (num 1);
             mk 2 "COMPLETED" (VInt 1) NaN;
             mk 3 "COMPLETED" (VInt 1) (num 2);
             mk 4 "COMPLETED" VNaN (num 9);
             mk 5 "COMPLETED" (VInt 2) (num 4);
             mk 6 "INTERMEDIATE" (VInt 2) (num 5);
             mk 7 "COMPLETED" (VInt 1) (num 6)] in
  Repeat.get_suggestion (Repeat.init (A := recording_inner) [] 2 true)
    [p] (Some [mk 1 "COMPLETED" (VInt 1) (num 1);
               mk 2 "INTERMEDIATE" (VInt 1) (num 3)]) true
  = (Ok Wait, Repeat.init (A := recording_inner) [] 2 true)
  ∧ Repeat.algorithm
      (Repeat.get_suggestion (Repeat.init (A := recording_inner) [] 2 true)
         [p] (Some rs) true).2
    = [Some [{| Repeat.agg_key := [VInt 1; VStr "COMPLETED"];
                Repeat.agg_Objective := num 3;
                Repeat.agg_count := 3;
                Repeat.agg_varObjective :=
                  Fin (Qc_of_Z 7 / Qc_of_Z 3)%Qc |}]]
  ∧ ∃ table,
      passed_groups ["a"] 2 (completed_rows rs) table
      ∧ Repeat.algorithm
          (Repeat.get_suggestion
             (Repeat.init (A := recording_inner) [] 2 true)
             [p] (Some rs) true).2
        = [Some table].
Proof.
  intros p mk num rs. split_and!.
  - apply (proj1 (repeat_get_suggestion_spec recording_inner
                    (Repeat.init (A := recording_inner) [] 2 true) [p]
                    [mk 1 "COMPLETED" (VInt 1) (num 1);
                     mk 2 "INTERMEDIATE" (VInt 1) (num 3)] true
                    eq_refl ltac:(done))); [done|]. vm_compute. reflexivity.
  - vm_compute. do 5 f_equal. apply Qc_is_canon. reflexivity.
  - destruct (proj2 (proj2 (repeat_get_suggestion_spec recording_inner
                       (Repeat.init (A := recording_inner) [] 2 true) [p]
                       rs true eq_refl ltac:(done))
                       ltac:(right; vm_compute; discriminate)))
      as (table & Htable & Halg & _).
    + intros r q Hr ->%list_elem_of_singleton.
      rows_cases Hr; vm_compute; eauto.
    + exists table. split; [exact Htable|exact Halg].
Defined.

(** C4 as stated counts rows; the code counts non-NaN objectives.  Two
    COMPLETED repeats of one configuration, one of them with a NaN
    objective, and [num_times = 2]: the group has two rows, but the
    table handed to the wrapped algorithm is empty. *)
Lemma repeat_row_count_counterexample :
  let p := {| name := "a"; pkind := Choice; range := [VInt 1; VInt 2];
              scale := "linear" |} in
  let rs :=
    [{| TrialID := 1; Status := "COMPLETED"; Iteration := 1;
        Objective := NaN; Cols := {["a" := VInt 1]} |};
     {| TrialID := 2; Status := "COMPLETED"; Iteration := 1;
        Objective := Fin (Qc_of_Z 1); Cols := {["a" := VInt 1]} |}] in
  ∃ table,
    Repeat.algorithm
      (Repeat.get_suggestion (Repeat.init (A := recording_inner) [] 2 false)
         [p] (Some rs) true).2 = [Some table]
    ∧ ¬ Repeat.passed_by_row_count ["a"] 2 (completed_rows rs) table.
Proof.
  intros p rs. exists []. split; [vm_compute; reflexivity|].
  intros Hclaim.
  destruct (proj2 (Hclaim [VInt 1; VStr "COMPLETED"])) as (g & Hg & _).
  - split; vm_compute; [discriminate|]. intros [=].
  - by apply elem_of_nil in Hg.
Qed.

(** ** sort_values *)

Section InsertionSort.
Context {A} (R : relation A) `{!RelDecision R}.

Lemma insert_sorted_Permutation x l : insert_sorted R x l ≡ₚ x :: l.
Proof.
  induction l as [|y l IH]; [done|]. simpl. case_decide; [done|].
  rewrite IH. apply Permutation_swap.
Qed.

Lemma insertion_sort_Permutation l : insertion_sort R l ≡ₚ l.
Proof.
  induction l as [|x l IH]; [done|].
  unfold insertion_sort in *. simpl.
  by rewrite insert_sorted_Permutation, IH.
Qed.

Lemma insert_sorted_StronglySorted `{!Transitive R} `{!Total R} x l :
  StronglySorted R l → StronglySorted R (insert_sorted R x l).
Proof.
  induction 1 as [|y l Hl IH Hy]; simpl.
  - repeat constructor.
  - case_decide as Hxy.
    + constructor; [by constructor|]. constructor; [done|].
      eapply Forall_impl; [exact Hy|]. intros z Hz. by etrans.
    + constructor; [done|].
      rewrite insert_sorted_Permutation. constructor; [|done].
      by destruct (total R x y).
Qed.

Lemma insertion_sort_StronglySorted `{!Transitive R} `{!Total R} l :
  StronglySorted R (insertion_sort R l).
Proof.
  induction l as [|x l IH]; [constructor|].
  by apply insert_sorted_StronglySorted.
Qed.

(** Entries that the order does not tell apart keep their order. *)
Lemma insertion_sort_stable (P : A → Prop) `{!∀ x, Decision (P x)} l :
  (∀ x y, P x → P y → R x y) →
  filter P (insertion_sort R l) = filter P l.
Proof.
  intros HP.
  assert (∀ x s, filter P (insert_sorted R x s) = filter P (x :: s)) as Hins.
  { intros x s. induction s as [|y s IH]; [done|]. simpl.
    case_decide as Hxy; [done|].
    rewrite filter_cons, IH, !filter_cons.
    destruct (decide (P y)), (decide (P x)); try done.
    destruct Hxy. by apply HP. }
  induction l as [|x l IH]; [done|].
  unfold insertion_sort in *. simpl. rewrite Hins, !filter_cons.
  by rewrite IH.
Qed.
End InsertionSort.

Lemma StronglySorted_impl {A} (R1 R2 : relation A) (l : list A) :
  (∀ a b, R1 a b → R2 a b) → StronglySorted R1 l → StronglySorted R2 l.
Proof.
  intros HR. induction 1 as [|x l Hl IH Hx]; constructor; [done|].
  eapply Forall_impl; [exact Hx|]. intros; by apply HR.
Qed.

Lemma objective_le_trans asc : Transitive (objective_le asc).
Proof.
  intros a b c. unfold objective_le.
  destruct (Objective a), (Objective b), (Objective c), asc; try done;
    intros; by etrans.
Qed.

Lemma objective_le_total asc : Total (objective_le asc).
Proof.
  intros a b. unfold objective_le.
  destruct (Objective a) as [|x], (Objective b) as [|y], asc; auto;
    destruct (Qclt_le_dec x y) as [?%Qclt_le_weak|?]; auto.
Qed.

Lemma sort_by_objective_Permutation asc rs : sort_by_objective asc rs ≡ₚ rs.
Proof. apply insertion_sort_Permutation. Qed.

(** Best first, NaN last. *)
Lemma sort_by_objective_sorted asc rs :
  StronglySorted (objective_le asc) (sort_by_objective asc rs).
Proof.
  apply insertion_sort_StronglySorted;
    [apply objective_le_trans|apply objective_le_total].
Qed.

(** Rows with the same objective stay in table order. *)
Lemma sort_by_objective_stable asc rs (o : float) :
  filter (λ r, Objective r = o) (sort_by_objective asc rs)
  = filter (λ r, Objective r = o) rs.
Proof.
  apply insertion_sort_stable. intros a b Ha Hb. simpl in Ha, Hb.
  unfold objective_le. rewrite Ha, Hb. destruct o, asc; done.
Qed.

(** ** PopulationBasedTraining *)

Section PBTStrings.
Import PopulationBasedTraining.

Lemma int_of_str_of_Z z : int_of_str (str_of_Z z) = Ok z.
Proof.
  unfold int_of_str, str_of_Z. rewrite NilZero.isi.
  - by rewrite DecimalZ.of_to.
  - destruct z; simpl; try done. intros [= E].
    by apply DecimalPos.Unsigned.to_uint_nonnil in E.
  - destruct z; simpl; try done. intros [= E].
    by apply DecimalPos.Unsigned.to_uint_nonnil in E.
Qed.

Lemma str_of_Z_inj a b : str_of_Z a = str_of_Z b → a = b.
Proof.
  intros E. pose proof (int_of_str_of_Z a) as Ha.
  rewrite E, int_of_str_of_Z in Ha. by injection Ha.
Qed.

Lemma uint_no_comma d : no_char "," (NilEmpty.string_of_uint d).
Proof. induction d; simpl; auto; split; auto; discriminate. Qed.

Lemma str_of_Z_no_comma z : no_char "," (str_of_Z z).
Proof.
  unfold str_of_Z. destruct (Z.to_int z) as [d|d]; simpl.
  - destruct d; simpl; try (split; [discriminate|]);
      try apply uint_no_comma. done.
  - split; [discriminate|].
    destruct d; simpl; try (split; [discriminate|]);
      try apply uint_no_comma. done.
Qed.

Lemma string_app_assoc (a b c : string) :
  ((a ++ b) ++ c = a ++ (b ++ c))%string.
Proof.
  induction a as [|x a IH]; [done|].
  change (String x ((a ++ b) ++ c) = String x (a ++ (b ++ c)))%string.
  by f_equal.
Qed.

Lemma lineage_of_snoc chain id :
  lineage_of (chain ++ [id]) = (lineage_of chain ++ id ++ ",")%string.
Proof.
  induction chain as [|x chain IH].
  - done.
  - change (lineage_of ((x :: chain) ++ [id]))
      with (x ++ "," ++ lineage_of (chain ++ [id]))%string.
    change (lineage_of (x :: chain))
      with (x ++ "," ++ lineage_of chain)%string.
    rewrite IH. by rewrite !string_app_assoc.
Qed.

Lemma py_split_prefix id rest :
  no_char "," id →
  py_split "," (id ++ "," ++ rest)%string = id :: py_split "," rest.
Proof.
  induction id as [|c id IH].
  - intros _. change ("" ++ "," ++ rest)%string with (String "," rest).
    cbn [py_split]. by rewrite decide_True.
  - intros [Hc Hid].
    change (String c id ++ "," ++ rest)%string
      with (String c (id ++ "," ++ rest)%string).
    cbn [py_split]. rewrite decide_False by done. by rewrite IH.
Qed.

(** Splitting a lineage on commas gives the ancestry, followed by the
    empty string after the trailing comma. *)
Lemma py_split_lineage chain :
  Forall (no_char ",") chain →
  py_split "," (lineage_of chain) = chain ++ [""%string].
Proof.
  induction 1 as [|id chain Hid _ IH]; [done|].
  change (lineage_of (id :: chain))
    with (id ++ "," ++ lineage_of chain)%string.
  rewrite py_split_prefix by done. by rewrite IH.
Qed.

Lemma VInt_inj a b : VInt a = VInt b → a = b.
Proof.
  by intros [= E].
Qed.

Lemma ancestry_mono trials trials' trial chain :
  (∀ t, t ∈ trials → t ∈ trials') →
  ancestry trials trial chain → ancestry trials' trial chain.
Proof.
  intros Hsub. induction 1.
  - by apply ancestry_seed.
  - eapply ancestry_child; eauto.
Qed.
End PBTStrings.

Section PBTCalls.
Import PopulationBasedTraining.
Context `{Random}.

Lemma perturb_preserves self ps k : ∀ cand g cand' g',
  (∀ p, p ∈ ps → name p ≠ k) →
  _perturb self cand ps g = (Ok cand', g') →
  cand' !! k = cand !! k.
Proof.
  induction ps as [|p ps IH]; intros cand g cand' g' Hk; simpl.
  - by intros [= ->].
  - assert (name p ≠ k) as Hp by (apply Hk; by left).
    assert (∀ p', p' ∈ ps → name p' ≠ k) as Hk' by (intros; apply Hk; by right).
    destruct (pkind p).
    + destruct (sample p g) as [v g1]. intros E.
      rewrite (IH _ _ _ _ Hk' E). by rewrite lookup_insert_ne.
    + destruct (perturbation_factors self) as [|f0 fs]; [done|].
      destruct (choice f0 fs g) as [factor g1].
      destruct (dict_get cand (name p)) as [cur|]; [|done]. cbn [rbind].
      destruct (as_num cur) as [x|]; [|done]. cbn [rbind].
      destruct (range_min _) as [lo|]; [|done]. cbn [rbind].
      destruct (range_max _) as [hi|]; [|done]. cbn [rbind].
      intros E. rewrite (IH _ _ _ _ Hk' E). by rewrite lookup_insert_ne.
    + destruct (perturbation_factors self) as [|f0 fs]; [done|].
      destruct (choice f0 fs g) as [factor g1].
      destruct (dict_get cand (name p)) as [cur|]; [|done]. cbn [rbind].
      destruct (as_num cur) as [x|]; [|done]. cbn [rbind].
      destruct (range_min _) as [lo|]; [|done]. cbn [rbind].
      destruct (range_max _) as [hi|]; [|done]. cbn [rbind].
      intros E. rewrite (IH _ _ _ _ Hk' E). by rewrite lookup_insert_ne.
    + destruct (choice (-1) [0; 1] g) as [shift g1].
      destruct (dict_get cand (name p)) as [cur|]; [|done]. cbn [rbind].
      destruct (list_index cur _) as [pos|]; [|done]. cbn [rbind].
      destruct (py_index _ _) as [v|]; [|done]. cbn [rbind].
      intros E. rewrite (IH _ _ _ _ Hk' E). by rewrite lookup_insert_ne.
Qed.

Lemma py_index_elem {A} (l : list A) k x : py_index l k = Ok x → x ∈ l.
Proof.
  unfold py_index. cbv zeta. repeat case_decide; try done;
    destruct (l !! _) eqn:E; try done; intros [= <-];
    by eapply list_elem_of_lookup_2.
Qed.

Lemma sort_by_objective_elem asc rs r :
  r ∈ sort_by_objective asc rs → r ∈ rs.
Proof. by rewrite sort_by_objective_Permutation. Qed.

Lemma generation_df_elem rs gen lib r :
  r ∈ generation_df rs gen lib →
  r ∈ rs ∧ Cols r !! "generation" = Some (VInt gen).
Proof.
  intros Hr%sort_by_objective_elem.
  apply list_elem_of_filter in Hr as [Hgen Hr].
  by apply list_elem_of_filter in Hr as [_ Hr].
Qed.

Lemma to_dict_bookkeeping r k :
  k ∈ bookkeeping → to_dict r !! k = Cols r !! k.
Proof.
  intros Hk. unfold to_dict.
  rewrite !lookup_insert_ne; [done|..]; intros <-;
    unfold bookkeeping in Hk; set_solver.
Qed.

Lemma copy_keys_spec d trial trial' :
  copy_keys d ["load_from"; "save_to"; "lineage"] trial = Ok trial' →
  ∀ k, k ∈ ["load_from"; "save_to"; "lineage"] →
       trial' !! k = d !! k ∧ is_Some (d !! k).
Proof.
  unfold copy_keys, dict_get.
  destruct (d !! "load_from") as [v1|] eqn:E1; [|done]. cbn [rbind].
  destruct (d !! "save_to") as [v2|] eqn:E2; [|done]. cbn [rbind].
  destruct (d !! "lineage") as [v3|] eqn:E3; [|done]. cbn [rbind].
  intros [= <-] k Hk.
  apply elem_of_cons in Hk as [->|Hk];
    [|apply elem_of_cons in Hk as [->|Hk];
      [|apply list_elem_of_singleton in Hk as ->]].
  - rewrite !lookup_insert_ne by done. rewrite lookup_insert_eq, E1. eauto.
  - rewrite !lookup_insert_ne by done. rewrite lookup_insert_eq, E2. eauto.
  - rewrite lookup_insert_eq, E3. eauto.
Qed.

(** What truncation selection hands back comes from a completed row of
    the previous generation, bookkeeping fields included. *)
Lemma truncation_selection_spec self ps rs lib g trial0 g1 :
  (∀ p, p ∈ ps → name p ∉ bookkeeping) →
  _truncation_selection self ps rs lib g = (Ok trial0, g1) →
  ∃ r, r ∈ rs
       ∧ Cols r !! "generation" = Some (VInt (generation self - 1))
       ∧ ∀ k, k ∈ ["load_from"; "save_to"; "lineage"] →
              trial0 !! k = Cols r !! k ∧ is_Some (Cols r !! k).
Proof.
  intros Hnames. unfold _truncation_selection.
  case_decide as Hpop; [done|].
  set (gdf := generation_df rs (generation self - 1) lib).
  assert (∀ picked g',
    (d ←r picked;
     trial ←r select_columns d (name <$> ps) ∅;
     copy_keys d ["load_from"; "save_to"; "lineage"] trial, g')
    = (Ok trial0, g1) →
    (∀ d, picked = Ok d →
       ∃ r, r ∈ gdf ∧ ∀ k, k ∈ ["load_from"; "save_to"; "lineage"] →
                           d !! k = Cols r !! k) →
    ∃ r, r ∈ rs
         ∧ Cols r !! "generation" = Some (VInt (generation self - 1))
         ∧ ∀ k, k ∈ ["load_from"; "save_to"; "lineage"] →
                trial0 !! k = Cols r !! k ∧ is_Some (Cols r !! k)) as Hfin.
  { intros [d|e] g' E Hd; [|done]. cbn [rbind] in E.
    destruct (select_columns d (name <$> ps) ∅) as [trial|]; [|done].
    cbn [rbind] in E. injection E as E _.
    destruct (Hd d eq_refl) as (r & Hr & Hkeys).
    apply generation_df_elem in Hr as [Hr Hgen].
    exists r. split_and!; [done..|]. intros k Hk.
    destruct (copy_keys_spec _ _ _ E k Hk) as [-> Hsome].
    by rewrite <- (Hkeys k Hk). }
  case_decide as Hslot.
  - intros E. apply (Hfin _ _ E). intros d Hd.
    destruct (py_index gdf _) as [r|] eqn:Hr; [|done].
    injection Hd as <-. exists r. split; [by eapply py_index_elem|].
    intros k Hk. apply to_dict_bookkeeping.
    unfold bookkeeping. set_solver.
  - case_decide as Hhigh; [|done].
    destruct (randint 0 _ g) as [idx g'].
    destruct (py_index gdf idx) as [r|] eqn:Hr; [|done].
    destruct (_perturb self (to_dict r) ps g') as [picked g''] eqn:Hp.
    intros E. apply (Hfin _ _ E). intros d ->.
    exists r. split; [by eapply py_index_elem|].
    intros k Hk.
    assert (∀ p, p ∈ ps → name p ≠ k) as Hnk.
    { intros p Hp' Heq. apply (Hnames p Hp'). rewrite Heq.
      unfold bookkeeping. set_solver. }
    rewrite (perturb_preserves self ps k _ _ _ _ Hnk Hp).
    apply to_dict_bookkeeping. unfold bookkeeping. set_solver.
Qed.
End PBTCalls.

Section PBTInvariant.
Import PopulationBasedTraining.
Context `{Random}.

Lemma field_Some trial k s :
  field trial k = Some s ↔ trial !! k = Some (VStr s).
Proof.
  unfold field. destruct (trial !! k) as [[| |]|]; naive_solver.
Qed.

(** One call: the counter moves on by one, and a suggestion is either a
    generation-1 trial or a copy (or perturbation) of a completed row of
    the previous generation, whose [save_to] it loads from. *)
Lemma pbt_suggest_spec self ps rs lib g out self' g' :
  (∀ p, p ∈ ps → name p ∉ bookkeeping) →
  get_suggestion self ps rs lib g = (out, self', g') →
  count self' = count self + 1
  ∧ population_size self' = population_size self
  ∧ ∀ trial, out = Ok (Config trial) →
      generation self' = (count self' - 1) `div` population_size self + 1
      ∧ trial !! "generation" = Some (VInt (generation self'))
      ∧ field trial "save_to" = Some (str_of_Z (count self'))
      ∧ ((generation self' = 1
          ∧ field trial "lineage" = Some ""%string
          ∧ field trial "load_from" = Some ""%string)
         ∨ (generation self' ≠ 1
            ∧ ∃ r sv cp l,
                r ∈ rs
                ∧ Cols r !! "generation"
                  = Some (VInt (generation self' - 1))
                ∧ Cols r !! "save_to" = Some sv
                ∧ int_of_value sv = Ok cp
                ∧ Cols r !! "lineage" = Some (VStr l)
                ∧ field trial "load_from" = Some (str_of_Z cp)
                ∧ field trial "lineage"
                  = Some (l ++ str_of_Z cp ++ ",")%string)).
Proof.
  intros Hnames. unfold get_suggestion.
  case_decide as Hpop; [by intros [= <- <- <-]|].
  case_decide as Hgen.
  - destruct (RandomSearch.get_suggestion _ _ _ _ _) as [[drawn sampler'] g1].
    destruct drawn as [trial0| |]; intros [= <- <- <-];
      (split_and!; [done..|]); [|done..].
    intros trial [= <-]. cbn [generation count with_counters].
    replace (count self + 1 - 1) with (count self) in * by lia.
    split_and!; [lia| | |left].
    + by rewrite lookup_insert_eq, Hgen.
    + apply field_Some. rewrite lookup_insert_ne by done.
      by rewrite lookup_insert_eq.
    + split_and!; [done| |]; apply field_Some.
      * rewrite !lookup_insert_ne by done. by rewrite lookup_insert_eq.
      * rewrite !lookup_insert_ne by done. by rewrite lookup_insert_eq.
  - destruct (_truncation_selection _ _ _ _ _) as [selected g1] eqn:E.
    intros [= <- <- <-]. split_and!; [done..|].
    intros trial Hout.
    destruct selected as [trial0|e]; cbn [rbind] in Hout; [|done].
    destruct (truncation_selection_spec _ _ _ _ _ _ _ Hnames E)
      as (r & Hr & Hrgen & Hkeys).
    destruct (Hkeys "save_to") as [Hs [sv Hsv]]; [set_solver|].
    destruct (Hkeys "lineage") as [Hl [lv Hlv]]; [set_solver|].
    unfold dict_get in Hout. rewrite Hs, Hsv in Hout. cbn [rbind] in Hout.
    destruct (int_of_value sv) as [cp|] eqn:Hcp; cbn [rbind] in Hout;
      [|done].
    rewrite Hl, Hlv in Hout. cbn [rbind] in Hout.
    destruct lv as [|l|]; [done| |done].
    injection Hout as <-. cbn [generation count with_counters] in *.
    split_and!; [done| | |right].
    + by rewrite lookup_insert_eq.
    + apply field_Some. rewrite !lookup_insert_ne by done.
      by rewrite lookup_insert_eq.
    + split; [done|]. exists r, sv, cp, l. split_and!; [done..| |].
      * apply field_Some. rewrite !lookup_insert_ne by done.
        by rewrite lookup_insert_eq.
      * apply field_Some. rewrite !lookup_insert_ne by done.
        by rewrite lookup_insert_eq.
Qed.

Lemma issued_ok_mono st st' trial :
  (∀ t, t ∈ issued st → t ∈ issued st') →
  count (alg st) ≤ count (alg st') →
  issued_ok st trial → issued_ok st' trial.
Proof.
  intros Hsub Hc (gen & c & chain & ? & ? & ? & ? & Hanc & ? & ?).
  exists gen, c, chain. split_and!; try done; try lia.
  by eapply ancestry_mono.
Qed.

Lemma study_inv_counter pop st a' g' :
  study_inv pop st →
  count (alg st) ≤ count a' →
  population_size a' = pop →
  study_inv pop {| alg := a'; gen_state := g';
                   issued := issued st; table := table st |}.
Proof.
  intros (Hc & Hpop & Hok & Huniq & Hrows) Hle Hpop'.
  split_and!; cbn [alg issued table]; [lia|done| |done|done].
  intros t Ht. by eapply issued_ok_mono; [| |by apply Hok].
Qed.

Lemma reachable_inv pop ranges factors ps g0 st :
  (∀ p, p ∈ ps → name p ∉ bookkeeping) →
  reachable pop ranges factors ps g0 st → study_inv pop st.
Proof.
  intros Hnames. induction 1 as
    [|st lib out self' g' _ IH Hcall|st trial r _ IH Htrial Hrow].
  - split_and!; cbn; [lia|done|..]; intros *; by rewrite ?elem_of_nil.
  - destruct (pbt_suggest_spec _ _ _ _ _ _ _ _ Hnames Hcall)
      as (Hc' & Hpop' & Hout).
    assert (population_size self' = pop) as Hpop''
      by (destruct IH as (_ & <- & _); done).
    destruct out as [[trial| |]|e];
      try (apply study_inv_counter; [done|lia|done]).
    destruct IH as (Hc & Hpop & Hok & Huniq & Hrows).
    set (st' := {| alg := self'; gen_state := g';
                   issued := issued st ++ [trial]; table := table st |}).
    assert (∀ t, t ∈ issued st → t ∈ issued st') as Hsub
      by (intros t Ht; apply elem_of_app; by left).
    assert (count (alg st) ≤ count (alg st')) as Hle by (cbn; lia).
    assert (∀ t, t ∈ issued st → issued_ok st' t) as Hold
      by (intros; eapply issued_ok_mono; eauto).
    destruct (Hout trial eq_refl) as (Hgeneq & Hgen & Hsave & Hcases).
    assert (issued_ok st' trial) as Hnew.
    { destruct Hcases as [(Hg1 & Hlin & Hload)
        |(Hg1 & r & sv & cp & l & Hr & Hrgen & Hrsave & Hcp & Hrlin
          & Hload & Hlin)].
      - exists (generation self'), (count self'), [].
        split_and!; try done; try (cbn; lia).
        apply ancestry_seed; [by rewrite Hgen, Hg1|done..].
      - destruct (Hrows r Hr) as (parent & Hparent & Hagree).
        destruct (Hok parent Hparent)
          as (pg & pc & chain & Hpgen & Hpsave & Hpc & _ & Hpanc & Hplin
              & Hpchain).
        apply field_Some in Hpsave. apply field_Some in Hplin.
        rewrite (Hagree "save_to"), Hpsave in Hrsave
          by (unfold bookkeeping; set_solver).
        injection Hrsave as <-. simpl in Hcp.
        rewrite int_of_str_of_Z in Hcp. injection Hcp as <-.
        rewrite (Hagree "lineage"), Hplin in Hrlin
          by (unfold bookkeeping; set_solver).
        injection Hrlin as <-.
        rewrite (Hagree "generation"), Hpgen in Hrgen
          by (unfold bookkeeping; set_solver).
        exists (generation self'), (count self'), (chain ++ [str_of_Z pc]).
        split_and!; try done; try (cbn; lia).
        + eapply (ancestry_child _ _ parent chain (generation self')
                    (str_of_Z pc) (lineage_of chain)); try done.
          * by apply Hsub.
          * by rewrite Hpgen, Hrgen.
          * by apply field_Some.
          * by apply field_Some.
          * by eapply ancestry_mono.
        + by rewrite Hlin, lineage_of_snoc.
        + apply Forall_app. split; [done|].
          constructor; [apply str_of_Z_no_comma|constructor]. }
    fold st'. split_and!.
    + cbn. lia.
    + done.
    + intros t [Ht| ->%list_elem_of_singleton]%elem_of_app; auto.
    + assert (∀ t, t ∈ issued st →
                field t "save_to" ≠ field trial "save_to") as Hfresh.
      { intros t Ht Heq.
        destruct (Hok t Ht) as (? & c & ? & _ & Hs & Hcle & _).
        rewrite Hs, Hsave in Heq. injection Heq as Heq%str_of_Z_inj. lia. }
      intros t1 t2 [Ht1| ->%list_elem_of_singleton]%elem_of_app
                   [Ht2| ->%list_elem_of_singleton]%elem_of_app Heq.
      * by apply Huniq.
      * by destruct (Hfresh t1 Ht1).
      * by destruct (Hfresh t2 Ht2).
      * done.
    + intros r Hr. destruct (Hrows r Hr) as (t & Ht & Hagree).
      exists t. split; [|done]. apply elem_of_app. by left.
  - destruct IH as (Hc & Hpop & Hok & Huniq & Hrows).
    split_and!; cbn [alg issued table]; [done|done| |done|].
    + intros t Ht. eapply issued_ok_mono; [| |by apply Hok]; [done|cbn; lia].
    + intros r' [Hr'| ->%list_elem_of_singleton]%elem_of_app.
      * by apply Hrows.
      * by exists trial.
Qed.
End PBTInvariant.

Lemma run_study_reachable `{Random} pop ranges factors ps g0 events :
  PopulationBasedTraining.reachable pop ranges factors ps g0
    (PopulationBasedTraining.run_study pop ranges factors ps g0 events).
Proof.
  unfold PopulationBasedTraining.run_study.
  induction events as [|e events IH] using rev_ind.
  - apply PopulationBasedTraining.reach_init.
  - rewrite foldl_app. cbn [foldl].
    set (st := foldl _ _ events) in *. destruct e as [lib|idx tid s it o].
    + unfold PopulationBasedTraining.study_step.
      destruct (PopulationBasedTraining.get_suggestion _ _ _ _ _)
        as [[out self'] g'] eqn:E.
      by eapply PopulationBasedTraining.reach_suggest.
    + unfold PopulationBasedTraining.study_step.
      destruct (PopulationBasedTraining.issued st !! idx) as [trial|] eqn:E;
        [|done].
      eapply (PopulationBasedTraining.reach_report _ _ _ _ _ st trial);
        [done|by eapply list_elem_of_lookup_2|done].
Qed.

(** C8.  In a run of [PopulationBasedTraining] in which the orchestrator
    writes the bookkeeping fields of a suggestion into the rows of its
    trial (and no parameter is named like a bookkeeping column), every
    suggestion issued has [save_to] equal to the counter of its call.
    A generation-1 suggestion has empty [lineage] and [load_from].  A
    suggestion of another generation [g] loads from the [save_to] of
    exactly one issued trial, which is of generation [g - 1]; and its
    [lineage], split on commas, is the list of [save_to] identifiers of
    its ancestors, from a generation-1 trial with empty lineage down to
    that parent, followed by the empty string left by the trailing
    comma. *)
Theorem pbt_lineage_chain `{Random} (pop : Z)
    (ranges : gmap string (list value)) (factors : list Qc)
    (ps : list parameter) (g0 : rng) :
  (∀ p, p ∈ ps → name p ∉ PopulationBasedTraining.bookkeeping) →
  (∀ self rs lower_is_better g trial self' g',
     PopulationBasedTraining.get_suggestion self ps rs lower_is_better g
     = (Ok (Config trial), self', g') →
     PopulationBasedTraining.count self'
     = PopulationBasedTraining.count self + 1
     ∧ PopulationBasedTraining.field trial "save_to"
       = Some (str_of_Z (PopulationBasedTraining.count self'))
     ∧ trial !! "generation"
       = Some (VInt ((PopulationBasedTraining.count self' - 1)
                     `div` PopulationBasedTraining.population_size self
                     + 1)))
  ∧ (∀ st trial,
       PopulationBasedTraining.reachable pop ranges factors ps g0 st →
       trial ∈ PopulationBasedTraining.issued st →
       ∃ (gen : Z) (chain : list string),
         trial !! "generation" = Some (VInt gen)
         ∧ PopulationBasedTraining.ancestry
             (PopulationBasedTraining.issued st) trial chain
         ∧ PopulationBasedTraining.field trial "lineage"
           = Some (PopulationBasedTraining.lineage_of chain)
         ∧ py_split "," (PopulationBasedTraining.lineage_of chain)
           = chain ++ [""%string]
         ∧ (gen = 1 →
            PopulationBasedTraining.field trial "lineage" = Some ""%string
            ∧ PopulationBasedTraining.field trial "load_from"
              = Some ""%string)
         ∧ (gen ≠ 1 →
            ∃ parent id,
              parent ∈ PopulationBasedTraining.issued st
              ∧ parent !! "generation" = Some (VInt (gen - 1))
              ∧ PopulationBasedTraining.field parent "save_to" = Some id
              ∧ PopulationBasedTraining.field trial "load_from" = Some id
              ∧ ∀ other,
                  other ∈ PopulationBasedTraining.issued st →
                  PopulationBasedTraining.field other "save_to" = Some id →
                  other = parent)).
Proof.
  intros Hnames. split.
  - intros self rs lib g trial self' g' Hcall.
    destruct (pbt_suggest_spec _ _ _ _ _ _ _ _ Hnames Hcall)
      as (Hc & Hpop & Hout).
    destruct (Hout trial eq_refl) as (Hgen & Htag & Hsave & _).
    split_and!; [done..|]. by rewrite Htag, Hgen.
  - intros st trial Hreach Htrial.
    destruct (reachable_inv _ _ _ _ _ _ Hnames Hreach)
      as (_ & _ & Hok & Huniq & _).
    destruct (Hok trial Htrial)
      as (gen & c & chain & Hgen & Hsave & Hc & Hfirst & Hanc & Hlin & Hchain).
    exists gen, chain. split_and!; [done..| |done|].
    + by apply py_split_lineage.
    + intros Hne. inversion Hanc as
        [? Hg1|? parent chain' gen' id l Hparent Hg Hpg Hps Hload Hpl Hl Hpanc];
        subst.
      * rewrite Hgen in Hg1. by apply (inj Some), VInt_inj in Hg1.
      * rewrite Hgen in Hg. apply (inj Some), VInt_inj in Hg as <-.
        exists parent, id. split_and!; [done..|].
        intros other Hother Hid. apply Huniq; [done..|]. by rewrite Hid, Hps.
Qed.

Lemma pbt_lineage_chain_witness :
  let ps := [{| name := "act"; pkind := Choice;
                range := [VStr "tanh"; VStr "relu"]; scale := "linear" |}] in
  let st := PopulationBasedTraining.run_study 1 ∅ [] ps 0%nat
              [PopulationBasedTraining.Suggest true;
               PopulationBasedTraining.Report 0 1 "COMPLETED" 1
                 (Fin (Qc_of_Z 0));
               PopulationBasedTraining.Suggest true] in
  ∃ trial gen chain,
    PopulationBasedTraining.issued st !! 1%nat = Some trial
    ∧ PopulationBasedTraining.field trial "load_from" = Some "1"%string
    ∧ trial !! "generation" = Some (VInt gen)
    ∧ PopulationBasedTraining.ancestry
        (PopulationBasedTraining.issued st) trial chain
    ∧ PopulationBasedTraining.field trial "lineage"
      = Some (PopulationBasedTraining.lineage_of chain)
    ∧ py_split "," (PopulationBasedTraining.lineage_of chain)
      = chain ++ [""%string].
Proof.
  intros ps st.
  assert (∃ trial, PopulationBasedTraining.issued st !! 1%nat = Some trial
                   ∧ PopulationBasedTraining.field trial "load_from"
                     = Some "1"%string) as (trial & Htrial & Hload).
  { eexists. split; vm_compute; reflexivity. }
  assert (∀ p, p ∈ ps → name p ∉ PopulationBasedTraining.bookkeeping)
    as Hnames.
  { intros p ->%list_elem_of_singleton Hin.
    repeat (apply elem_of_cons in Hin as [Hin|Hin]; [discriminate|]).
    by apply elem_of_nil in Hin. }
  destruct (proj2 (@pbt_lineage_chain det_random 1 ∅ [] ps 0%nat Hnames)
              st trial (run_study_reachable _ _ _ _ _ _)
              (list_elem_of_lookup_2 _ _ _ Htrial))
    as (gen & chain & Hgen & Hanc & Hlin & Hsplit & _).
  exists trial, gen, chain. by split_and!.
Defined.

Example pbt_second_generation_trial :
  (λ trial, (PopulationBasedTraining.field trial "lineage",
             PopulationBasedTraining.field trial "load_from",
             PopulationBasedTraining.field trial "save_to"))
    <$> PopulationBasedTraining.issued
          (PopulationBasedTraining.run_study 1 ∅ []
             [{| name := "act"; pkind := Choice;
                 range := [VStr "tanh"; VStr "relu"]; scale := "linear" |}]
             0%nat
             [PopulationBasedTraining.Suggest true;
              PopulationBasedTraining.Report 0 1 "COMPLETED" 1
                (Fin (Qc_of_Z 0));
              PopulationBasedTraining.Suggest true;
              PopulationBasedTraining.Report 1 2 "COMPLETED" 1
                (Fin (Qc_of_Z 0));
              PopulationBasedTraining.Suggest true])
  = [(Some "", Some "", Some "1"); (Some "1,", Some "1", Some "2");
     (Some "1,2,", Some "2", Some "3")]%string.
Proof. vm_compute. reflexivity. Qed.

(** ** load *)

Lemma iterate_run_successful ps calls : ∀ s,
  (∀ out, out ∈ run_calls (Iterate.step ps) s calls →
          ∃ c, out = Ok (Config c)) →
  run_state (Iterate.step ps) s calls
  = {| Iterate.hp_iter := Iterate.hp_iter s;
       Iterate.count := Iterate.count s + Z.of_nat (length calls) |}.
Proof.
  induction calls as [|[rs lib] calls IH]; intros s Hok.
  - destruct s. simpl. f_equal. lia.
  - cbn [run_state run_calls] in *.
    destruct (Iterate.step ps s (rs, lib)) as [out s'] eqn:E.
    cbn [snd]. rewrite IH by (intros o Ho; apply Hok; by right).
    destruct (Hok out) as [c ->]; [by left|].
    unfold Iterate.step, Iterate.get_suggestion in E. cbn [fst snd] in E.
    case_decide; [done|].
    destruct (py_index _ _); [|done]. injection E as _ <-.
    cbn. f_equal. lia.
Qed.

(** C3 (as amended).  [load] is idempotent in every algorithm.  For
    [Iterate], [load(n)] on a fresh instance gives the state reached by
    [n] successful [get_suggestion] calls, so every later call returns
    the same.  Every other algorithm inherits [Algorithm.load], which
    does nothing: the instance stays as it was. *)
Theorem load_per_algorithm `{Random} `{Numpy} :
  (∀ ps hp_iter,
     load_resumes (Iterate.step ps) Iterate.load
       {| Iterate.hp_iter := hp_iter; Iterate.count := 0 |})
  ∧ (∀ s n, Iterate.load (Iterate.load s n) n = Iterate.load s n)
  ∧ (∀ s n, RandomSearch.load s n = s)
  ∧ (∀ s n, GridSearch.load s n = s)
  ∧ (∀ s n, LocalSearch.load s n = s)
  ∧ (∀ s n, Genetic.load s n = s)
  ∧ (∀ s n, PopulationBasedTraining.load s n = s)
  ∧ (∀ A (s : Repeat.t A) n, Repeat.load s n = s).
Proof.
  split_and!; try done.
  intros ps hps calls later Hok.
  by rewrite (iterate_run_successful ps calls _ Hok).
Qed.

Lemma load_per_algorithm_witness :
  run_calls (Iterate.step [])
    (Iterate.load
       {| Iterate.hp_iter := [{["a" := VInt 1]}; {["a" := VInt 2]}];
          Iterate.count := 0 |} 1)
    [([], true); ([], true)]
  = [Ok (Config {["a" := VInt 2]}); Ok Stop].
Proof.
  etrans.
  - apply (proj1 (@load_per_algorithm det_random stand_in_numpy) []
             [{["a" := VInt 1]}; {["a" := VInt 2]}] [([], true)]).
    intros out ->%list_elem_of_singleton. eauto.
  - vm_compute. reflexivity.
Defined.

(** C3 as stated fails wherever [load] is the inherited no-op.
    [GridSearch] over the grid [a = 1, a = 2]: after one successful call
    the next suggestion is [a = 2]; after [load(1)] on a fresh instance
    it is [a = 1] again. *)
Lemma grid_search_load_counterexample :
  ¬ load_resumes
      (GridSearch.step
         [{| name := "a"; pkind := Choice; range := [VInt 1; VInt 2];
             scale := "linear" |}])
      GridSearch.load (GridSearch.init 2 1).
Proof.
  intros Hload.
  specialize (Hload [([], true)] [([], true)]).
  assert (run_calls
            (GridSearch.step
               [{| name := "a"; pkind := Choice; range := [VInt 1; VInt 2];
                   scale := "linear" |}])
            (GridSearch.init 2 1) [([], true)]
          = [Ok (Config {["a" := VInt 1]})]) as Hfirst
    by (vm_compute; reflexivity).
  rewrite Hfirst in Hload.
  assert (∀ out : result suggestion,
            out ∈ [Ok (Config ({["a" := VInt 1]} : config))] →
            ∃ c, out = Ok (Config c)) as Hok
    by (intros out ->%list_elem_of_singleton; eauto).
  specialize (Hload Hok). vm_compute in Hload. discriminate Hload.
Qed.

(** * Further properties of the code *)

(** ** Algorithm.get_best_result: which row wins *)

(** The scan keeps the earliest best entry: every finite entry before
    the position returned is strictly worse. *)
Lemma argbest_min_first col : ∀ i best k q,
  argbest (λ q b, bool_decide (q < b)%Qc) col i best = Some (k, q) →
  (∀ j b, best = Some (j, b) → (j < i)%nat) →
  (∀ d q', (i + d < k)%nat → col !! d = Some (Fin q') → (q < q')%Qc)
  ∧ (∀ j b, best = Some (j, b) → (k, q) = (j, b) ∨ (q < b)%Qc).
Proof.
  induction col as [|[|x] tl IH]; intros i best k q; simpl.
  - intros -> _. split; [intros ?? _ H; inversion H|].
    intros ?? [= -> ->]. by left.
  - intros E Hb. destruct (IH (S i) best k q E) as [H1 H2].
    { intros j b Hj. specialize (Hb j b Hj). lia. }
    split; [|done]. intros [|d] q' Hd Hq'; [done|].
    apply (H1 d); [lia|done].
  - intros E Hb.
    destruct (IH (S i) _ k q E) as [H1 H2].
    { intros j b Hj. destruct best as [[j0 b0]|];
        [case_bool_decide|]; simplify_eq; [lia| |lia].
      specialize (Hb _ _ eq_refl). lia. }
    split.
    + intros [|d] q' Hd Hq'; [|apply (H1 d); [lia|done]].
      simpl in Hq'. injection Hq' as ->.
      destruct best as [[j0 b0]|]; [case_bool_decide as Hlt|].
      * destruct (H2 _ _ eq_refl) as [[= -> ->]|?]; [lia|done].
      * destruct (H2 _ _ eq_refl) as [[= -> ->]|?].
        -- specialize (Hb _ _ eq_refl). lia.
        -- eapply Qclt_le_trans; [done|]. by apply Qcnot_lt_le.
      * destruct (H2 _ _ eq_refl) as [[= -> ->]|?]; [lia|done].
    + intros j b ->. case_bool_decide as Hlt.
      * destruct (H2 _ _ eq_refl) as [[= -> ->]|?]; right; [done|].
        by eapply Qclt_trans.
      * apply H2. done.
Qed.

Lemma argbest_max_first col : ∀ i best k q,
  argbest (λ q b, bool_decide (b < q)%Qc) col i best = Some (k, q) →
  (∀ j b, best = Some (j, b) → (j < i)%nat) →
  (∀ d q', (i + d < k)%nat → col !! d = Some (Fin q') → (q' < q)%Qc)
  ∧ (∀ j b, best = Some (j, b) → (k, q) = (j, b) ∨ (b < q)%Qc).
Proof.
  induction col as [|[|x] tl IH]; intros i best k q; simpl.
  - intros -> _. split; [intros ?? _ H; inversion H|].
    intros ?? [= -> ->]. by left.
  - intros E Hb. destruct (IH (S i) best k q E) as [H1 H2].
    { intros j b Hj. specialize (Hb j b Hj). lia. }
    split; [|done]. intros [|d] q' Hd Hq'; [done|].
    apply (H1 d); [lia|done].
  - intros E Hb.
    destruct (IH (S i) _ k q E) as [H1 H2].
    { intros j b Hj. destruct best as [[j0 b0]|];
        [case_bool_decide|]; simplify_eq; [lia| |lia].
      specialize (Hb _ _ eq_refl). lia. }
    split.
    + intros [|d] q' Hd Hq'; [|apply (H1 d); [lia|done]].
      simpl in Hq'. injection Hq' as ->.
      destruct best as [[j0 b0]|]; [case_bool_decide as Hlt|].
      * destruct (H2 _ _ eq_refl) as [[= -> ->]|?]; [lia|done].
      * destruct (H2 _ _ eq_refl) as [[= -> ->]|?].
        -- specialize (Hb _ _ eq_refl). lia.
        -- eapply Qcle_lt_trans; [|done]. by apply Qcnot_lt_le.
      * destruct (H2 _ _ eq_refl) as [[= -> ->]|?]; [lia|done].
    + intros j b ->. case_bool_decide as Hlt.
      * destruct (H2 _ _ eq_refl) as [[= -> ->]|?]; right; [done|].
        by eapply Qclt_trans.
      * apply H2. done.
Qed.

(** X1.  [get_best_result] on a table with a finite objective returns, with
    no warning, the dictionary of the first row that attains the minimum
    (maximum) over all rows, whatever their [Status]: the [Status] key is
    removed, the [Objective] key holds the optimum, and every earlier row
    with a finite objective is strictly worse. *)
Theorem get_best_result_first_best (rs : list row) (lower_is_better : bool) :
  (∃ r q, r ∈ rs ∧ Objective r = Fin q) →
  ∃ (i : nat) (r : row) (q : Qc) (d : gmap string value),
    rs !! i = Some r ∧ Objective r = Fin q
    ∧ get_best_result rs lower_is_better = Ok ([], d)
    ∧ d !! "Status" = None
    ∧ d !! "Objective" = Some (VNum q)
    ∧ d !! "Trial-ID" = Some (VInt (TrialID r))
    ∧ (∀ k, k ∉ ["Status"; "Objective"; "Trial-ID"; "Iteration"] →
            d !! k = Cols r !! k)
    ∧ (∀ r' q', r' ∈ rs → Objective r' = Fin q' →
         if lower_is_better then (q ≤ q')%Qc else (q' ≤ q)%Qc)
    ∧ (∀ j r' q', (j < i)%nat → rs !! j = Some r' → Objective r' = Fin q' →
         if lower_is_better then (q < q')%Qc else (q' < q)%Qc).
Proof.
  intros (r0 & q0 & Hin & Hq0). unfold get_best_result.
  assert (dropna (Objective <$> rs) ≠ []) as Hd.
  { rewrite dropna_nil_iff. intros H.
    specialize (H (Fin q0)). discriminate H.
    apply list_elem_of_fmap. eauto. }
  assert (rs ≠ []) as Hne by (intros ->; inversion Hin).
  assert (∀ (r : row) (q : Qc), Objective r = Fin q →
            delete "Status" (to_dict r) !! "Status" = None
            ∧ delete "Status" (to_dict r) !! "Objective" = Some (VNum q)
            ∧ delete "Status" (to_dict r) !! "Trial-ID"
              = Some (VInt (TrialID r))
            ∧ ∀ k, k ∉ ["Status"; "Objective"; "Trial-ID"; "Iteration"] →
                   delete "Status" (to_dict r) !! k = Cols r !! k) as Hdict.
  { intros r q Hq. split_and!.
    - apply lookup_delete_eq.
    - rewrite lookup_delete_ne by done. unfold to_dict.
      rewrite !lookup_insert_ne by done. rewrite lookup_insert_eq.
      by rewrite Hq.
    - rewrite lookup_delete_ne by done. unfold to_dict.
      by rewrite lookup_insert_eq.
    - intros k Hk. rewrite !elem_of_cons, elem_of_nil in Hk.
      rewrite lookup_delete_ne by naive_solver. unfold to_dict.
      rewrite !lookup_insert_ne by naive_solver. done. }
  destruct lower_is_better.
  - destruct (argbest (λ q b, bool_decide (q < b)%Qc) (Objective <$> rs)
                0%nat None) as [[k q]|] eqn:E.
    2: { apply argbest_None in E. tauto. }
    destruct (argbest_position _ _ _ _ _ _ E) as [?|[_ Hk]]; [done|].
    rewrite Nat.sub_0_r, list_lookup_fmap in Hk.
    destruct (rs !! k) as [r|] eqn:Hr; [|done]. simpl in Hk.
    assert (Objective r = Fin q) as Hq by congruence.
    destruct (Hdict r q Hq) as (D1 & D2 & D3 & D4).
    exists k, r, q, (delete "Status" (to_dict r)).
    split_and!; try done.
    + unfold idxmin. destruct rs; [done|].
      cbn [fmap list_fmap rbind] in *. rewrite E. simpl. by rewrite Hr.
    + intros r' q' Hr' Hq'. apply argbest_min in E as [E _]. apply E.
      apply list_elem_of_fmap. exists r'. eauto.
    + intros j r' q' Hj Hr' Hq'.
      apply argbest_min_first in E as [E _]; [|done].
      apply (E j); [lia|]. by rewrite list_lookup_fmap, Hr', <- Hq'.
  - destruct (argbest (λ q b, bool_decide (b < q)%Qc) (Objective <$> rs)
                0%nat None) as [[k q]|] eqn:E.
    2: { apply argbest_None in E. tauto. }
    destruct (argbest_position _ _ _ _ _ _ E) as [?|[_ Hk]]; [done|].
    rewrite Nat.sub_0_r, list_lookup_fmap in Hk.
    destruct (rs !! k) as [r|] eqn:Hr; [|done]. simpl in Hk.
    assert (Objective r = Fin q) as Hq by congruence.
    destruct (Hdict r q Hq) as (D1 & D2 & D3 & D4).
    exists k, r, q, (delete "Status" (to_dict r)).
    split_and!; try done.
    + unfold idxmax. destruct rs; [done|].
      cbn [fmap list_fmap rbind] in *. rewrite E. simpl. by rewrite Hr.
    + intros r' q' Hr' Hq'. apply argbest_max in E as [E _]. apply E.
      apply list_elem_of_fmap. exists r'. eauto.
    + intros j r' q' Hj Hr' Hq'.
      apply argbest_max_first in E as [E _]; [|done].
      apply (E j); [lia|]. by rewrite list_lookup_fmap, Hr', <- Hq'.
Qed.

Lemma get_best_result_first_best_witness :
  let mk tid st obj :=
    {| TrialID := tid; Status := st; Iteration := 1; Objective := obj;
       Cols := {["lr" := VInt tid]} |} in
  let rs := [mk 1 "COMPLETED" (Fin (Qc_of_Z 3));
             mk 2 "INTERMEDIATE" (Fin (Qc_of_Z 1));
             mk 3 "COMPLETED" NaN; mk 4 "COMPLETED" (Fin (Qc_of_Z 1))] in
  ∃ (i : nat) (r : row) (q : Qc) (d : gmap string value),
    rs !! i = Some r ∧ Objective r = Fin q
    ∧ get_best_result rs true = Ok ([], d)
    ∧ d !! "Status" = None
    ∧ d !! "Objective" = Some (VNum q)
    ∧ d !! "Trial-ID" = Some (VInt (TrialID r))
    ∧ (∀ k, k ∉ ["Status"; "Objective"; "Trial-ID"; "Iteration"] →
            d !! k = Cols r !! k)
    ∧ (∀ r' q', r' ∈ rs → Objective r' = Fin q' → (q ≤ q')%Qc)
    ∧ (∀ j r' q', (j < i)%nat → rs !! j = Some r' → Objective r' = Fin q' →
         (q < q')%Qc).
Proof.
  intros mk rs. apply (get_best_result_first_best rs true).
  exists (mk 1 "COMPLETED" (Fin (Qc_of_Z 3))), (Qc_of_Z 3).
  split; [by left|done].
Defined.

(** ** MedianStoppingRule: the guards *)

Section MedianStoppingRuleGuards.
Import MedianStoppingRule.

Lemma rows_of_none rs T :
  (∀ r, r ∈ rs → TrialID r ≠ T) → rows_of rs T = [].
Proof.
  intros Hno. unfold rows_of. induction rs as [|r rs IH]; [done|].
  rewrite filter_cons_False by (apply Hno; by left).
  apply IH. intros r' Hr'. apply Hno. by right.
Qed.

Lemma omap_length_le {A B} (f : A → option B) (l : list A) :
  (length (omap f l) ≤ length l)%nat.
Proof.
  induction l as [|x l IH]; [done|]. cbn [omap list_omap length].
  destruct (f x); cbn [length]; [apply le_n_S|apply le_S]; exact IH.
Qed.

Lemma float_cmp_nan (lower_is_better : bool) (f : float) :
  (if lower_is_better then float_gtb NaN f else float_ltb NaN f) = false.
Proof. destruct lower_is_better, f; done. Qed.
End MedianStoppingRuleGuards.

(** X2.  A trial that has no row in the table is never stopped: its
    [max_iteration] and best objective are NaN, every comparison with
    NaN is false, and the NaN shortcut needs a row. *)
Theorem median_rule_trial_without_rows (self : MedianStoppingRule.t)
    (T : Z) (rs : list row) (lower_is_better : bool) :
  (∀ r, r ∈ rs → TrialID r ≠ T) →
  MedianStoppingRule.should_trial_stop self T rs lower_is_better = false.
Proof.
  intros Hno. unfold MedianStoppingRule.should_trial_stop.
  rewrite (rows_of_none rs T Hno). case_bool_decide; [done|].
  cbn [fmap list_fmap iteration_max MedianStoppingRule.max_iteration_lt].
  assert (MedianStoppingRule.best_objective lower_is_better [] = NaN) as ->
    by by destruct lower_is_better.
  cbn [MedianStoppingRule.isnan andb negb].
  rewrite bool_decide_eq_true_2 by done. cbn [negb].
  case_bool_decide; [done|]. apply float_cmp_nan.
Qed.

Lemma median_rule_trial_without_rows_witness :
  MedianStoppingRule.should_trial_stop
    {| MedianStoppingRule.min_iterations := 0;
       MedianStoppingRule.min_trials := 1 |} 7
    [{| TrialID := 1; Status := "INTERMEDIATE"; Iteration := 1;
        Objective := Fin (Qc_of_Z 0); Cols := ∅ |}] true = false.
Proof.
  apply median_rule_trial_without_rows.
  intros r ->%list_elem_of_singleton. simpl. lia.
Defined.

(** X3.  "If [t] is all nan's it is stopped by default": a trial that has
    reached [min_iterations] and whose objectives are all NaN is stopped,
    whatever the other trials and [min_trials] are. *)
Theorem median_rule_all_nan_trial_stopped (self : MedianStoppingRule.t)
    (T : Z) (rs : list row) (lower_is_better : bool) :
  (∃ r, r ∈ rs ∧ TrialID r = T
        ∧ MedianStoppingRule.min_iterations self ≤ Iteration r) →
  (∀ r, r ∈ rs → TrialID r = T → Objective r = NaN) →
  MedianStoppingRule.should_trial_stop self T rs lower_is_better = true.
Proof.
  intros (r0 & Hr0 & HT & Hit) Hnan.
  unfold MedianStoppingRule.should_trial_stop.
  rewrite bool_decide_eq_false_2 by (destruct rs; [inversion Hr0|done]).
  assert (r0 ∈ MedianStoppingRule.rows_of rs T) as Hin
    by by apply list_elem_of_filter.
  destruct (iteration_max (Iteration <$> MedianStoppingRule.rows_of rs T))
    as [m|] eqn:Hm.
  2: { destruct (MedianStoppingRule.rows_of rs T); [inversion Hin|done]. }
  assert (Iteration r0 ≤ m) as Hle.
  { apply (iteration_max_ge _ _ _ Hm), list_elem_of_fmap. eauto. }
  cbn [MedianStoppingRule.max_iteration_lt].
  rewrite bool_decide_eq_false_2 by lia.
  assert (dropna (Objective <$> MedianStoppingRule.rows_of rs T) = []) as Hd.
  { apply dropna_nil_iff. intros f (r & -> & Hr)%list_elem_of_fmap.
    apply list_elem_of_filter in Hr as [? ?]. auto. }
  assert (MedianStoppingRule.best_objective lower_is_better
            (MedianStoppingRule.rows_of rs T) = NaN) as ->.
  { unfold MedianStoppingRule.best_objective, series_min, series_max.
    rewrite Hd. by destruct lower_is_better. }
  cbn [MedianStoppingRule.isnan andb].
  rewrite bool_decide_eq_false_2; [done|].
  intros Hnil. rewrite Hnil in Hin. inversion Hin.
Qed.

Lemma median_rule_all_nan_trial_stopped_witness :
  MedianStoppingRule.should_trial_stop
    {| MedianStoppingRule.min_iterations := 1;
       MedianStoppingRule.min_trials := 5 |} 1
    [{| TrialID := 1; Status := "INTERMEDIATE"; Iteration := 1;
        Objective := NaN; Cols := ∅ |}] true = true.
Proof.
  apply median_rule_all_nan_trial_stopped.
  - eexists. split; [by left|]. simpl. split; [done|lia].
  - intros r ->%list_elem_of_singleton. reflexivity.
Defined.

(** X4.  A trial with rows, none of which has reached [min_iterations], is
    not stopped, whatever its objectives (NaN included) and the other
    trials are. *)
Theorem median_rule_below_min_iterations (self : MedianStoppingRule.t)
    (T : Z) (rs : list row) (lower_is_better : bool) :
  (∃ r, r ∈ rs ∧ TrialID r = T) →
  (∀ r, r ∈ rs → TrialID r = T →
        Iteration r < MedianStoppingRule.min_iterations self) →
  MedianStoppingRule.should_trial_stop self T rs lower_is_better = false.
Proof.
  intros (r0 & Hr0 & HT) Hlt.
  unfold MedianStoppingRule.should_trial_stop.
  case_bool_decide; [done|].
  assert (r0 ∈ MedianStoppingRule.rows_of rs T) as Hin
    by by apply list_elem_of_filter.
  destruct (iteration_max (Iteration <$> MedianStoppingRule.rows_of rs T))
    as [m|] eqn:Hm.
  2: { destruct (MedianStoppingRule.rows_of rs T); [inversion Hin|done]. }
  apply iteration_max_in in Hm.
  apply list_elem_of_fmap in Hm as (r & -> & Hr).
  apply list_elem_of_filter in Hr as [HrT Hr].
  cbn [MedianStoppingRule.max_iteration_lt].
  rewrite bool_decide_eq_true_2 by auto. done.
Qed.

Lemma median_rule_below_min_iterations_witness :
  MedianStoppingRule.should_trial_stop
    {| MedianStoppingRule.min_iterations := 3;
       MedianStoppingRule.min_trials := 0 |} 1
    [{| TrialID := 1; Status := "INTERMEDIATE"; Iteration := 2;
        Objective := NaN; Cols := ∅ |}] true = false.
Proof.
  apply median_rule_below_min_iterations.
  - eexists. split; [by left|done].
  - intros r ->%list_elem_of_singleton _. simpl. lia.
Defined.

(** X5.  With fewer other trials in the table than [min_trials], a trial
    whose best objective is a number is not stopped. *)
Theorem median_rule_too_few_trials (self : MedianStoppingRule.t)
    (T : Z) (rs : list row) (lower_is_better : bool) (v : Qc) :
  Z.of_nat (size (MedianStoppingRule.other_trial_ids rs T))
    < MedianStoppingRule.min_trials self →
  MedianStoppingRule.best_objective lower_is_better
    (MedianStoppingRule.rows_of rs T) = Fin v →
  MedianStoppingRule.should_trial_stop self T rs lower_is_better = false.
Proof.
  intros Hfew Hv. unfold MedianStoppingRule.should_trial_stop.
  case_bool_decide; [done|]. destruct (MedianStoppingRule.max_iteration_lt _ _);
    [done|].
  rewrite Hv. cbn [MedianStoppingRule.isnan andb].
  rewrite bool_decide_eq_true_2; [done|].
  unfold MedianStoppingRule.comparison_vals.
  pose proof (omap_length_le
                (MedianStoppingRule.comparison_val self rs lower_is_better)
                (elements (MedianStoppingRule.other_trial_ids rs T))) as Hlen.
  unfold size, set_size in Hfew. simpl in Hfew. lia.
Qed.

Lemma median_rule_too_few_trials_witness :
  MedianStoppingRule.should_trial_stop
    {| MedianStoppingRule.min_iterations := 0;
       MedianStoppingRule.min_trials := 1 |} 1
    [{| TrialID := 1; Status := "INTERMEDIATE"; Iteration := 1;
        Objective := Fin (Qc_of_Z 9); Cols := ∅ |}] true = false.
Proof.
  apply (median_rule_too_few_trials _ _ _ _ (Qc_of_Z 9)).
  - vm_compute. reflexivity.
  - vm_compute. reflexivity.
Defined.

(** X6.  The values a trial is compared with are the best objectives, over
    all of their rows, of the other trials whose last iteration has
    reached [min_iterations]: the filter [Iteration <= max_iteration]
    keeps every row, so iterations the trial under test has not reached
    yet count too. *)
Theorem median_rule_comparison_values (self : MedianStoppingRule.t)
    (T : Z) (rs : list row) (lower_is_better : bool) (v : float) :
  v ∈ MedianStoppingRule.comparison_vals self T rs lower_is_better
  ↔ ∃ (tid m : Z),
      tid ≠ T ∧ tid ∈ TrialID <$> rs
      ∧ iteration_max (Iteration <$> MedianStoppingRule.rows_of rs tid)
        = Some m
      ∧ MedianStoppingRule.min_iterations self ≤ m
      ∧ v = MedianStoppingRule.best_objective lower_is_better
              (MedianStoppingRule.rows_of rs tid).
Proof.
  unfold MedianStoppingRule.comparison_vals. rewrite list_elem_of_omap.
  split.
  - intros (tid & Hin & Hv). apply elem_of_elements in Hin.
    unfold MedianStoppingRule.other_trial_ids in Hin.
    apply elem_of_difference in Hin as [Hin HT].
    assert (tid ≠ T) as HneT by set_solver.
    pose proof (rows_of_nonempty _ _ Hin) as Hne.
    apply elem_of_list_to_set in Hin.
    destruct (iteration_max (Iteration <$> MedianStoppingRule.rows_of rs tid))
      as [m|] eqn:Hm.
    2: { destruct (MedianStoppingRule.rows_of rs tid); done. }
    exists tid, m. split_and!; try done.
    + unfold MedianStoppingRule.comparison_val in Hv. rewrite Hm in Hv.
      cbn [MedianStoppingRule.max_iteration_lt] in Hv.
      case_bool_decide; [done|lia].
    + destruct (decide (MedianStoppingRule.min_iterations self ≤ m)) as [Hle|Hgt].
      * rewrite (comparison_val_reached self rs lower_is_better tid m Hm Hle)
          in Hv. congruence.
      * unfold MedianStoppingRule.comparison_val in Hv. rewrite Hm in Hv.
        cbn [MedianStoppingRule.max_iteration_lt] in Hv.
        rewrite bool_decide_eq_true_2 in Hv by lia. done.
  - intros (tid & m & HneT & Hin & Hm & Hle & ->). exists tid. split.
    + apply elem_of_elements. unfold MedianStoppingRule.other_trial_ids.
      apply elem_of_difference. split; [by apply elem_of_list_to_set|].
      set_solver.
    + by apply (comparison_val_reached self rs lower_is_better tid m).
Qed.

(** ** RandomSearch: the keys of a suggestion, and [repeat <= 0] *)

Section RandomSearchMore.
Import RandomSearch.
Context `{Random}.

Lemma sample_all_dom ps : ∀ (acc : config) g,
  dom (sample_all ps acc g).1 = dom acc ∪ list_to_set (name <$> ps).
Proof.
  induction ps as [|p ps IH]; intros acc g; simpl.
  - set_solver.
  - destruct (sample p g) as [v g1]. rewrite IH, dom_insert_L. set_solver.
Qed.

Lemma rs_keys_step ps s rs lib g :
  (j s ≠ 0 → dom (theta_i s) = list_to_set (name <$> ps)) →
  (j (get_suggestion s ps rs lib g).1.2 ≠ 0 →
   dom (theta_i (get_suggestion s ps rs lib g).1.2)
   = list_to_set (name <$> ps))
  ∧ ∀ c, (get_suggestion s ps rs lib g).1.1 = Config c →
         dom c = list_to_set (name <$> ps).
Proof.
  intros Hinv. unfold get_suggestion.
  set (j1 := if decide (j s = m s) then 0 else j s).
  assert (j1 ≠ 0 → j s ≠ 0) as Hj1.
  { subst j1. case_decide; [done|auto]. }
  destruct (decide (j1 = 0)) as [Hz|Hnz].
  - pose proof (sample_all_dom ps ∅ g) as Hdom.
    destruct (sample_all ps ∅ g) as [c0 g'].
    simpl in Hdom. rewrite dom_empty_L, (left_id_L ∅ (∪)) in Hdom.
    case_decide; simpl; (split; [done|intros c Hc; by simplify_eq]).
  - case_decide; simpl; (split; [auto|intros c Hc; simplify_eq; auto]).
Qed.

Lemma rs_keys_run ps calls : ∀ s g c,
  (j s ≠ 0 → dom (theta_i s) = list_to_set (name <$> ps)) →
  Config c ∈ (run s ps calls g).1.1 →
  dom c = list_to_set (name <$> ps).
Proof.
  induction calls as [|[rs lib] calls IH]; intros s g c Hinv; simpl.
  - intros Hin. inversion Hin.
  - destruct (rs_keys_step ps s rs lib g Hinv) as [Hinv' Hout].
    destruct (get_suggestion s ps rs lib g) as [[out s'] g'] eqn:E.
    simpl in Hinv', Hout.
    specialize (IH s' g' c Hinv').
    destruct (run s' ps calls g') as [[outs s''] g''].
    simpl in *. intros [Heq|Hin]%elem_of_cons; auto.
Qed.

Lemma rs_stuck_run ps calls : ∀ s g out,
  i s = 1 → 1 ≤ j s → m s ≤ 0 → 1 ≤ n s →
  out ∈ (run s ps calls g).1.1 → out = Config (theta_i s).
Proof.
  induction calls as [|[rs lib] calls IH]; intros s g out Hi Hj Hm Hn; simpl.
  - intros Hin. inversion Hin.
  - unfold get_suggestion.
    rewrite (decide_False (P := j s = m s)) by lia.
    rewrite (decide_False (P := j s = 0)) by lia.
    rewrite (decide_False (P := i s > n s)) by lia.
    specialize (IH {| i := i s; n := n s; m := m s; j := j s + 1;
                      theta_i := theta_i s |} g out).
    destruct (run _ ps calls g) as [[outs s''] g''].
    simpl in *. intros [->|Hin]%elem_of_cons; [done|].
    apply IH; [done|lia|done|done|done].
Qed.
End RandomSearchMore.

(** X7.  Every configuration [RandomSearch] suggests has exactly the names
    of the parameters as its keys, whatever [max_num_trials] and
    [repeat] are. *)
Theorem random_search_suggestion_keys `{Random}
    (max_num_trials : option Z) (repeat : Z) (ps : list parameter)
    (calls : list (list row * bool)) (g : rng) (c : config) :
  Config c ∈ (RandomSearch.run (RandomSearch.init max_num_trials repeat)
                ps calls g).1.1 →
  dom c = list_to_set (name <$> ps).
Proof. apply rs_keys_run. done. Qed.

Lemma random_search_suggestion_keys_witness :
  dom ({["lr" := VInt 1]} : config) = list_to_set ["lr"].
Proof.
  apply (@random_search_suggestion_keys det_random (Some 2) 2
           [{| name := "lr"; pkind := Choice; range := [VInt 1; VInt 2];
               scale := "linear" |}] [([], true)] 0%nat).
  vm_compute. left.
Defined.

(** X8.  With [repeat <= 0] the repetition counter never meets [repeat]
    again after the first call: the first configuration sampled is
    returned by every call, and Stop never is. *)
Theorem random_search_nonpositive_repeat `{Random}
    (max_num_trials : option Z) (repeat : Z) (ps : list parameter)
    (calls : list (list row * bool)) (g : rng) (out : suggestion) :
  repeat ≤ 0 →
  (∀ k, max_num_trials = Some k → 0 ≤ k) →
  out ∈ (RandomSearch.run (RandomSearch.init max_num_trials repeat)
           ps calls g).1.1 →
  out = Config (sample_all ps ∅ g).1.
Proof.
  intros Hm Hcap. destruct calls as [|[rs lib] calls]; simpl.
  { intros Hin. inversion Hin. }
  assert (1 ≤ RandomSearch.n (RandomSearch.init max_num_trials repeat)) as Hn.
  { simpl. destruct max_num_trials as [k|]; [|done].
    case_decide; [done|]. specialize (Hcap k eq_refl). lia. }
  unfold RandomSearch.get_suggestion.
  set (s0 := RandomSearch.init max_num_trials repeat) in *.
  assert ((if decide (RandomSearch.j s0 = RandomSearch.m s0) then 0
           else RandomSearch.j s0) = 0) as -> by (by case_decide).
  rewrite (decide_True (P := 0 = 0)) by done.
  destruct (sample_all ps ∅ g) as [c0 g1] eqn:E.
  change (RandomSearch.i s0) with 0.
  rewrite (decide_False (P := 0 + 1 > RandomSearch.n s0)) by lia.
  match goal with |- context [RandomSearch.run ?s ps calls g1] =>
    pose proof (rs_stuck_run ps calls s g1 out) as Hrun;
    destruct (RandomSearch.run s ps calls g1) as [[outs s''] g'']
  end.
  simpl in *. intros [->|Hin]%elem_of_cons; [done|].
  apply Hrun; [done|lia|done|done|done].
Qed.

Lemma random_search_nonpositive_repeat_witness :
  Config {["lr" := VInt 1]}
  = Config (sample_all (H := det_random)
              [{| name := "lr"; pkind := Choice; range := [VInt 1; VInt 2];
                  scale := "linear" |}] ∅ 0%nat).1.
Proof.
  apply (@random_search_nonpositive_repeat det_random (Some 1) 0
           [{| name := "lr"; pkind := Choice; range := [VInt 1; VInt 2];
               scale := "linear" |}] (replicate 3 ([], true)) 0%nat).
  - done.
  - intros k [= <-]. done.
  - vm_compute. do 2 right. left.
Defined.

(** ** Iterate: the enumeration, the constructor's check, [load] *)

Lemma iterate_run_from ps hps calls : ∀ c : nat,
  run_calls (Iterate.step ps)
    {| Iterate.hp_iter := hps; Iterate.count := Z.of_nat c |} calls
  = ((λ hp, Ok (Config hp)) <$> take (length calls) (drop c hps))
    ++ replicate (length calls - (length hps - c)) (Ok Stop).
Proof.
  induction calls as [|call calls IH]; intros c; [done|].
  cbn [run_calls]. unfold Iterate.step at 1, Iterate.get_suggestion.
  cbn [Iterate.hp_iter Iterate.count].
  destruct (decide (Z.of_nat (length hps) ≤ Z.of_nat c)) as [Hge|Hlt].
  - rewrite IH. rewrite drop_ge by lia. rewrite !take_nil. cbn [fmap list_fmap app].
    replace (length hps - c)%nat with 0%nat by lia.
    rewrite !Nat.sub_0_r. done.
  - destruct (lookup_lt_is_Some_2 hps c) as [hp Hhp]; [lia|].
    unfold py_index. rewrite (decide_False (P := Z.of_nat c < 0)) by lia.
    rewrite decide_True by lia. rewrite Nat2Z.id, Hhp.
    replace (Z.of_nat c + 1) with (Z.of_nat (S c)) by lia.
    rewrite IH. rewrite (drop_S _ _ _ Hhp). cbn [length take fmap list_fmap app].
    do 3 f_equal. lia.
Qed.

(** X9.  A fresh [Iterate] walks through its list: the calls return the
    configurations in list order, one per call, and every call after
    the last configuration returns Stop. *)
Theorem iterate_enumerates (ps : list parameter) (hps : list config)
    (calls : list (list row * bool)) :
  run_calls (Iterate.step ps)
    {| Iterate.hp_iter := hps; Iterate.count := 0 |} calls
  = ((λ hp, Ok (Config hp)) <$> take (length calls) hps)
    ++ replicate (length calls - length hps) (Ok Stop).
Proof.
  change 0 with (Z.of_nat 0).
  rewrite (iterate_run_from ps hps calls 0). by rewrite drop_0, Nat.sub_0_r.
Qed.

(** X10.  The constructor accepts a list exactly when it is non-empty and
    every configuration has every key of the first one (more keys are
    allowed); the instance then starts at position 0. *)
Theorem iterate_init_checks (hps : list config) :
  (∀ s, Iterate.init hps = Ok s
        → s = {| Iterate.hp_iter := hps; Iterate.count := 0 |})
  ∧ ((∃ s, Iterate.init hps = Ok s)
     ↔ ∃ first rest,
         hps = first :: rest
         ∧ ∀ hp k, hp ∈ hps → is_Some (first !! k) → is_Some (hp !! k)).
Proof.
  unfold Iterate.init, Iterate.get_parameters. split.
  - intros s. destruct hps as [|first rest]; [done|].
    destruct (Iterate.collect_parameters _ _ _); simpl; [|done].
    by intros [= <-].
  - destruct hps as [|first rest].
    { split; [by intros [s ?]|by intros (? & ? & ? & _)]. }
    set (hps := first :: rest).
    destruct (decide (Forall (λ hp : config,
                Forall (λ k, is_Some (hp !! k)) (dict_keys first)) hps))
      as [Hall|Hnot].
    + split.
      * intros _. exists first, rest. split; [done|].
        intros hp k Hhp Hk. rewrite Forall_forall in Hall.
        specialize (Hall hp Hhp). rewrite Forall_forall in Hall.
        apply Hall. by apply dict_keys_elem_of.
      * intros _.
        rewrite (collect_parameters_ok hps (dict_keys first) []); [by eexists|].
        intros hp k Hhp Hk. rewrite Forall_forall in Hall.
        specialize (Hall hp Hhp). rewrite Forall_forall in Hall. auto.
    + apply not_Forall_Exists in Hnot; [|apply _].
      apply Exists_exists in Hnot as (hp & Hhp & Hnot).
      apply not_Forall_Exists in Hnot; [|apply _].
      apply Exists_exists in Hnot as (k & Hk & Hnone).
      destruct (collect_parameters_missing hps (dict_keys first) [])
        as (k' & pos & hp' & -> & _).
      { exists hp, k. split_and!; [done|done|].
        destruct (hp !! k) eqn:E; [|done]. exfalso. apply Hnone. eauto. }
      split; [by intros [s ?]|].
      intros (first' & rest' & [= <- <-] & Hall). exfalso. apply Hnone.
      apply Hall; [done|]. by apply dict_keys_elem_of.
Qed.

(** X11.  What the call after [load(n)] returns, for a list of length [len]:
    Stop for [n >= len]; item [n] for [0 <= n < len]; for a negative [n]
    Python's indexing from the end applies, so item [len + n] is
    returned as long as [-len <= n], and [IndexError] is raised below
    that, leaving the counter where it was. *)
Theorem iterate_load_then_suggest (self : Iterate.t) (n : Z)
    (ps : list parameter) (rs : list row) (lower_is_better : bool) :
  let len := Z.of_nat (length (Iterate.hp_iter self)) in
  let call := Iterate.get_suggestion (Iterate.load self n) ps rs
                lower_is_better in
  (len ≤ n → call = (Ok Stop, Iterate.load self n))
  ∧ (0 ≤ n < len →
     ∃ hp, Iterate.hp_iter self !! Z.to_nat n = Some hp
           ∧ call = (Ok (Config hp), Iterate.load self (n + 1)))
  ∧ (- len ≤ n < 0 →
     ∃ hp, Iterate.hp_iter self !! Z.to_nat (len + n) = Some hp
           ∧ call = (Ok (Config hp), Iterate.load self (n + 1)))
  ∧ (n < - len → call = (Raise IndexError, Iterate.load self n)).
Proof.
  intros len call. subst call. unfold Iterate.get_suggestion, Iterate.load.
  cbn [Iterate.hp_iter Iterate.count]. fold len. split_and!.
  - intros Hn. by rewrite decide_True by lia.
  - intros Hn. rewrite decide_False by lia. unfold py_index. fold len.
    rewrite (decide_False (P := n < 0)) by lia. rewrite decide_True by lia.
    destruct (lookup_lt_is_Some_2 (Iterate.hp_iter self) (Z.to_nat n))
      as [hp Hhp]; [lia|].
    exists hp. by rewrite Hhp.
  - intros Hn. rewrite decide_False by lia. unfold py_index. fold len.
    rewrite (decide_True (P := n < 0)) by lia. rewrite decide_True by lia.
    destruct (lookup_lt_is_Some_2 (Iterate.hp_iter self) (Z.to_nat (n + len)))
      as [hp Hhp]; [lia|].
    exists hp. replace (len + n) with (n + len) by lia. by rewrite Hhp.
  - intros Hn. rewrite decide_False by lia. unfold py_index. fold len.
    rewrite (decide_True (P := n < 0)) by lia. by rewrite decide_False by lia.
Qed.

Example iterate_load_minus_one :
  run_calls (Iterate.step [])
    (Iterate.load
       {| Iterate.hp_iter := [{["a" := VInt 1]}; {["a" := VInt 2]}];
          Iterate.count := 0 |} (-1))
    (replicate 4 ([], true))
  = [Ok (Config {["a" := VInt 2]}); Ok (Config {["a" := VInt 1]});
     Ok (Config {["a" := VInt 2]}); Ok Stop].
Proof. vm_compute. reflexivity. Qed.

(** ** GridSearch: the enumeration and the points of the grid *)

Section GridSearchRun.
Import GridSearch.
Context `{Numpy}.
Variables (ps : list parameter) (k : Z) (M : nat) (d : gmap string (list value)).
Hypothesis M_pos : (1 ≤ M)%nat.
Hypothesis Hd : fill_param_dict k ps ∅ = Ok d.

Lemma grid_call_step c s call :
  grid_call_inv k M (ParameterGrid d) c s →
  (step ps s call).1 = grid_expected (ParameterGrid d) M c
  ∧ grid_call_inv k M (ParameterGrid d) (S c) (step ps s call).2.
Proof.
  set (gr := ParameterGrid d).
  intros (Hm & Hk & Hcase). unfold step, get_suggestion, grid_expected.
  assert (_get_param_dict s ps = Ok d) as Hbuild
    by (unfold _get_param_dict; by rewrite Hk).
  destruct Hcase as [(-> & Hi & Hj)|[(q & r & -> & Hq & Hr & Hi & Hj & Hth & Hg)
                                    |(Hc & Hi & Hj & Hg)]].
  - (* the first call builds the grid *)
    rewrite decide_True by done. rewrite Hbuild. cbn [rbind]. fold gr.
    destruct (decide (j s = m s)) as [Hjm|Hjm]; [lia|].
    rewrite Nat.Div0.div_0_l.
    destruct (decide (i s = Z.of_nat (length gr))) as [Hlen|Hlen].
    + assert (length gr = 0%nat) as Hnil by lia.
      rewrite lookup_ge_None_2 by lia. cbn [fst snd].
      split; [done|]. split_and!; [done|done|]. do 2 right.
      cbn [i j grid]. rewrite Hnil. split_and!; [lia|lia|done|done].
    + rewrite decide_True by done.
      destruct (lookup_lt_is_Some_2 gr 0) as [cfg Hcfg]; [lia|].
      unfold py_index. rewrite (decide_False (P := i s < 0)) by lia.
      rewrite decide_True by lia. rewrite Hi. change (Z.to_nat 0) with 0%nat.
      rewrite Hcfg. cbn [fst snd]. split; [done|]. split_and!; [done|done|].
      right; left. exists 0%nat, 0%nat. cbn [i j grid theta_i].
      split_and!; [lia|lia|lia|lia|lia|done|done].
  - rewrite decide_False by lia. rewrite Hg.
    destruct (decide (j s = m s)) as [Hjm|Hjm].
    + (* the repetitions of point [q] are done *)
      assert (S r = M) as HrM by lia.
      replace ((q * M + r + 1) `div` M)%nat with (S q)
        by (apply (Nat.div_unique _ _ _ 0%nat); lia).
      destruct (decide (i s + 1 = Z.of_nat (length gr))) as [Hlen|Hlen].
      * rewrite lookup_ge_None_2 by lia. cbn [fst snd]. split; [done|].
        split_and!; [done|done|]. do 2 right. cbn [i j grid].
        split_and!; [nia|lia|done|done].
      * rewrite decide_True by done.
        destruct (lookup_lt_is_Some_2 gr (S q)) as [cfg Hcfg]; [lia|].
        unfold py_index. rewrite (decide_False (P := i s + 1 < 0)) by lia.
        rewrite decide_True by lia.
        replace (Z.to_nat (i s + 1)) with (S q) by lia. rewrite Hcfg.
        cbn [fst snd]. split; [done|]. split_and!; [done|done|].
        right; left. exists (S q), 0%nat. cbn [i j grid theta_i].
        split_and!; [lia|lia|lia|lia|lia|done|done].
    + (* one more repetition of point [q] *)
      replace ((q * M + r + 1) `div` M)%nat with q
        by (apply (Nat.div_unique _ _ _ (S r)); lia).
      rewrite decide_False by lia. rewrite decide_False by lia.
      rewrite Hth. cbn [fst snd]. split; [done|]. split_and!; [done|done|].
      right; left. exists q, (S r). cbn [i j grid theta_i].
      split_and!; [lia|lia|lia|lia|lia|done|done].
  - (* past the end: Stop, also when the empty grid is rebuilt *)
    assert ((if decide (i s = 0 ∧ j s = 0)
             then param_dict ←r _get_param_dict s ps;
                  Ok (Some (ParameterGrid param_dict))
             else Ok (grid s)) = Ok (Some gr)) as ->.
    { case_decide; [by rewrite Hbuild|by rewrite Hg]. }
    destruct (decide (j s = m s)) as [Hjm|Hjm]; [lia|].
    rewrite decide_True by done.
    rewrite lookup_ge_None_2
      by (apply Nat.div_le_lower_bound; lia).
    cbn [fst snd]. split; [done|]. split_and!; [done|done|]. do 2 right.
    cbn [i j grid]. split_and!; [lia|done|done|done].
Qed.

Lemma grid_call_run calls : ∀ c s,
  grid_call_inv k M (ParameterGrid d) c s →
  run_calls (step ps) s calls
  = grid_expected (ParameterGrid d) M <$> seq c (length calls).
Proof.
  induction calls as [|call calls IH]; intros c s Hinv; [done|].
  cbn [run_calls length seq fmap list_fmap].
  destruct (grid_call_step c s call Hinv) as [Hout Hinv'].
  destruct (step ps s call) as [out s']. simpl in Hout, Hinv'.
  rewrite Hout. f_equal. by apply IH.
Qed.
End GridSearchRun.

(** X12.  A fresh [GridSearch] with [repeat = M >= 1] walks through its grid:
    call number [c] returns grid point number [c div M], so every point
    is returned [M] times in a row, in grid order, and every call from
    number [len(grid) * M] on returns Stop. *)
Theorem grid_search_enumerates `{Numpy} (k : Z) (M : nat)
    (ps : list parameter) (d : gmap string (list value))
    (calls : list (list row * bool)) :
  (1 ≤ M)%nat →
  GridSearch._get_param_dict (GridSearch.init k (Z.of_nat M)) ps = Ok d →
  run_calls (GridSearch.step ps) (GridSearch.init k (Z.of_nat M)) calls
  = grid_expected (ParameterGrid d) M <$> seq 0 (length calls).
Proof.
  intros HM Hd. apply (grid_call_run ps k M d); [done|done|].
  split_and!; [done|done|]. by left.
Qed.

Lemma grid_search_enumerates_witness :
  run_calls
    (GridSearch.step
       [{| name := "act"; pkind := Choice;
           range := [VStr "tanh"; VStr "relu"]; scale := "linear" |}])
    (GridSearch.init 2 (Z.of_nat 2)) (replicate 5 ([], true))
  = [Ok (Config {["act" := VStr "tanh"]}); Ok (Config {["act" := VStr "tanh"]});
     Ok (Config {["act" := VStr "relu"]}); Ok (Config {["act" := VStr "relu"]});
     Ok Stop].
Proof.
  etrans.
  - apply (@grid_search_enumerates stand_in_numpy 2 2 _
             {["act" := [VStr "tanh"; VStr "relu"]]}
             (replicate 5 ([], true))); [lia|].
    vm_compute. reflexivity.
  - vm_compute. reflexivity.
Defined.

Section GridPoints.
Import GridSearch.
Context `{Numpy}.

Lemma product_elem_of items : ∀ c : config,
  NoDup items.*1 →
  c ∈ product items
  ↔ dom c = list_to_set items.*1
    ∧ ∀ key vs, (key, vs) ∈ items → ∃ v, v ∈ vs ∧ c !! key = Some v.
Proof.
  induction items as [|[key0 vs0] items IH]; intros c Hnd.
  - cbn [product fmap list_fmap list_to_set]. rewrite list_elem_of_singleton.
    split.
    + intros ->. split; [apply dom_empty_L|]. intros ?? Hin. inversion Hin.
    + intros [Hdom _]. by apply dom_empty_iff_L.
  - rewrite fmap_cons in Hnd. cbn [fst] in Hnd.
    apply NoDup_cons in Hnd as [Hfresh Hnd].
    cbn [product]. rewrite list_elem_of_bind. split.
    + intros (v & Hc & Hv). apply list_elem_of_fmap in Hc as (c' & -> & Hc').
      apply IH in Hc' as [Hdom Hvals]; [|done]. split.
      * rewrite dom_insert_L, Hdom. done.
      * intros key vs [[= -> ->]|Hin]%elem_of_cons.
        -- exists v. by rewrite lookup_insert_eq.
        -- destruct (Hvals key vs Hin) as (v' & Hv' & Hl). exists v'.
           split; [done|]. rewrite lookup_insert_ne; [done|].
           intros <-. apply Hfresh. apply list_elem_of_fmap.
           by exists (key0, vs).
    + intros [Hdom Hvals].
      destruct (Hvals key0 vs0) as (v & Hv & Hl); [by left|].
      exists v. split; [|done]. apply list_elem_of_fmap.
      exists (delete key0 c). split.
      * by rewrite insert_delete_eq, insert_id.
      * apply IH; [done|]. split.
        -- rewrite dom_delete_L, Hdom. rewrite fmap_cons. cbn [fst list_to_set].
           assert (key0 ∉ (list_to_set items.*1 : gset string))
             by by rewrite elem_of_list_to_set.
           set_solver.
        -- intros key vs Hin. destruct (Hvals key vs) as (v' & Hv' & Hl');
             [by right|].
           exists v'. split; [done|]. rewrite lookup_delete_ne; [done|].
           intros <-. apply Hfresh. apply list_elem_of_fmap.
           by exists (key0, vs).
Qed.

Lemma ParameterGrid_elem_of (d : gmap string (list value)) (c : config) :
  c ∈ ParameterGrid d
  ↔ dom c = dom d
    ∧ ∀ key vs, d !! key = Some vs → ∃ v, v ∈ vs ∧ c !! key = Some v.
Proof.
  unfold ParameterGrid.
  set (items := merge_sort _ (map_to_list d)).
  assert (items ≡ₚ map_to_list d) as Hperm by apply merge_sort_Permutation.
  rewrite product_elem_of.
  2: { rewrite Hperm. apply NoDup_fst_map_to_list. }
  assert ((list_to_set items.*1 : gset string) = dom d) as ->.
  { apply set_eq. intros key.
    rewrite elem_of_list_to_set, elem_of_dom, Hperm, list_elem_of_fmap.
    split.
    - intros ([key' vs] & -> & Hin). apply elem_of_map_to_list in Hin. eauto.
    - intros [vs Hvs]. exists (key, vs). split; [done|].
      by apply elem_of_map_to_list. }
  split; intros [Hdom Hvals]; (split; [done|]); intros key vs Hin;
    apply Hvals.
  - rewrite Hperm. by apply elem_of_map_to_list.
  - rewrite Hperm in Hin. by apply elem_of_map_to_list in Hin.
Qed.

Lemma fill_param_dict_lookup k ps : ∀ acc d,
  NoDup (name <$> ps) →
  fill_param_dict k ps acc = Ok d →
  (∀ p, p ∈ ps → ∃ vs, values_of k p = Ok vs ∧ d !! name p = Some vs)
  ∧ (∀ key, key ∉ name <$> ps → d !! key = acc !! key).
Proof.
  induction ps as [|p ps IH]; intros acc d Hnd; cbn [fill_param_dict].
  - intros [= <-]. split; [intros ? Hin; inversion Hin|done].
  - rewrite fmap_cons in Hnd. apply NoDup_cons in Hnd as [Hfresh Hnd].
    destruct (values_of k p) as [vs|e] eqn:Hp; cbn [rbind]; [|done].
    intros Hfill. destruct (IH _ _ Hnd Hfill) as [Hin Hout]. split.
    + intros p' [->|Hp']%elem_of_cons; [|auto].
      exists vs. split; [done|]. rewrite (Hout _ Hfresh).
      apply lookup_insert_eq.
    + intros key Hkey. rewrite fmap_cons, not_elem_of_cons in Hkey.
      destruct Hkey as [Hne Hkey]. rewrite (Hout _ Hkey).
      by rewrite lookup_insert_ne.
Qed.

Lemma fill_param_dict_Ok k ps : ∀ acc,
  (∀ p, p ∈ ps → ∃ vs, values_of k p = Ok vs) →
  ∃ d, fill_param_dict k ps acc = Ok d.
Proof.
  induction ps as [|p ps IH]; intros acc Hall; cbn [fill_param_dict].
  - by eexists.
  - destruct (Hall p) as [vs ->]; [by left|]. cbn [rbind]. apply IH.
    intros p' Hp'. apply Hall. by right.
Qed.

(** The grid of a parameter list with distinct names whose candidate
    lists can all be computed. *)
Lemma grid_points k ps :
  NoDup (name <$> ps) →
  (∀ p, p ∈ ps → ∃ vs, values_of k p = Ok vs) →
  ∃ d, fill_param_dict k ps ∅ = Ok d
       ∧ ∀ c : config,
           c ∈ ParameterGrid d
           ↔ dom c = list_to_set (name <$> ps)
             ∧ ∀ p, p ∈ ps →
                 ∃ vs v, values_of k p = Ok vs ∧ v ∈ vs
                         ∧ c !! name p = Some v.
Proof.
  intros Hnd Hall. destruct (fill_param_dict_Ok k ps ∅ Hall) as [d Hd].
  exists d. split; [done|].
  destruct (fill_param_dict_lookup k ps ∅ d Hnd Hd) as [Hin Hout].
  assert (dom d = list_to_set (name <$> ps)) as Hdom.
  { apply set_eq. intros key. rewrite elem_of_dom, elem_of_list_to_set.
    split.
    - intros [vs Hvs]. destruct (decide (key ∈ name <$> ps)); [done|].
      rewrite Hout, lookup_empty in Hvs by done. done.
    - intros (p & -> & Hp)%list_elem_of_fmap.
      destruct (Hin p Hp) as (vs & _ & ->). eauto. }
  intros c. rewrite ParameterGrid_elem_of, Hdom. split.
  - intros [Hc Hvals]. split; [done|]. intros p Hp.
    destruct (Hin p Hp) as (vs & Hvs & Hl).
    destruct (Hvals _ _ Hl) as (v & Hv & Hcv). eauto.
  - intros [Hc Hvals]. split; [done|]. intros key vs Hl.
    assert (key ∈ name <$> ps) as (p & -> & Hp)%list_elem_of_fmap.
    { apply (elem_of_list_to_set (C := gset string)).
      rewrite <- Hdom. apply elem_of_dom. eauto. }
    destruct (Hin p Hp) as (vs' & Hvs' & Hl').
    destruct (Hvals p Hp) as (vs'' & v & Hvs'' & Hv & Hcv).
    exists v. split; [|done]. congruence.
Qed.
End GridPoints.

(** X13.  "Every pairing is evaluated": for parameters with distinct names
    whose candidate lists can be computed, the grid built on the first
    call consists of exactly the assignments that give every parameter
    one of its candidate values, and nothing else. *)
Theorem grid_search_grid_points `{Numpy} (k m : Z) (ps : list parameter)
    (rs : list row) (lower_is_better : bool) :
  NoDup (name <$> ps) →
  (∀ p, p ∈ ps → ∃ vs, GridSearch.values_of k p = Ok vs) →
  ∃ gr,
    GridSearch.grid
      (GridSearch.get_suggestion (GridSearch.init k m) ps rs
         lower_is_better).2 = Some gr
    ∧ ∀ c : config,
        c ∈ gr
        ↔ dom c = list_to_set (name <$> ps)
          ∧ ∀ p, p ∈ ps →
              ∃ vs v, GridSearch.values_of k p = Ok vs ∧ v ∈ vs
                      ∧ c !! name p = Some v.
Proof.
  intros Hnd Hall. destruct (grid_points k ps Hnd Hall) as (d & Hd & Hgrid).
  exists (ParameterGrid d). split; [|done].
  by apply grid_built_on_first_call.
Qed.

Lemma grid_search_grid_points_witness :
  let ps := [{| name := "act"; pkind := Choice;
                range := [VStr "tanh"; VStr "relu"]; scale := "linear" |};
             {| name := "x"; pkind := Continuous;
                range := [VInt 0; VInt 3]; scale := "linear" |}] in
  ∃ gr,
    GridSearch.grid
      (GridSearch.get_suggestion (GridSearch.init 2 1) ps [] true).2 = Some gr
    ∧ ∀ c : config,
        c ∈ gr
        ↔ dom c = list_to_set (name <$> ps)
          ∧ ∀ p, p ∈ ps →
              ∃ vs v, GridSearch.values_of 2 p = Ok vs ∧ v ∈ vs
                      ∧ c !! name p = Some v.
Proof.
  intros ps.
  apply (@grid_search_grid_points stand_in_numpy 2 1 ps [] true).
  - vm_compute. repeat constructor; set_solver.
  - intros p Hp. subst ps. rewrite !elem_of_cons, elem_of_nil in Hp.
    destruct Hp as [->|[->|[]]]; vm_compute; eauto.
Defined.

(** With [num_grid_points <= 0] a continuous or discrete parameter has
    no candidate value, so the grid is empty and the first call returns
    Stop, whatever the other parameters are ([repeat] not 0, names
    distinct). *)
Lemma grid_search_no_grid_points `{Numpy} (k m : Z) (ps : list parameter)
    (rs : list row) (lower_is_better : bool) (p : parameter) :
  k ≤ 0 → m ≠ 0 →
  NoDup (name <$> ps) →
  p ∈ ps → pkind p = Continuous ∨ pkind p = Discrete →
  (GridSearch.get_suggestion (GridSearch.init k m) ps rs lower_is_better).1
  = Ok Stop.
Proof.
  intros Hk Hm Hnd Hp Hkind.
  assert (∀ p', pkind p' = Continuous ∨ pkind p' = Discrete →
                GridSearch.values_of k p' = Ok []) as Hnone.
  { intros p' Hk'. unfold GridSearch.values_of, py_range.
    replace (Z.to_nat k) with 0%nat by lia. by destruct Hk' as [-> | ->]. }
  destruct (grid_points k ps Hnd) as (d & Hd & Hgrid).
  { intros p' _. destruct (pkind p') eqn:E; try (by eexists; apply Hnone; auto);
      unfold GridSearch.values_of; rewrite E; eauto. }
  assert (ParameterGrid d = []) as Hnil.
  { destruct (ParameterGrid d) as [|c gr] eqn:E; [done|].
    destruct (proj1 (Hgrid c)) as [_ Hvals]; [by left|].
    destruct (Hvals p Hp) as (vs & v & Hvs & Hv & _).
    rewrite (Hnone p Hkind) in Hvs. injection Hvs as <-. inversion Hv. }
  unfold GridSearch.get_suggestion. rewrite decide_True by done.
  unfold GridSearch._get_param_dict. cbn [GridSearch.num_grid_points GridSearch.init].
  rewrite Hd. cbn [rbind]. rewrite Hnil.
  cbn [GridSearch.j GridSearch.m GridSearch.i].
  rewrite (decide_False (P := 0 = m)) by lia. by rewrite decide_True.
Qed.


(** ** GridSearch: where the candidates of a numeric parameter lie *)

Section GridCandidates.
Import GridSearch.
Context `{Numpy}.
Local Open Scope Qc_scope.

Lemma linear_position_mono (lo hi : Qc) (K a b : Z) :
  lo < hi → (0 < K)%Z → (a < b)%Z →
  lo + (hi - lo) * Qc_of_Z a / Qc_of_Z K
  < lo + (hi - lo) * Qc_of_Z b / Qc_of_Z K.
Proof.
  intros Hlh HK Hab. apply Qcplus_lt_mono_l. unfold Qcdiv.
  apply Qcmult_lt_mono_pos_r.
  { apply Qcinv_pos. rewrite <- Z2Qc_inj_0. by apply (proj1 (Z2Qc_inj_lt _ _)). }
  apply Qcmult_lt_mono_pos_l; [|by apply (proj1 (Z2Qc_inj_lt _ _))].
  by apply Qclt_minus_iff in Hlh.
Qed.

Lemma linear_position_0 (lo hi : Qc) (K : Z) :
  lo + (hi - lo) * Qc_of_Z 0 / Qc_of_Z K = lo.
Proof. rewrite Z2Qc_inj_0. unfold Qcdiv. ring. Qed.

Lemma linear_position_end (lo hi : Qc) (K : Z) :
  (0 < K)%Z → lo + (hi - lo) * Qc_of_Z K / Qc_of_Z K = hi.
Proof.
  intros HK. rewrite Qcdiv_mult_l; [ring|].
  rewrite <- Z2Qc_inj_0. intros Heq%Z2Qc_inj. lia.
Qed.

Lemma linear_position_inside (p : parameter) (lo hi : Qc) (k idx : Z) :
  String.eqb (scale p) "log" = false →
  lo < hi → (1 ≤ idx ≤ k)%Z →
  lo < position p lo hi k idx < hi.
Proof.
  intros Hlin Hlh Hidx. unfold position. rewrite Hlin. split.
  - rewrite <- (linear_position_0 lo hi (k + 1)) at 1.
    apply linear_position_mono; [done|lia|lia].
  - rewrite <- (linear_position_end lo hi (k + 1)) at 2 by lia.
    apply linear_position_mono; [done|lia|lia].
Qed.
End GridCandidates.

(** X14.  "Grid points are picked within the range": on the linear scale the
    candidates of a continuous parameter with bounds [lo < hi] are
    [num_grid_points] numbers strictly between the bounds, in strictly
    increasing order; neither bound is a grid point. *)
Theorem grid_search_continuous_candidates_inside `{Numpy} (k : Z)
    (p : parameter) (lo hi : Qc) :
  pkind p = Continuous → scale p ≠ "log" →
  range p = [VNum lo; VNum hi] → (lo < hi)%Qc →
  ∃ xs : list Qc,
    GridSearch.values_of k p = Ok (VNum <$> xs)
    ∧ length xs = Z.to_nat k
    ∧ (∀ x, x ∈ xs → (lo < x < hi)%Qc)
    ∧ (∀ (a b : nat) x y, (a < b)%nat → xs !! a = Some x → xs !! b = Some y →
         (x < y)%Qc).
Proof.
  intros Hkind Hscale Hrange Hlh.
  assert (String.eqb (scale p) "log" = false) as Hlin
    by by apply String.eqb_neq.
  set (k' := Z.of_nat (Z.to_nat k)).
  exists (GridSearch.position p lo hi k <$> seqZ 1 k'). split_and!.
  - rewrite (values_of_numeric k p lo hi) by auto.
    rewrite <- list_fmap_compose. f_equal. apply list_fmap_ext.
    intros _ idx _. unfold GridSearch.candidate. cbn.
    by rewrite decide_False by (by rewrite Hkind).
  - rewrite length_fmap, length_seqZ. subst k'. lia.
  - intros x (idx & -> & Hidx)%list_elem_of_fmap.
    apply elem_of_seqZ in Hidx.
    apply linear_position_inside; [done|done|subst k'; lia].
  - intros a b x y Hab Ha Hb.
    rewrite list_lookup_fmap in Ha, Hb.
    destruct (seqZ 1 k' !! a) as [ia|] eqn:Ea; [|done].
    destruct (seqZ 1 k' !! b) as [ib|] eqn:Eb; [|done].
    apply lookup_seqZ in Ea as [-> ?], Eb as [-> ?].
    injection Ha as <-. injection Hb as <-.
    unfold GridSearch.position. rewrite Hlin.
    apply linear_position_mono; [done|subst k'; lia|lia].
Qed.

Lemma grid_search_continuous_candidates_inside_witness :
  ∃ xs : list Qc,
    GridSearch.values_of 3
      {| name := "x"; pkind := Continuous; range := [VInt 0; VInt 1];
         scale := "linear" |} = Ok (VNum <$> xs)
    ∧ length xs = Z.to_nat 3
    ∧ (∀ x, x ∈ xs → (Qc_of_Z 0 < x < Qc_of_Z 1)%Qc)
    ∧ (∀ (a b : nat) x y, (a < b)%nat → xs !! a = Some x → xs !! b = Some y →
         (x < y)%Qc).
Proof.
  apply (@grid_search_continuous_candidates_inside stand_in_numpy 3
           {| name := "x"; pkind := Continuous; range := [VInt 0; VInt 1];
              scale := "linear" |} (Qc_of_Z 0) (Qc_of_Z 1)); try done.
Defined.

(** ** LocalSearch: the queue, [_perturb], and one parameter at a time *)

Section LocalSearchMore.
Import LocalSearch.
Context `{Random}.

(** A call that finds copies of [x] queued pops one of them and
    touches nothing else. *)
Lemma queued_step ps (s : t) rs lib g (n : nat) (x : suggestion) :
  next_trial s = replicate (S n) x →
  get_suggestion s ps rs lib g
  = (Ok x, with_next_trial s (replicate n x), g).
Proof.
  intros Hq. unfold get_suggestion.
  destruct (next_trial s) as [|y q] eqn:E; [done|].
  cbn [next_trial]. rewrite E, Hq, py_pop_replicate. done.
Qed.

Lemma queued_run ps calls : ∀ (s : t) g (n : nat) (x : suggestion),
  next_trial s = replicate n x →
  (length calls ≤ n)%nat →
  run_calls (step ps) (s, g) calls = replicate (length calls) (Ok x)
  ∧ run_state (step ps) (s, g) calls
    = (with_next_trial s (replicate (n - length calls) x), g).
Proof.
  induction calls as [|[rs lib] calls IH]; intros s g n x Hq Hlen.
  - cbn. rewrite Nat.sub_0_r, <- Hq. by destruct s.
  - destruct n as [|n]; [simpl in Hlen; lia|].
    assert (step ps (s, g) (rs, lib)
            = (Ok x, (with_next_trial s (replicate n x), g))) as Hstep
      by (unfold step; cbn [fst snd];
          by rewrite (queued_step ps s rs lib g n x Hq)).
    cbn [run_calls run_state length replicate]. rewrite Hstep. cbn [fst snd].
    destruct (IH (with_next_trial s (replicate n x)) g n x) as [IH1 IH2];
      [done|simpl in Hlen; lia|].
    rewrite IH1, IH2. done.
Qed.

(** What a call on an empty queue leaves behind when it returns. *)
Lemma refill_step ps (s : t) rs lib g x s1 g1 :
  next_trial s = [] →
  get_suggestion s ps rs lib g = (Ok x, s1, g1) →
  ∃ n : nat, Z.to_nat (repeat_trials s) = S n
             ∧ next_trial s1 = replicate n x.
Proof.
  intros Hq. unfold get_suggestion. rewrite Hq.
  destruct (_get_next_trials s ps rs lib g) as [[r s'] g'] eqn:E.
  apply next_trials_spec in E
    as (Hk1 & _ & Hq1 & Hc1 & [(Hc0 & -> & Hs1 & _)|[(_ & [e ->] & Hs1)|
         [(_ & _ & c & -> & Hnew & Hs1)|(_ & _ & -> & Hs1 & _)]]]);
    unfold copies; cbn [next_trial with_next_trial]; try done;
    (destruct (Z.to_nat (repeat_trials s)) as [|n]; [done|]);
    rewrite py_pop_replicate; intros [= <- <- <-]; by exists n.
Qed.

Lemma nonpositive_repeat_step ps (s : t) rs lib g out s' g' :
  next_trial s = [] → repeat_trials s ≤ 0 →
  get_suggestion s ps rs lib g = (out, s', g') →
  (∃ e, out = Raise e) ∧ next_trial s' = [] ∧ repeat_trials s' ≤ 0.
Proof.
  intros Hq Hr. unfold get_suggestion. rewrite Hq.
  destruct (_get_next_trials s ps rs lib g) as [[r s1] g1] eqn:E.
  apply next_trials_spec in E
    as (Hk1 & _ & Hq1 & Hc1 & [(Hc0 & -> & Hs1 & _)|[(_ & [e ->] & Hs1)|
         [(_ & _ & c & -> & Hnew & Hs1)|(_ & _ & -> & Hs1 & _)]]]);
    unfold copies; cbn [next_trial with_next_trial];
    replace (Z.to_nat (repeat_trials s)) with 0%nat by lia;
    cbn [replicate py_pop reverse rev_append];
    intros [= <- <- <-]; cbn [repeat_trials next_trial with_next_trial];
    (split_and!; [by eexists|congruence|lia]).
Qed.

Lemma nonpositive_repeat_run ps calls : ∀ (s : t) g out,
  next_trial s = [] → repeat_trials s ≤ 0 →
  out ∈ run_calls (step ps) (s, g) calls → ∃ e, out = Raise e.
Proof.
  induction calls as [|[rs lib] calls IH]; intros s g out Hq Hr.
  - intros Hin. inversion Hin.
  - cbn [run_calls]. unfold step at 1. cbn [fst snd].
    destruct (get_suggestion s ps rs lib g) as [[o s'] g'] eqn:E.
    destruct (nonpositive_repeat_step _ _ _ _ _ _ _ _ Hq Hr E)
      as (Ho & Hq' & Hr').
    intros [->|Hin]%elem_of_cons; [done|]. by eapply IH.
Qed.

Lemma list_index_Some (x : value) l : ∀ k,
  list_index x l = Some k → l !! k = Some x ∧ (k < length l)%nat.
Proof.
  induction l as [|y l IH]; intros k; simpl; [done|].
  case_decide as Hy.
  - intros [= <-]. subst. split; [done|lia].
  - destruct (list_index x l) as [k'|]; simpl; [|done].
    intros [= <-]. destruct (IH k' eq_refl). split; [done|lia].
Qed.

Lemma foldl_Qc_min_le qs : ∀ q, (foldl Qc_min q qs ≤ q)%Qc.
Proof.
  induction qs as [|y qs IH]; intros q; simpl; [apply Qcle_refl|].
  eapply Qcle_trans; [apply IH|]. unfold Qc_min.
  case_decide; [by apply Qclt_le_weak|apply Qcle_refl].
Qed.

Lemma foldl_Qc_max_ge qs : ∀ q, (q ≤ foldl Qc_max q qs)%Qc.
Proof.
  induction qs as [|y qs IH]; intros q; simpl; [apply Qcle_refl|].
  eapply Qcle_trans; [|apply IH]. unfold Qc_max.
  case_decide; [by apply Qclt_le_weak|apply Qcle_refl].
Qed.

Lemma range_min_le_max l lo hi :
  range_min l = Ok lo → range_max l = Ok hi → (lo ≤ hi)%Qc.
Proof.
  unfold range_min, range_max.
  destruct (result_mapM as_num l) as [[|q qs]|e]; cbn [rbind]; try done.
  intros [= <-] [= <-].
  eapply Qcle_trans; [apply foldl_Qc_min_le|apply foldl_Qc_max_ge].
Qed.

Lemma clipQ_between (x lo hi : Qc) :
  (lo ≤ hi)%Qc → (lo ≤ clipQ x lo hi ≤ hi)%Qc.
Proof.
  intros Hlh. unfold clipQ, Qc_min, Qc_max.
  repeat case_decide; split;
    try apply Qcle_refl; try done; try (by apply Qclt_le_weak);
    try (by apply Qcnot_lt_le).
Qed.

Lemma perturb_shape (s : t) seed p incr c :
  _perturb s seed p incr = Ok c → ∃ v, c = <[name p := v]> seed.
Proof.
  unfold _perturb. case_decide.
  - destruct (dict_get seed (name p)) as [cur|]; cbn [rbind]; [|done].
    destruct (list_index cur (range p)); cbn [rbind]; [|done].
    destruct (py_index _ _) as [v|]; cbn [rbind]; [|done].
    intros [= <-]. eauto.
  - destruct (py_index _ _) as [f|]; cbn [rbind]; [|done].
    destruct (dict_get seed (name p)) as [cur|]; cbn [rbind]; [|done].
    destruct (as_num cur) as [x|]; cbn [rbind]; [|done].
    destruct (range_min _) as [lo|]; cbn [rbind]; [|done].
    destruct (range_max _) as [hi|]; cbn [rbind]; [|done].
    intros [= <-]. eauto.
Qed.

Lemma unshuffled_shape (s : t) seed p c :
  Ok c ∈ unshuffled s seed p → ∃ v, c = <[name p := v]> seed.
Proof.
  unfold unshuffled. case_decide.
  - intros (v & [= ->] & _)%list_elem_of_fmap. eauto.
  - intros (incr & Hc & _)%list_elem_of_fmap. symmetry in Hc.
    by eapply perturb_shape.
Qed.

Lemma first_new_origin tried cands c :
  first_new tried cands = Ok (Some c) → Ok c ∈ cands.
Proof.
  induction cands as [|[c'|e] cands IH]; simpl; [done| |done].
  case_decide.
  - intros Hc. right. auto.
  - intros [= <-]. by left.
Qed.

Lemma scan_origin (s : t) seed params c : ∀ g,
  (scan s seed params g).1 = Ok (Some c) →
  ∃ p, p ∈ params ∧ Ok c ∈ unshuffled s seed p.
Proof.
  induction params as [|p params IH]; intros g; simpl; [done|].
  pose proof (perturbations_perm s seed p g) as Hperm.
  destruct (perturbations s seed p g) as [cands g']. simpl in Hperm.
  destruct (first_new (submitted s) cands) as [[c'|]|e] eqn:E; simpl.
  - intros [= <-]. exists p. split; [by left|].
    rewrite <- Hperm. by eapply first_new_origin.
  - intros Hc. destruct (IH _ Hc) as (q & Hq & Hin). exists q.
    split; [by right|done].
  - done.
Qed.

Lemma submitted_step ps (s : t) rs lib g out s' g' :
  0 ≤ count s → (count s = 0 → submitted s = []) → NoDup (submitted s) →
  get_suggestion s ps rs lib g = (out, s', g') →
  0 ≤ count s' ∧ (count s' = 0 → submitted s' = []) ∧ NoDup (submitted s').
Proof.
  intros Hc Hfresh Hnd. unfold get_suggestion.
  destruct (next_trial s) as [|x q] eqn:Hq.
  - destruct (_get_next_trials s ps rs lib g) as [[r s1] g1] eqn:E.
    apply next_trials_spec in E
      as (Hk1 & _ & Hq1 & Hc1 & [(Hc0 & -> & Hs1 & _)|[(_ & [e ->] & Hs1)|
           [(_ & _ & c & -> & Hnew & Hs1)|(_ & _ & -> & Hs1 & _)]]]);
      cbn [next_trial with_next_trial];
      try (destruct (py_pop _) as [[y rest]|]);
      intros [= <- <- <-]; cbn [count submitted with_next_trial];
      rewrite ?Hs1; (split_and!; [lia|lia|]); try done.
    + rewrite (Hfresh Hc0). apply NoDup_singleton.
    + rewrite (Hfresh Hc0). apply NoDup_singleton.
    + apply NoDup_app. split_and!; [done| |apply NoDup_singleton].
      intros z Hz ->%list_elem_of_singleton. done.
    + apply NoDup_app. split_and!; [done| |apply NoDup_singleton].
      intros z Hz ->%list_elem_of_singleton. done.
  - destruct (py_pop _) as [[y rest]|];
      intros [= <- <- <-]; cbn [count submitted with_next_trial]; done.
Qed.
End LocalSearchMore.

(** X16.  "Identical configurations are repeated": when a call on an empty
    queue returns [x], so do the following [repeat_trials - 1] calls,
    whatever results they are handed; these calls only shorten the
    queue and draw nothing from the generator. *)
Theorem local_search_repeats_each_trial `{Random} (ps : list parameter)
    (self : LocalSearch.t) (rs : list row) (lower_is_better : bool)
    (g : rng) (x : suggestion) (s1 : LocalSearch.t) (g1 : rng)
    (calls : list (list row * bool)) :
  LocalSearch.next_trial self = [] →
  LocalSearch.get_suggestion self ps rs lower_is_better g = (Ok x, s1, g1) →
  (length calls < Z.to_nat (LocalSearch.repeat_trials self))%nat →
  run_calls (LocalSearch.step ps) (s1, g1) calls
  = replicate (length calls) (Ok x)
  ∧ run_state (LocalSearch.step ps) (s1, g1) calls
    = (LocalSearch.with_next_trial s1
         (replicate (Z.to_nat (LocalSearch.repeat_trials self) - 1
                     - length calls) x), g1).
Proof.
  intros Hq Hcall Hlen.
  destruct (refill_step ps self rs lower_is_better g x s1 g1 Hq Hcall)
    as (n & Hn & Hq1).
  rewrite Hn. replace (S n - 1)%nat with n by lia.
  apply queued_run; [done|lia].
Qed.

Lemma local_search_repeats_each_trial_witness :
  run_calls (LocalSearch.step [])
    ((LocalSearch.get_suggestion (LocalSearch.init {["a" := VInt 1]} [] 3)
        [] [] true 0%nat).1.2, 0%nat)
    (replicate 2 ([], true))
  = replicate 2 (Ok (Config {["a" := VInt 1]})).
Proof.
  apply (@local_search_repeats_each_trial det_random []
           (LocalSearch.init {["a" := VInt 1]} [] 3) [] true 0%nat
           (Config {["a" := VInt 1]}) _ 0%nat (replicate 2 ([], true))).
  - done.
  - vm_compute. reflexivity.
  - vm_compute. lia.
Defined.

(** X17.  With [repeat_trials <= 0] every batch is the empty list, so no
    call ever returns: each one raises ([IndexError] from [pop] on the
    empty queue, unless the search for the next trial raised first). *)
Theorem local_search_nonpositive_repeat `{Random} (ps : list parameter)
    (seed : config) (factors : list Qc) (repeat_trials : Z)
    (calls : list (list row * bool)) (g : rng) :
  repeat_trials ≤ 0 →
  (∀ out,
     out ∈ run_calls (LocalSearch.step ps)
             (LocalSearch.init seed factors repeat_trials, g) calls →
     ∃ e, out = Raise e)
  ∧ (∀ rs lower_is_better,
       (LocalSearch.get_suggestion
          (LocalSearch.init seed factors repeat_trials) ps rs
          lower_is_better g).1.1 = Raise IndexError).
Proof.
  intros Hr. split.
  - intros out. by apply nonpositive_repeat_run.
  - intros rs lib. unfold LocalSearch.get_suggestion, LocalSearch._get_next_trials.
    cbn [LocalSearch.next_trial LocalSearch.init LocalSearch.count
         LocalSearch.with_count].
    rewrite decide_True by done. unfold LocalSearch.copies.
    cbn [LocalSearch.repeat_trials LocalSearch.with_count LocalSearch.init
         LocalSearch.with_submitted LocalSearch.with_next_trial
         LocalSearch.next_trial].
    replace (Z.to_nat repeat_trials) with 0%nat by lia. reflexivity.
Qed.

Lemma local_search_nonpositive_repeat_witness :
  (LocalSearch.get_suggestion (LocalSearch.init {["a" := VInt 1]} [] 0)
     [] [] true 0%nat).1.1 = Raise IndexError.
Proof.
  apply (@local_search_nonpositive_repeat det_random [] {["a" := VInt 1]}
           [] 0 [] 0%nat).
  lia.
Defined.

(** X18.  [_perturb] on an ordinal parameter whose current value is in its
    range never fails: it moves to the neighbour of the first
    occurrence of the value, one position up or down, and stays where
    it is at either end of the range. *)
Theorem local_search_perturb_ordinal (self : LocalSearch.t)
    (candidate : config) (p : parameter) (increase : bool) (cur : value)
    (pos : nat) :
  pkind p = Ordinal →
  candidate !! name p = Some cur →
  list_index cur (range p) = Some pos →
  ∃ v,
    range p !! (if increase then Nat.min (S pos) (length (range p) - 1)
                else Nat.pred pos) = Some v
    ∧ LocalSearch._perturb self candidate p increase
      = Ok (<[name p := v]> candidate).
Proof.
  intros Hkind Hcur Hpos. destruct (list_index_Some _ _ _ Hpos) as [_ Hlt].
  unfold LocalSearch._perturb. rewrite decide_True by done.
  unfold dict_get. rewrite Hcur. cbn [rbind]. rewrite Hpos. cbn [rbind].
  set (target := if increase then Nat.min (S pos) (length (range p) - 1)
                 else Nat.pred pos).
  assert (clipZ (Z.of_nat pos + (if increase then 1 else -1)) 0
                (Z.of_nat (length (range p)) - 1) = Z.of_nat target) as ->.
  { unfold clipZ. subst target. destruct increase; lia. }
  destruct (lookup_lt_is_Some_2 (range p) target) as [v Hv].
  { subst target. destruct increase; lia. }
  exists v. split; [done|]. unfold py_index.
  rewrite (decide_False (P := Z.of_nat target < 0)) by lia.
  rewrite decide_True by (subst target; destruct increase; lia).
  rewrite Nat2Z.id, Hv. done.
Qed.

Lemma local_search_perturb_ordinal_witness :
  ∃ v,
    [VStr "s"; VStr "m"; VStr "l"]
      !! Nat.min (S 2) (length [VStr "s"; VStr "m"; VStr "l"] - 1) = Some v
    ∧ LocalSearch._perturb (LocalSearch.init ∅ [] 1) {["size" := VStr "l"]}
        {| name := "size"; pkind := Ordinal;
           range := [VStr "s"; VStr "m"; VStr "l"]; scale := "linear" |} true
      = Ok (<["size" := v]> {["size" := VStr "l"]}).
Proof.
  apply (local_search_perturb_ordinal (LocalSearch.init ∅ [] 1)
           {["size" := VStr "l"]}
           {| name := "size"; pkind := Ordinal;
              range := [VStr "s"; VStr "m"; VStr "l"]; scale := "linear" |}
           true (VStr "l") 2); done.
Defined.

(** X19.  [_perturb] on a parameter that is not ordinal (the search
    calls it for continuous and discrete ones), when it returns, has
    changed that parameter only, to a number between the smallest and
    the largest entry of its range. *)
Theorem local_search_perturb_numeric_in_range (self : LocalSearch.t)
    (candidate : config) (p : parameter) (increase : bool)
    (perturbed : config) :
  pkind p ≠ Ordinal →
  LocalSearch._perturb self candidate p increase = Ok perturbed →
  ∃ x lo hi : Qc,
    perturbed = <[name p := VNum x]> candidate
    ∧ range_min (range p) = Ok lo ∧ range_max (range p) = Ok hi
    ∧ (lo ≤ x ≤ hi)%Qc.
Proof.
  intros Hkind. unfold LocalSearch._perturb. rewrite decide_False by done.
  destruct (py_index _ _) as [f|]; cbn [rbind]; [|done].
  destruct (dict_get candidate (name p)) as [cur|]; cbn [rbind]; [|done].
  destruct (as_num cur) as [x|]; cbn [rbind]; [|done].
  destruct (range_min _) as [lo|] eqn:Hlo; cbn [rbind]; [|done].
  destruct (range_max _) as [hi|] eqn:Hhi; cbn [rbind]; [|done].
  intros [= <-]. eexists _, lo, hi. split_and!; [done|done|done|..];
    apply clipQ_between; by eapply range_min_le_max.
Qed.

Lemma local_search_perturb_numeric_in_range_witness :
  ∃ x lo hi : Qc,
    <["lr" := VInt 10]> ({["lr" := VInt 8]} : config)
    = <["lr" := VNum x]> {["lr" := VInt 8]}
    ∧ range_min [VInt 1; VInt 10] = Ok lo
    ∧ range_max [VInt 1; VInt 10] = Ok hi
    ∧ (lo ≤ x ≤ hi)%Qc.
Proof.
  apply (local_search_perturb_numeric_in_range
           (LocalSearch.init ∅ [Qc_of_Z 1; Qc_of_Z 2] 1)
           {["lr" := VInt 8]}
           {| name := "lr"; pkind := Continuous;
              range := [VInt 1; VInt 10]; scale := "linear" |} true).
  - done.
  - vm_compute. reflexivity.
Defined.

(** X20.  "It changes one hyperparameter at a time": after the first batch,
    a batch is Stop or a configuration that differs from the current
    (re-seeded) seed in the value of one parameter and has not been
    submitted before; it is then appended to [submitted]. *)
Theorem local_search_one_parameter_at_a_time `{Random}
    (self : LocalSearch.t) (ps : list parameter) (rs : list row)
    (lower_is_better : bool) (g : rng) (batch : list suggestion)
    (s' : LocalSearch.t) (g' : rng) :
  LocalSearch.count self ≠ 0 →
  LocalSearch._get_next_trials self ps rs lower_is_better g
  = (Ok batch, s', g') →
  LocalSearch.reseed (LocalSearch.seed_configuration self) ps rs
    lower_is_better = Ok (LocalSearch.seed_configuration s')
  ∧ ((batch = LocalSearch.copies self Stop
      ∧ LocalSearch.submitted s' = LocalSearch.submitted self)
     ∨ ∃ p v,
         p ∈ ps
         ∧ batch
           = LocalSearch.copies self
               (Config (<[name p := v]> (LocalSearch.seed_configuration s')))
         ∧ <[name p := v]> (LocalSearch.seed_configuration s')
           ∉ LocalSearch.submitted self
         ∧ LocalSearch.submitted s'
           = LocalSearch.submitted self
             ++ [<[name p := v]> (LocalSearch.seed_configuration s')]).
Proof.
  intros Hc. unfold LocalSearch._get_next_trials.
  cbn [LocalSearch.count LocalSearch.with_count
       LocalSearch.seed_configuration LocalSearch.submitted].
  rewrite decide_False by lia.
  destruct (LocalSearch.reseed _ ps rs lower_is_better) as [seed|e] eqn:Hseed;
    [|done].
  pose proof (shuffle_perm _ ps g) as Hperm.
  destruct (shuffle ps g) as [order g1]. simpl in Hperm.
  set (self2 := LocalSearch.with_seed
                  (LocalSearch.with_count self (LocalSearch.count self + 1))
                  seed).
  destruct (LocalSearch.scan self2 seed order g1) as [found g2] eqn:Hscan.
  assert ((LocalSearch.scan self2 seed order g1).1 = found) as Hfound
    by by rewrite Hscan.
  destruct found as [[c|]|e]; intros [= <- <- <-]; [|by auto].
  split; [done|]. right.
  destruct (scan_origin _ _ _ _ _ Hfound) as (p & Hp & Hin).
  destruct (unshuffled_shape _ _ _ _ Hin) as [v ->].
  exists p, v. split_and!; [by rewrite <- Hperm|done| |done].
  by apply scan_Some in Hfound.
Qed.

Lemma local_search_one_parameter_at_a_time_witness :
  let ps := [{| name := "a"; pkind := Choice; range := [VInt 1; VInt 2];
                scale := "linear" |}] in
  let self := {| LocalSearch.seed_configuration := {["a" := VInt 1]};
                 LocalSearch.count := 1;
                 LocalSearch.submitted := [{["a" := VInt 1]}];
                 LocalSearch.perturbation_factors := [];
                 LocalSearch.next_trial := [];
                 LocalSearch.repeat_trials := 1 |} in
  let s' := LocalSearch.with_submitted (LocalSearch.with_count self 2)
              [{["a" := VInt 1]}; {["a" := VInt 2]}] in
  LocalSearch.reseed (LocalSearch.seed_configuration self) ps [] true
  = Ok (LocalSearch.seed_configuration s')
  ∧ (([Config {["a" := VInt 2]}] = LocalSearch.copies self Stop
      ∧ LocalSearch.submitted s' = LocalSearch.submitted self)
     ∨ ∃ p v,
         p ∈ ps
         ∧ [Config {["a" := VInt 2]}]
           = LocalSearch.copies self
               (Config (<[name p := v]> (LocalSearch.seed_configuration s')))
         ∧ <[name p := v]> (LocalSearch.seed_configuration s')
           ∉ LocalSearch.submitted self
         ∧ LocalSearch.submitted s'
           = LocalSearch.submitted self
             ++ [<[name p := v]> (LocalSearch.seed_configuration s')]).
Proof.
  intros ps self s'.
  apply (@local_search_one_parameter_at_a_time det_random self ps [] true
           0%nat [Config {["a" := VInt 2]}] s' 2%nat).
  - done.
  - vm_compute. reflexivity.
Defined.

(** Whatever [repeat_trials] is and whatever the calls raise,
    [submitted] never holds a configuration twice. *)
Lemma local_search_submitted_no_duplicates `{Random} (ps : list parameter)
    (seed : config) (factors : list Qc) (repeat_trials : Z)
    (calls : list (list row * bool)) (g : rng) :
  NoDup (LocalSearch.submitted
           (run_state (LocalSearch.step ps)
              (LocalSearch.init seed factors repeat_trials, g) calls).1).
Proof.
  assert (∀ s g0,
           0 ≤ LocalSearch.count s →
           (LocalSearch.count s = 0 → LocalSearch.submitted s = []) →
           NoDup (LocalSearch.submitted s) →
           NoDup (LocalSearch.submitted
                    (run_state (LocalSearch.step ps) (s, g0) calls).1))
    as Hrun.
  { induction calls as [|[rs lib] calls IH]; intros s g0 Hc Hfresh Hnd;
      [done|].
    cbn [run_state]. unfold LocalSearch.step at 2. cbn [fst snd].
    destruct (LocalSearch.get_suggestion s ps rs lib g0) as [[o s'] g'] eqn:E.
    destruct (submitted_step _ _ _ _ _ _ _ _ Hc Hfresh Hnd E)
      as (Hc' & Hfresh' & Hnd').
    cbn [snd]. by apply IH. }
  apply Hrun; cbn; [lia|done|apply NoDup_nil_2].
Qed.

(** ** Genetic: the cap, the keys of a suggestion, the first trials *)

Section GeneticMore.
Import Genetic.
Context `{Random}.

Lemma select_columns_dom (d : config) names : ∀ (acc c : config),
  select_columns d names acc = Ok c →
  dom c = dom acc ∪ list_to_set names.
Proof.
  induction names as [|k names IH]; intros acc c; simpl.
  - intros [= <-]. set_solver.
  - destruct (dict_get d k) as [v|]; cbn [rbind]; [|done].
    intros Hc. rewrite (IH _ _ Hc), dom_insert_L. set_solver.
Qed.

Lemma get_candidate_dom ps rs lib mc g t g' :
  _get_candidate ps rs lib mc g = (Ok t, g') →
  dom t = list_to_set (name <$> ps).
Proof.
  unfold _get_candidate.
  assert (∀ g0 c g1, sample_all ps ∅ g0 = (c, g1) →
                     dom c = list_to_set (name <$> ps)) as Hsample.
  { intros g0 c g1 E. pose proof (sample_all_dom ps ∅ g0) as Hd.
    rewrite E in Hd. simpl in Hd. rewrite Hd, dom_empty_L. set_solver. }
  case_decide.
  - case_decide.
    + destruct (sample_all ps ∅ g) as [c g1] eqn:E. intros [= <- <-]. eauto.
    + case_decide; [|done].
      destruct (randint _ _ g) as [idx g1].
      destruct (py_index _ idx) as [r|]; cbn [rbind]; [|done].
      intros [= Hc <-]. apply select_columns_dom in Hc.
      rewrite Hc, dom_empty_L. set_solver.
  - destruct (sample_all ps ∅ g) as [c g1] eqn:E. intros [= <- <-]. eauto.
Qed.

Lemma mutate_dom k ps : ∀ (acc : config) g,
  dom (mutate k ps acc g).1
  = dom acc ∪ (if decide (k ∈ name <$> ps) then {[k]} else ∅).
Proof.
  induction ps as [|p ps IH]; intros acc g; cbn [mutate].
  - case_decide as Hk; [inversion Hk|set_solver].
  - rewrite fmap_cons. destruct (decide (k = name p)) as [Hk|Hk].
    + destruct (sample p g) as [v g1]. rewrite IH, dom_insert_L.
      rewrite (decide_True (P := k ∈ name p :: (name <$> ps))) by set_solver.
      case_decide; set_solver.
    + rewrite IH. destruct (decide (k ∈ name <$> ps)).
      * rewrite decide_True by set_solver. done.
      * rewrite decide_False by set_solver. done.
Qed.

Lemma crossover_dom self ps t1 t2 keys : ∀ (acc : config) g c g',
  (∀ k, k ∈ keys → k ∈ name <$> ps) →
  crossover self ps t1 t2 keys acc g = (Ok c, g') →
  dom c = dom acc ∪ list_to_set keys.
Proof.
  induction keys as [|k keys IH]; intros acc g c g' Hkeys; simpl.
  - intros [= <- <-]. set_solver.
  - assert (k ∈ name <$> ps) as Hk by (apply Hkeys; by left).
    assert (∀ k', k' ∈ keys → k' ∈ name <$> ps) as Hkeys'
      by (intros; apply Hkeys; by right).
    destruct (random g) as [o g1]. case_decide.
    + pose proof (mutate_dom k ps acc g1) as Hm.
      destruct (mutate k ps acc g1) as [acc' g2]. simpl in Hm.
      rewrite decide_True in Hm by done.
      intros Hc. rewrite (IH _ _ _ _ Hkeys' Hc), Hm. set_solver.
    + case_decide.
      * destruct (dict_get t1 k) as [v|]; [|done].
        intros Hc. rewrite (IH _ _ _ _ Hkeys' Hc), dom_insert_L. set_solver.
      * destruct (dict_get t2 k) as [v|]; [|done].
        intros Hc. rewrite (IH _ _ _ _ Hkeys' Hc), dom_insert_L. set_solver.
Qed.

(** One call, case by case. *)
Lemma genetic_call ps (s : t) rs lib g out s' g' :
  get_suggestion s ps rs lib g = (out, s', g') →
  (cap_reached s = true ∧ out = Ok Stop ∧ s' = s)
  ∨ (cap_reached s = false
     ∧ (((∃ e, out = Raise e) ∧ s' = s)
        ∨ ∃ c, out = Ok (Config c)
               ∧ dom c = list_to_set (name <$> ps)
               ∧ s' = {| mutation_rate := mutation_rate s;
                         max_num_trials := max_num_trials s;
                         count := count s + 1 |})).
Proof.
  unfold get_suggestion. destruct (cap_reached s).
  { intros [= <- <- <-]. by left. }
  intros E. right. split; [done|]. revert E.
  destruct (_get_candidate ps rs lib 10 g) as [[t1|e1] g1] eqn:E1.
  2: { intros [= <- <- <-]. left. eauto. }
  destruct (_get_candidate ps rs lib 10 g1) as [[t2|e2] g2] eqn:E2.
  2: { intros [= <- <- <-]. left. eauto. }
  destruct (crossover s ps t1 t2 (dict_keys t1) ∅ g2) as [[c|e] g3] eqn:E3.
  2: { intros [= <- <- <-]. left. eauto. }
  intros [= <- <- <-]. right. exists c. split_and!; [done| |done].
  apply get_candidate_dom in E1.
  apply crossover_dom in E3.
  - rewrite E3, dom_empty_L, <- E1. apply set_eq. intros k.
    rewrite elem_of_union, elem_of_list_to_set, dict_keys_elem_of, elem_of_dom.
    set_solver.
  - intros k Hk. apply dict_keys_elem_of, elem_of_dom in Hk.
    rewrite E1 in Hk. by apply elem_of_list_to_set in Hk.
Qed.

Lemma genetic_run_no_cap ps calls : ∀ (s : t) g,
  cap_reached s = false →
  (∀ c, cap_reached {| mutation_rate := mutation_rate s;
                       max_num_trials := max_num_trials s;
                       count := c |} = false) →
  Ok Stop ∉ run_calls (step ps) (s, g) calls.
Proof.
  induction calls as [|[rs lib] calls IH]; intros s g Hcap Hall.
  - intros Hin. inversion Hin.
  - cbn [run_calls]. unfold step at 1. cbn [fst snd].
    destruct (get_suggestion s ps rs lib g) as [[o s'] g'] eqn:E.
    apply genetic_call in E
      as [(Hc & _)|(_ & [([e ->] & ->)|(c & -> & _ & ->)])];
      [congruence| |].
    + intros [?|Hin]%elem_of_cons; [done|]. by eapply IH.
    + intros [?|Hin]%elem_of_cons; [done|]. eapply IH; [| |done]; cbn; auto.
Qed.

Lemma genetic_run_cap ps (N : Z) calls : ∀ (s : t) g,
  max_num_trials s = Some N → 1 ≤ N →
  Z.of_nat (length (suggested_configs (run_calls (step ps) (s, g) calls)))
  ≤ Z.max 0 (N - count s).
Proof.
  induction calls as [|[rs lib] calls IH]; intros s g Hmax HN.
  - cbn. lia.
  - cbn [run_calls]. unfold step at 1. cbn [fst snd].
    destruct (get_suggestion s ps rs lib g) as [[o s'] g'] eqn:E.
    apply genetic_call in E
      as [(Hc & -> & ->)|(Hc & [([e ->] & ->)|(c & -> & _ & ->)])];
      unfold suggested_configs; cbn [omap list_omap length];
      fold (suggested_configs (run_calls (step ps) (s, g') calls));
      try (by apply IH).
    fold (suggested_configs
            (run_calls (step ps)
               ({| mutation_rate := mutation_rate s;
                   max_num_trials := max_num_trials s;
                   count := count s + 1 |}, g') calls)).
    match goal with |- context [run_calls (step ps) (?s1, g') calls] =>
      specialize (IH s1 g' Hmax HN) end.
    cbn [count] in IH. unfold cap_reached in Hc. rewrite Hmax in Hc.
    rewrite bool_decide_eq_true_2 in Hc by lia. cbn [andb] in Hc.
    apply bool_decide_eq_false in Hc. lia.
Qed.
End GeneticMore.

(** X22.  Without a cap ([max_num_trials] is [None], or 0, which is falsy)
    [Genetic] never returns Stop. *)
Theorem genetic_no_cap_never_stops `{Random} (mutation_rate : Qc)
    (max_num_trials : option Z) (ps : list parameter)
    (calls : list (list row * bool)) (g : rng) :
  max_num_trials = None ∨ max_num_trials = Some 0 →
  Ok Stop ∉ run_calls (Genetic.step ps)
              (Genetic.init mutation_rate max_num_trials, g) calls.
Proof.
  intros Hmax. apply genetic_run_no_cap.
  - by destruct Hmax as [-> | ->].
  - intros c. by destruct Hmax as [-> | ->].
Qed.

Lemma genetic_no_cap_never_stops_witness :
  Ok Stop ∉ run_calls (Genetic.step [])
              (Genetic.init (Qc_of_Z 0) (Some 0), 0%nat)
              (replicate 3 ([], true)).
Proof.
  apply (@genetic_no_cap_never_stops det_random). by right.
Defined.

(** X23.  With [max_num_trials = N >= 1] a run returns at most [N]
    configurations, however many calls are made and whichever of them
    raise: only a call that returns a configuration is counted. *)
Theorem genetic_cap_bounds_suggestions `{Random} (mutation_rate : Qc)
    (N : Z) (ps : list parameter) (calls : list (list row * bool))
    (g : rng) :
  1 ≤ N →
  Z.of_nat (length (suggested_configs
                      (run_calls (Genetic.step ps)
                         (Genetic.init mutation_rate (Some N), g) calls)))
  ≤ N.
Proof.
  intros HN.
  pose proof (genetic_run_cap ps N calls
                (Genetic.init mutation_rate (Some N)) g eq_refl HN) as Hle.
  cbn [Genetic.count Genetic.init] in Hle. lia.
Qed.

Lemma genetic_cap_bounds_suggestions_witness :
  Z.of_nat (length (suggested_configs
                      (run_calls (Genetic.step [])
                         (Genetic.init (Qc_of_Z 0) (Some 2), 0%nat)
                         (replicate 5 ([], true)))))
  ≤ 2.
Proof. apply (@genetic_cap_bounds_suggestions det_random). lia. Defined.

(** X24.  Every configuration [Genetic] suggests has exactly the names of
    the parameters as its keys, whether a value was mutated or taken
    from one of the two candidates. *)
Theorem genetic_suggestion_keys `{Random} (self : Genetic.t)
    (ps : list parameter) (rs : list row) (lower_is_better : bool)
    (g : rng) (c : config) (self' : Genetic.t) (g' : rng) :
  Genetic.get_suggestion self ps rs lower_is_better g
  = (Ok (Config c), self', g') →
  dom c = list_to_set (name <$> ps)
  ∧ Genetic.count self' = Genetic.count self + 1.
Proof.
  intros E. apply genetic_call in E
    as [(_ & [=] & _)|(_ & [([e [=]] & _)|(c' & [= <-] & Hdom & ->)])].
  done.
Qed.

Lemma genetic_suggestion_keys_witness :
  let self := Genetic.init (Qc_of_Z 0) None in
  let self' := {| Genetic.mutation_rate := Qc_of_Z 0;
                  Genetic.max_num_trials := None; Genetic.count := 1 |} in
  dom ({["lr" := VInt 1]} : config) = list_to_set ["lr"]
  ∧ Genetic.count self' = Genetic.count self + 1.
Proof.
  intros self self'.
  apply (@genetic_suggestion_keys det_random self
           [{| name := "lr"; pkind := Choice; range := [VInt 1; VInt 2];
               scale := "linear" |}] [] true 0%nat {["lr" := VInt 1]}
           self' 3%nat).
  vm_compute. reflexivity.
Defined.

(** X25.  Until the table holds [min_candidates = 10] rows that are not
    INTERMEDIATE, the results play no part: the call returns what it
    returns on the empty table, a mixture of two fresh random samples. *)
Theorem genetic_first_trials_ignore_results `{Random} (self : Genetic.t)
    (ps : list parameter) (rs : list row) (lower_is_better : bool)
    (g : rng) :
  (length (filter (λ r, Status r ≠ "INTERMEDIATE") rs) < 10)%nat →
  Genetic.get_suggestion self ps rs lower_is_better g
  = Genetic.get_suggestion self ps [] lower_is_better g.
Proof.
  intros Hfew.
  assert (∀ g0, Genetic._get_candidate ps rs lower_is_better 10 g0
                = Genetic._get_candidate ps [] lower_is_better 10 g0) as Hc.
  { intros g0. unfold Genetic._get_candidate.
    rewrite (decide_False (P := (0 < length (@nil row))%nat))
      by (simpl; lia).
    case_decide; [|done]. rewrite decide_True by lia. done. }
  unfold Genetic.get_suggestion. rewrite Hc.
  destruct (Genetic._get_candidate ps [] lower_is_better 10 g) as [[t1|] g1];
    [|done].
  by rewrite Hc.
Qed.

Lemma genetic_first_trials_ignore_results_witness :
  Genetic.get_suggestion (H := det_random) (Genetic.init (Qc_of_Z 0) None) []
    [{| TrialID := 1; Status := "COMPLETED"; Iteration := 1;
        Objective := Fin (Qc_of_Z 0); Cols := ∅ |}] true 0%nat
  = Genetic.get_suggestion (Genetic.init (Qc_of_Z 0) None) [] [] true 0%nat.
Proof.
  apply (@genetic_first_trials_ignore_results det_random). vm_compute. lia.
Defined.

(** ** Repeat: every suggestion [num_times] times *)

Section RepeatMore.
Import Repeat.
Context {A : inner}.

Lemma repeat_queued_step ps (s : t A) rs lib (n : nat) (x : suggestion) :
  queue s = replicate (S n) x →
  ∃ s', get_suggestion s ps rs lib = (Ok x, s')
        ∧ queue s' = replicate n x
        ∧ algorithm s' = algorithm s ∧ num_times s' = num_times s
        ∧ prev_completed s' = prev_completed s
        ∧ wait_for_completion s' = wait_for_completion s.
Proof.
  intros Hq. unfold get_suggestion.
  destruct (queue s) as [|y q] eqn:E; [done|].
  cbv beta iota zeta. rewrite Hq, py_pop_replicate.
  eexists. split; [done|]. done.
Qed.

Lemma repeat_queued_run ps calls : ∀ (s : t A) (n : nat) (x : suggestion),
  queue s = replicate n x →
  (length calls ≤ n)%nat →
  run_calls (repeat_step ps) s calls = replicate (length calls) (Ok x)
  ∧ queue (run_state (repeat_step ps) s calls)
    = replicate (n - length calls) x
  ∧ algorithm (run_state (repeat_step ps) s calls) = algorithm s
  ∧ prev_completed (run_state (repeat_step ps) s calls) = prev_completed s.
Proof.
  induction calls as [|[rs lib] calls IH]; intros s n x Hq Hlen.
  - cbn. by rewrite Nat.sub_0_r.
  - destruct n as [|n]; [simpl in Hlen; lia|].
    destruct (repeat_queued_step ps s rs lib n x Hq)
      as (s' & Hcall & Hq' & Ha & _ & Hp & _).
    assert (repeat_step ps s (rs, lib) = (Ok x, s')) as Hstep by done.
    cbn [run_calls run_state length replicate]. rewrite Hstep. cbn [fst snd].
    destruct (IH s' n x Hq') as (IH1 & IH2 & IH3 & IH4);
      [simpl in Hlen; lia|].
    rewrite IH1, IH2, IH3, IH4. done.
Qed.

(** A call that consults the wrapped algorithm and returns. *)
Lemma repeat_refill_step ps (s : t A) rs lib x s1 :
  queue s = [] → wait_for_completion s = false →
  get_suggestion s ps rs lib = (Ok x, s1) →
  ∃ n : nat, Z.to_nat (num_times s) = S n ∧ queue s1 = replicate n x.
Proof.
  intros Hq Hw. unfold get_suggestion. rewrite Hq, Hw. cbn [andb].
  destruct rs as [[|r rs']|]; [|destruct (aggregate _ _ _); [|done]|];
    cbv beta iota zeta; cbn [algorithm num_times queue];
    (destruct (inner_get_suggestion A _ _ _ _) as [[sug|e] alg']; [|done]);
    rewrite ?Hq; cbn [app];
    (destruct (Z.to_nat (num_times s)) as [|n]; [done|]);
    rewrite py_pop_replicate; intros [= <- <-]; by exists n.
Qed.

Lemma repeat_nonpositive_step ps (s : t A) rs lib out s' :
  queue s = [] → num_times s ≤ 0 →
  get_suggestion s ps rs lib = (out, s') →
  (out = Ok Wait ∨ ∃ e, out = Raise e)
  ∧ queue s' = [] ∧ num_times s' ≤ 0.
Proof.
  intros Hq Hn. unfold get_suggestion. rewrite Hq. cbn [app].
  replace (Z.to_nat (num_times s)) with 0%nat by lia.
  cbn [replicate py_pop reverse rev_append].
  destruct rs as [[|r rs']|].
  - destruct (inner_get_suggestion A _ _ _ _) as [[sug|e] alg'];
      intros [= <- <-]; cbn [queue num_times]; eauto.
  - destruct (wait_for_completion s && _).
    { intros [= <- <-]. eauto. }
    destruct (aggregate _ _ _) as [table|e].
    2: { intros [= <- <-]. cbn [queue num_times]. eauto. }
    cbn [algorithm num_times queue].
    replace (Z.to_nat (num_times s)) with 0%nat by lia.
    destruct (inner_get_suggestion A _ _ _ _) as [[sug|e] alg'];
      intros [= <- <-]; cbn [queue num_times]; eauto.
  - destruct (inner_get_suggestion A _ _ _ _) as [[sug|e] alg'];
      intros [= <- <-]; cbn [queue num_times]; eauto.
Qed.
End RepeatMore.

(** X26.  What [Repeat] is for: when a call consults the wrapped algorithm
    and returns [x], the following [num_times - 1] calls return [x] as
    well, whatever results they are handed, without consulting the
    wrapped algorithm or moving [prev_completed]. *)
Theorem repeat_repeats_each_suggestion (A : Repeat.inner)
    (self : Repeat.t A) (ps : list parameter) (rs : option (list row))
    (lower_is_better : bool) (x : suggestion) (s1 : Repeat.t A)
    (calls : list (option (list row) * bool)) :
  Repeat.queue self = [] →
  Repeat.wait_for_completion self = false →
  Repeat.get_suggestion self ps rs lower_is_better = (Ok x, s1) →
  (length calls < Z.to_nat (Repeat.num_times self))%nat →
  run_calls (repeat_step ps) s1 calls = replicate (length calls) (Ok x)
  ∧ Repeat.queue (run_state (repeat_step ps) s1 calls)
    = replicate (Z.to_nat (Repeat.num_times self) - 1 - length calls) x
  ∧ Repeat.algorithm (run_state (repeat_step ps) s1 calls)
    = Repeat.algorithm s1
  ∧ Repeat.prev_completed (run_state (repeat_step ps) s1 calls)
    = Repeat.prev_completed s1.
Proof.
  intros Hq Hw Hcall Hlen.
  destruct (repeat_refill_step ps self rs lower_is_better x s1 Hq Hw Hcall)
    as (n & Hn & Hq1).
  rewrite Hn. replace (S n - 1)%nat with n by lia.
  apply repeat_queued_run; [done|lia].
Qed.

Lemma repeat_repeats_each_suggestion_witness :
  let s1 := (Repeat.get_suggestion
               (Repeat.init (A := recording_inner) [] 3 false) [] None
               true).2 in
  run_calls (repeat_step []) s1 (replicate 2 (None, true))
  = replicate (length (replicate 2 (None : option (list row), true)))
      (Ok (Config ∅))
  ∧ Repeat.queue (run_state (repeat_step []) s1 (replicate 2 (None, true)))
    = replicate (Z.to_nat 3 - 1
                 - length (replicate 2 (None : option (list row), true)))
        (Config ∅)
  ∧ Repeat.algorithm
      (run_state (repeat_step []) s1 (replicate 2 (None, true)))
    = Repeat.algorithm s1
  ∧ Repeat.prev_completed
      (run_state (repeat_step []) s1 (replicate 2 (None, true)))
    = Repeat.prev_completed s1.
Proof.
  intros s1.
  apply (repeat_repeats_each_suggestion recording_inner
           (Repeat.init (A := recording_inner) [] 3 false) [] None true
           (Config ∅) s1 (replicate 2 (None, true))).
  - done.
  - done.
  - vm_compute. reflexivity.
  - vm_compute. lia.
Defined.

(** X27.  With [num_times <= 0] nothing is ever queued, so [Repeat] never
    returns a suggestion: a call returns WAIT or raises ([IndexError]
    from [pop] on the empty queue after the wrapped algorithm has been
    consulted, or what the wrapped algorithm raised). *)
Theorem repeat_nonpositive_num_times (A : Repeat.inner)
    (algorithm : Repeat.inner_state A) (num_times : Z)
    (wait_for_completion : bool) (ps : list parameter)
    (calls : list (option (list row) * bool)) (out : result suggestion) :
  num_times ≤ 0 →
  out ∈ run_calls (repeat_step ps)
          (Repeat.init algorithm num_times wait_for_completion) calls →
  out = Ok Wait ∨ ∃ e, out = Raise e.
Proof.
  intros Hn.
  assert (∀ s : Repeat.t A,
            Repeat.queue s = [] → Repeat.num_times s ≤ 0 →
            out ∈ run_calls (repeat_step ps) s calls →
            out = Ok Wait ∨ ∃ e, out = Raise e) as Hrun.
  { induction calls as [|[rs lib] calls IH]; intros s Hq Hs.
    - intros Hin. inversion Hin.
    - cbn [run_calls]. unfold repeat_step at 1. cbn [fst snd].
      destruct (Repeat.get_suggestion s ps rs lib) as [o s'] eqn:E.
      destruct (repeat_nonpositive_step _ _ _ _ _ _ Hq Hs E)
        as (Ho & Hq' & Hs').
      intros [->|Hin]%elem_of_cons; [done|]. by eapply IH. }
  apply Hrun; done.
Qed.

Lemma repeat_nonpositive_num_times_witness :
  Raise IndexError = Ok Wait
  ∨ ∃ e, Raise (A := suggestion) IndexError = Raise e.
Proof.
  apply (repeat_nonpositive_num_times recording_inner [] 0 false []
           [(None, true)] (Raise IndexError)).
  - lia.
  - vm_compute. left.
Defined.

(** ** PopulationBasedTraining: perturbation bounds and truncation
       selection *)

Section PBTMore.
Import PopulationBasedTraining.
Context `{Random}.

Lemma select_columns_lookup (d : config) names : ∀ (acc c : config),
  select_columns d names acc = Ok c →
  (∀ k, k ∈ names → c !! k = d !! k)
  ∧ (∀ k, k ∉ names → c !! k = acc !! k).
Proof.
  induction names as [|k0 names IH]; intros acc c; simpl.
  - intros [= <-]. split; [intros ? Hk; inversion Hk|done].
  - unfold dict_get. destruct (d !! k0) as [v|] eqn:Hv; cbn [rbind]; [|done].
    intros Hc. destruct (IH _ _ Hc) as [Hin Hout]. split.
    + intros k [->|Hk]%elem_of_cons; [|auto].
      destruct (decide (k0 ∈ names)); [auto|].
      by rewrite Hout, lookup_insert_eq.
    + intros k [Hne Hk]%not_elem_of_cons.
      by rewrite Hout, lookup_insert_ne.
Qed.

Lemma copy_keys_other (d : config) keys : ∀ (trial trial' : config) k,
  copy_keys d keys trial = Ok trial' → k ∉ keys → trial' !! k = trial !! k.
Proof.
  induction keys as [|k0 keys IH]; intros trial trial' k; simpl.
  - by intros [= <-].
  - destruct (dict_get d k0) as [v|]; cbn [rbind]; [|done].
    intros Hc [Hne Hk]%not_elem_of_cons.
    by rewrite (IH _ _ _ Hc Hk), lookup_insert_ne.
Qed.

Lemma pbt_perturb_bounds self ps : ∀ cand g cand' g',
  NoDup (name <$> ps) →
  _perturb self cand ps g = (Ok cand', g') →
  ∀ p, p ∈ ps →
    match pkind p with
    | Continuous | Discrete =>
        ∃ x lo hi : Qc,
          cand' !! name p = Some (VNum x)
          ∧ range_min (bounds_of self p) = Ok lo
          ∧ range_max (bounds_of self p) = Ok hi
          ∧ (lo ≤ x ≤ hi)%Qc
    | Ordinal => ∃ v, cand' !! name p = Some v ∧ v ∈ bounds_of self p
    | Choice => is_Some (cand' !! name p)
    end.
Proof.
  induction ps as [|p0 ps IH]; intros cand g cand' g' Hnd E p Hp.
  { inversion Hp. }
  rewrite fmap_cons in Hnd. apply NoDup_cons in Hnd as [Hfresh Hnd].
  assert (∀ p', p' ∈ ps → name p' ≠ name p0) as Hrest.
  { intros p' Hp' Heq. apply Hfresh. rewrite <- Heq.
    by apply list_elem_of_fmap_2. }
  apply elem_of_cons in Hp as [->|Hp].
  2: { cbn [_perturb] in E. destruct (pkind p0).
       - destruct (sample p0 g) as [v g1]. by eapply IH.
       - destruct (perturbation_factors self) as [|f0 fs]; [done|].
         destruct (choice f0 fs g) as [factor g1].
         destruct (rbind _ _) as [cand1|]; [|done]. by eapply IH.
       - destruct (perturbation_factors self) as [|f0 fs]; [done|].
         destruct (choice f0 fs g) as [factor g1].
         destruct (rbind _ _) as [cand1|]; [|done]. by eapply IH.
       - destruct (choice (-1) [0; 1] g) as [shift g1].
         destruct (rbind _ _) as [cand1|]; [|done]. by eapply IH. }
  cbn [_perturb] in E. destruct (pkind p0) eqn:Hkind.
  - destruct (sample p0 g) as [v g1].
    rewrite (perturb_preserves _ _ _ _ _ _ _ Hrest E), lookup_insert_eq.
    by eexists.
  - destruct (perturbation_factors self) as [|f0 fs]; [done|].
    destruct (choice f0 fs g) as [factor g1].
    destruct (dict_get cand (name p0)) as [cur|]; [|done]. cbn [rbind] in E.
    destruct (as_num cur) as [x|]; [|done]. cbn [rbind] in E.
    destruct (range_min _) as [lo|] eqn:Hlo; [|done]. cbn [rbind] in E.
    destruct (range_max _) as [hi|] eqn:Hhi; [|done]. cbn [rbind] in E.
    rewrite (perturb_preserves _ _ _ _ _ _ _ Hrest E), lookup_insert_eq.
    eexists _, lo, hi. split_and!; [done|done|done|..];
      apply clipQ_between; by eapply range_min_le_max.
  - destruct (perturbation_factors self) as [|f0 fs]; [done|].
    destruct (choice f0 fs g) as [factor g1].
    destruct (dict_get cand (name p0)) as [cur|]; [|done]. cbn [rbind] in E.
    destruct (as_num cur) as [x|]; [|done]. cbn [rbind] in E.
    destruct (range_min _) as [lo|] eqn:Hlo; [|done]. cbn [rbind] in E.
    destruct (range_max _) as [hi|] eqn:Hhi; [|done]. cbn [rbind] in E.
    rewrite (perturb_preserves _ _ _ _ _ _ _ Hrest E), lookup_insert_eq.
    eexists _, lo, hi. split_and!; [done|done|done|..];
      apply clipQ_between; by eapply range_min_le_max.
  - destruct (choice (-1) [0; 1] g) as [shift g1].
    destruct (dict_get cand (name p0)) as [cur|]; [|done]. cbn [rbind] in E.
    destruct (list_index cur _) as [pos|]; [|done]. cbn [rbind] in E.
    destruct (py_index _ _) as [v|] eqn:Hv; [|done]. cbn [rbind] in E.
    rewrite (perturb_preserves _ _ _ _ _ _ _ Hrest E), lookup_insert_eq.
    exists v. split; [done|]. by eapply py_index_elem.
Qed.
End PBTMore.

(** X28.  [_perturb] keeps every parameter inside its bounds
    ([parameter_range] where it has a non-empty entry for the name, the
    parameter's own range otherwise): a continuous or discrete value
    ends between the smallest and the largest bound, an ordinal value
    is one of the listed values; keys that are not parameter names are
    left as they were.  (Parameter names distinct.) *)
Theorem pbt_perturb_within_bounds `{Random}
    (self : PopulationBasedTraining.t) (candidate : config)
    (ps : list parameter) (g : rng) (perturbed : config) (g' : rng) :
  NoDup (name <$> ps) →
  PopulationBasedTraining._perturb self candidate ps g = (Ok perturbed, g') →
  (∀ p, p ∈ ps →
     match pkind p with
     | Continuous | Discrete =>
         ∃ x lo hi : Qc,
           perturbed !! name p = Some (VNum x)
           ∧ range_min (PopulationBasedTraining.bounds_of self p) = Ok lo
           ∧ range_max (PopulationBasedTraining.bounds_of self p) = Ok hi
           ∧ (lo ≤ x ≤ hi)%Qc
     | Ordinal =>
         ∃ v, perturbed !! name p = Some v
              ∧ v ∈ PopulationBasedTraining.bounds_of self p
     | Choice => is_Some (perturbed !! name p)
     end)
  ∧ (∀ k, k ∉ name <$> ps → perturbed !! k = candidate !! k).
Proof.
  intros Hnd E. split.
  - by eapply pbt_perturb_bounds.
  - intros k Hk. eapply perturb_preserves; [|done].
    intros p Hp Heq. apply Hk. rewrite <- Heq. by apply list_elem_of_fmap_2.
Qed.

Lemma pbt_perturb_within_bounds_witness :
  let self := PopulationBasedTraining.init 5 {["lr" := [VInt 1; VInt 4]]}
                [Qc_of_Z 2] in
  let ps := [{| name := "lr"; pkind := Continuous;
                range := [VInt 0; VInt 100]; scale := "linear" |}] in
  let perturbed : config := <["lr" := VInt 4]> {["lr" := VInt 3]} in
  (∀ p, p ∈ ps →
     match pkind p with
     | Continuous | Discrete =>
         ∃ x lo hi : Qc,
           perturbed !! name p = Some (VNum x)
           ∧ range_min (PopulationBasedTraining.bounds_of self p) = Ok lo
           ∧ range_max (PopulationBasedTraining.bounds_of self p) = Ok hi
           ∧ (lo ≤ x ≤ hi)%Qc
     | Ordinal =>
         ∃ v, perturbed !! name p = Some v
              ∧ v ∈ PopulationBasedTraining.bounds_of self p
     | Choice => is_Some (perturbed !! name p)
     end)
  ∧ (∀ k, k ∉ name <$> ps → perturbed !! k
                             = ({["lr" := VInt 3]} : config) !! k).
Proof.
  intros self ps perturbed.
  apply (@pbt_perturb_within_bounds det_random self {["lr" := VInt 3]} ps
           0%nat perturbed 1%nat).
  - vm_compute. repeat constructor; set_solver.
  - vm_compute. reflexivity.
Defined.

(** X29.  Truncation selection needs the previous generation to be there:
    from the second generation on, a call whose slot lies in the top 80%
    raises [IndexError] when fewer than [slot + 1] members of the
    previous generation are COMPLETED; the counters have been advanced
    all the same, so the next call is for the next slot. *)
Theorem pbt_incomplete_generation_raises `{Random}
    (self : PopulationBasedTraining.t) (ps : list parameter)
    (rs : list row) (lower_is_better : bool) (g : rng) :
  let pop := PopulationBasedTraining.population_size self in
  let slot := PopulationBasedTraining.count self `mod` pop in
  let gen := PopulationBasedTraining.count self `div` pop + 1 in
  1 ≤ pop → pop ≤ PopulationBasedTraining.count self →
  (Qc_of_Z slot / Qc_of_Z pop < Qc_of_Z 8 / Qc_of_Z 10)%Qc →
  Z.of_nat (length (PopulationBasedTraining.generation_df rs (gen - 1)
                      lower_is_better)) ≤ slot →
  PopulationBasedTraining.get_suggestion self ps rs lower_is_better g
  = (Raise IndexError,
     PopulationBasedTraining.with_counters self
       (PopulationBasedTraining.count self + 1) gen
       (PopulationBasedTraining.random_sampler self), g).
Proof.
  intros pop slot gen Hpop Hcount Hslot Hlen.
  unfold PopulationBasedTraining.get_suggestion.
  fold pop. rewrite decide_False by lia.
  replace (PopulationBasedTraining.count self + 1 - 1)
    with (PopulationBasedTraining.count self) by lia.
  fold gen.
  assert (2 ≤ gen) as Hgen.
  { subst gen. assert (1 ≤ PopulationBasedTraining.count self `div` pop);
      [|lia]. apply Z.div_le_lower_bound; lia. }
  rewrite decide_False by lia.
  unfold PopulationBasedTraining._truncation_selection.
  cbn [PopulationBasedTraining.population_size
       PopulationBasedTraining.with_counters
       PopulationBasedTraining.count PopulationBasedTraining.generation].
  fold pop. rewrite decide_False by lia.
  replace (PopulationBasedTraining.count self + 1 - 1)
    with (PopulationBasedTraining.count self) by lia.
  fold slot. rewrite decide_True by done.
  rewrite py_index_out; [done| |done].
  subst slot. apply Z.mod_pos_bound. lia.
Qed.

Lemma pbt_incomplete_generation_raises_witness :
  PopulationBasedTraining.get_suggestion (H := det_random)
    (PopulationBasedTraining.with_counters
       (PopulationBasedTraining.init 2 ∅ []) 2 1 (RandomSearch.init None 1))
    [] [] true 0%nat
  = (Raise IndexError,
     PopulationBasedTraining.with_counters
       (PopulationBasedTraining.init 2 ∅ []) 3 2 (RandomSearch.init None 1),
     0%nat).
Proof.
  apply (@pbt_incomplete_generation_raises det_random
           (PopulationBasedTraining.with_counters
              (PopulationBasedTraining.init 2 ∅ []) 2 1
              (RandomSearch.init None 1)) [] [] true 0%nat).
  - vm_compute. discriminate.
  - vm_compute. discriminate.
  - vm_compute. reflexivity.
  - vm_compute. discriminate.
Defined.

(** X30.  In the top 80% of the slots truncation selection only copies:
    the suggestion carries, for every parameter, the value of the row at
    position [slot] of the ranking of the previous generation's COMPLETED
    rows, and no random draw is made.  The ranking holds exactly those
    rows, the best objective first and NaN objectives last; rows of equal
    objective are in table order when there are at most 16 rows to rank
    (beyond that pandas promises no order among them).  (No parameter is
    named like a bookkeeping column.) *)
Theorem pbt_top_slots_copy `{Random}
    (self : PopulationBasedTraining.t) (ps : list parameter)
    (rs : list row) (lower_is_better : bool) (g : rng) (trial : config)
    (self' : PopulationBasedTraining.t) (g' : rng) :
  let pop := PopulationBasedTraining.population_size self in
  let slot := PopulationBasedTraining.count self `mod` pop in
  let gen := PopulationBasedTraining.count self `div` pop + 1 in
  let members :=
    filter (λ r, Status r = "COMPLETED"
                 ∧ Cols r !! "generation" = Some (VInt (gen - 1))) rs in
  (∀ p, p ∈ ps → name p ∉ PopulationBasedTraining.bookkeeping) →
  1 ≤ pop → pop ≤ PopulationBasedTraining.count self →
  (Qc_of_Z slot / Qc_of_Z pop < Qc_of_Z 8 / Qc_of_Z 10)%Qc →
  PopulationBasedTraining.get_suggestion self ps rs lower_is_better g
  = (Ok (Config trial), self', g') →
  g' = g
  ∧ ∃ ranked r,
      ranked ≡ₚ members
      ∧ StronglySorted
          (λ a b, match Objective a, Objective b with
                  | Fin x, Fin y =>
                      if lower_is_better then (x ≤ y)%Qc else (y ≤ x)%Qc
                  | NaN, Fin _ => False
                  | _, NaN => True
                  end) ranked
      ∧ ((length members ≤ 16)%nat →
         ∀ o : float, filter (λ r, Objective r = o) ranked
                      = filter (λ r, Objective r = o) members)
      ∧ ranked !! Z.to_nat slot = Some r
      ∧ ∀ p, p ∈ ps → trial !! name p = to_dict r !! name p.
Proof.
  intros pop slot gen members Hnames Hpop Hcount Hslot.
  unfold PopulationBasedTraining.get_suggestion.
  fold pop. rewrite decide_False by lia.
  replace (PopulationBasedTraining.count self + 1 - 1)
    with (PopulationBasedTraining.count self) by lia.
  fold gen.
  assert (2 ≤ gen) as Hgen.
  { subst gen. assert (1 ≤ PopulationBasedTraining.count self `div` pop);
      [|lia]. apply Z.div_le_lower_bound; lia. }
  rewrite decide_False by lia.
  unfold PopulationBasedTraining._truncation_selection.
  cbn [PopulationBasedTraining.population_size
       PopulationBasedTraining.with_counters
       PopulationBasedTraining.count PopulationBasedTraining.generation].
  fold pop. rewrite decide_False by lia.
  replace (PopulationBasedTraining.count self + 1 - 1)
    with (PopulationBasedTraining.count self) by lia.
  fold slot. rewrite decide_True by done.
  set (gdf := PopulationBasedTraining.generation_df rs (gen - 1)
                lower_is_better).
  assert (0 ≤ slot) as Hslot0 by (subst slot; apply Z.mod_pos_bound; lia).
  destruct (py_index gdf slot) as [r|] eqn:Hr; [|done]. cbn [rmap rbind].
  destruct (select_columns (to_dict r) (name <$> ps) ∅) as [t0|] eqn:Ht0;
    cbn [rbind]; [|done].
  destruct (PopulationBasedTraining.copy_keys _ _ t0) as [t1|] eqn:Ht1;
    cbn [rbind]; [|done].
  destruct (dict_get t1 "save_to") as [sv|]; cbn [rbind]; [|done].
  destruct (int_of_value sv) as [cp|]; cbn [rbind]; [|done].
  destruct (dict_get t1 "lineage") as [[|l|]|]; cbn [rbind]; try done.
  intros [= <- <- <-]. split; [done|]. exists gdf, r.
  assert (filter (λ r, Cols r !! "generation" = Some (VInt (gen - 1)))
                 (completed_rows rs) = members) as Hmem.
  { unfold completed_rows, members. clear.
    induction rs as [|x rs IH]; [done|].
    rewrite !filter_cons. destruct (decide (Status x = "COMPLETED"));
      [rewrite filter_cons|]; repeat case_decide; try tauto;
      by rewrite IH. }
  split_and!.
  - subst gdf. unfold PopulationBasedTraining.generation_df.
    by rewrite sort_by_objective_Permutation, Hmem.
  - subst gdf. unfold PopulationBasedTraining.generation_df.
    eapply StronglySorted_impl; [|apply sort_by_objective_sorted].
    intros a b. unfold objective_le.
    by destruct (Objective a), (Objective b).
  - intros _ o. subst gdf. unfold PopulationBasedTraining.generation_df.
    by rewrite sort_by_objective_stable, Hmem.
  - unfold py_index in Hr. rewrite (decide_False (P := slot < 0)) in Hr by lia.
    case_decide; [|done]. destruct (gdf !! Z.to_nat slot); by simplify_eq.
  - intros p Hp.
    assert (∀ k, k ∈ PopulationBasedTraining.bookkeeping → k ≠ name p)
      as Hnk by (intros k Hk Heq; apply (Hnames p Hp); by rewrite <- Heq).
    rewrite !lookup_insert_ne
      by (apply Hnk; unfold PopulationBasedTraining.bookkeeping; set_solver).
    rewrite (copy_keys_other _ _ _ _ _ Ht1).
    2: { intros Hin. rewrite !elem_of_cons, elem_of_nil in Hin.
         destruct Hin as [Hin|[Hin|[Hin|[]]]]; apply (Hnames p Hp);
           rewrite Hin; unfold PopulationBasedTraining.bookkeeping;
           set_solver. }
    apply (proj1 (select_columns_lookup _ _ _ _ Ht0)).
    by apply list_elem_of_fmap_2.
Qed.

Lemma pbt_top_slots_copy_witness :
  let self := PopulationBasedTraining.with_counters
                (PopulationBasedTraining.init 3 ∅ []) 4 2
                (RandomSearch.init None 1) in
  let ps := [{| name := "lr"; pkind := Continuous;
                range := [VInt 0; VInt 10]; scale := "linear" |}] in
  let member (id : Z) (obj lr : Z) :=
    {| TrialID := id; Status := "COMPLETED"; Iteration := 1;
       Objective := Fin (Qc_of_Z obj);
       Cols := <["lr" := VInt lr]>
                 (<["generation" := VInt 1]>
                    (<["lineage" := VStr ""]>
                       (<["load_from" := VStr ""]>
                          {["save_to" := VStr "1"]}))) |} in
  let rs := [member 1 2 3; member 2 1 5; member 3 1 7] in
  ∃ trial self' g',
    PopulationBasedTraining.get_suggestion (H := det_random) self ps rs true
      0%nat = (Ok (Config trial), self', g')
    ∧ trial !! "lr" = Some (VInt 7)
    ∧ g' = 0%nat
    ∧ ∃ ranked r,
        ranked ≡ₚ filter (λ r, Status r = "COMPLETED"
                               ∧ Cols r !! "generation"
                                 = Some (VInt (4 `div` 3 + 1 - 1))) rs
        ∧ StronglySorted
            (λ a b, match Objective a, Objective b with
                    | Fin x, Fin y => (x ≤ y)%Qc
                    | NaN, Fin _ => False
                    | _, NaN => True
                    end) ranked
        ∧ ((length (filter (λ r, Status r = "COMPLETED"
                                 ∧ Cols r !! "generation"
                                   = Some (VInt (4 `div` 3 + 1 - 1))) rs)
            ≤ 16)%nat →
           ∀ o : float,
             filter (λ r, Objective r = o) ranked
             = filter (λ r, Objective r = o)
                 (filter (λ r, Status r = "COMPLETED"
                               ∧ Cols r !! "generation"
                                 = Some (VInt (4 `div` 3 + 1 - 1))) rs))
        ∧ ranked !! Z.to_nat (4 `mod` 3) = Some r
        ∧ ∀ p, p ∈ ps → trial !! name p = to_dict r !! name p.
Proof.
  intros self ps member rs.
  destruct (PopulationBasedTraining.get_suggestion (H := det_random) self ps
              rs true 0%nat) as [[out s'] g'] eqn:E.
  assert (∃ trial, out = Ok (Config trial) ∧ trial !! "lr" = Some (VInt 7))
    as (trial & -> & Hlr).
  { vm_compute in E. injection E as <- _ _. eexists. split; [done|].
    vm_compute. reflexivity. }
  exists trial, s', g'. split; [done|]. split; [done|].
  apply (@pbt_top_slots_copy det_random self ps rs true 0%nat trial s' g').
  - intros p ->%list_elem_of_singleton.
    unfold PopulationBasedTraining.bookkeeping. cbn [name].
    rewrite !elem_of_cons, elem_of_nil. intros [?|[?|[?|[?|[]]]]]; done.
  - vm_compute. discriminate.
  - vm_compute. discriminate.
  - vm_compute. reflexivity.
  - exact E.
Defined.

(** ** LocalSearch: re-seeding from the results *)

Lemma idxmin_nonempty col :
  col ≠ [] →
  idxmin col
  = Ok (fst <$> argbest (λ q b, bool_decide (q < b)%Qc) col 0%nat None).
Proof. by destruct col. Qed.

Lemma idxmax_nonempty col :
  col ≠ [] →
  idxmax col
  = Ok (fst <$> argbest (λ q b, bool_decide (b < q)%Qc) col 0%nat None).
Proof. by destruct col. Qed.

(** X21.  "Get best result so far": without a COMPLETED row the seed stays
    as it is; otherwise the new seed consists of the parameter columns
    of a COMPLETED row whose objective is the best among the COMPLETED
    rows with a numeric objective.  Rows of any other status play no
    part. *)
Theorem local_search_reseed_best_completed (seed : config)
    (ps : list parameter) (rs : list row) (lower_is_better : bool) :
  ((∀ r, r ∈ rs → Status r ≠ "COMPLETED") →
   LocalSearch.reseed seed ps rs lower_is_better = Ok seed)
  ∧ (∀ seed',
       (∃ r, r ∈ rs ∧ Status r = "COMPLETED") →
       LocalSearch.reseed seed ps rs lower_is_better = Ok seed' →
       ∃ r q,
         r ∈ rs ∧ Status r = "COMPLETED" ∧ Objective r = Fin q
         ∧ dom seed' = list_to_set (name <$> ps)
         ∧ (∀ p, p ∈ ps → seed' !! name p = to_dict r !! name p)
         ∧ ∀ r' q', r' ∈ rs → Status r' = "COMPLETED" →
                    Objective r' = Fin q' →
                    if lower_is_better then (q ≤ q')%Qc else (q' ≤ q)%Qc).
Proof.
  unfold LocalSearch.reseed. split.
  - intros Hnone. case_decide; [|done].
    assert (completed_rows rs = []) as ->.
    { clear -Hnone. unfold completed_rows.
      induction rs as [|r rs IH]; [done|].
      rewrite filter_cons_False by (apply Hnone; by left).
      apply IH. intros r' Hr'. apply Hnone. by right. }
    by rewrite decide_False by (simpl; lia).
  - intros seed' (r0 & Hr0 & Hc0).
    rewrite decide_True by (destruct rs; [inversion Hr0|simpl; lia]).
    set (completed := completed_rows rs).
    assert (r0 ∈ completed) as Hin0 by by apply list_elem_of_filter.
    rewrite decide_True by (destruct completed; [inversion Hin0|simpl; lia]).
    assert (∀ better pos q,
              argbest better (Objective <$> completed) 0%nat None
              = Some (pos, q) →
              ∃ r, completed !! pos = Some r ∧ Objective r = Fin q
                   ∧ r ∈ rs ∧ Status r = "COMPLETED") as Hpos.
    { intros better pos q E.
      destruct (argbest_position _ _ _ _ _ _ E) as [?|[_ Hk]]; [done|].
      rewrite Nat.sub_0_r, list_lookup_fmap in Hk.
      destruct (completed !! pos) as [r|] eqn:Hr; [|done]. simpl in Hk.
      exists r. split_and!; [done|congruence|..];
        apply list_elem_of_lookup_2, list_elem_of_filter in Hr; tauto. }
    assert (∀ r seed', select_columns (to_dict r) (name <$> ps) ∅ = Ok seed' →
              dom seed' = list_to_set (name <$> ps)
              ∧ ∀ p, p ∈ ps → seed' !! name p = to_dict r !! name p) as Hsel.
    { intros r s' Hs'. split.
      - rewrite (select_columns_dom _ _ _ _ Hs'), dom_empty_L. set_solver.
      - intros p Hp. apply (proj1 (select_columns_lookup _ _ _ _ Hs')).
        by apply list_elem_of_fmap_2. }
    destruct lower_is_better.
    + rewrite idxmin_nonempty by (destruct completed; [inversion Hin0|done]).
      cbn [rbind].
      destruct (argbest _ (Objective <$> completed) 0%nat None)
        as [[pos q]|] eqn:E; cbn [fmap option_fmap option_map fst]; [|done].
      destruct (Hpos _ _ _ E) as (r & Hr & Hq & Hrs & Hst). rewrite Hr.
      intros Hs'. destruct (Hsel _ _ Hs') as [Hdom Hvals].
      exists r, q. split_and!; try done.
      intros r' q' Hr' Hst' Hq'. apply argbest_min in E as [E _]. apply E.
      apply list_elem_of_fmap. exists r'. split; [done|].
      by apply list_elem_of_filter.
    + rewrite idxmax_nonempty by (destruct completed; [inversion Hin0|done]).
      cbn [rbind].
      destruct (argbest _ (Objective <$> completed) 0%nat None)
        as [[pos q]|] eqn:E; cbn [fmap option_fmap option_map fst]; [|done].
      destruct (Hpos _ _ _ E) as (r & Hr & Hq & Hrs & Hst). rewrite Hr.
      intros Hs'. destruct (Hsel _ _ Hs') as [Hdom Hvals].
      exists r, q. split_and!; try done.
      intros r' q' Hr' Hst' Hq'. apply argbest_max in E as [E _]. apply E.
      apply list_elem_of_fmap. exists r'. split; [done|].
      by apply list_elem_of_filter.
Qed.
